(** * SQLite2MySQL: the migration engine, embedded and verified

    The development embeds the engine of [migrate.py] (classes [TypeMapper],
    [DuplicateResolver], [Validator], [Migrator]), the second entry point
    [run_migration_task] of [backend/main.py] and the text its [export_sql]
    writes.

    Conventions of the embedding.
    - A Python [str] is a [string] of bytes.  [upper] maps the letters a-z to
      A-Z and leaves every other byte alone, which is what [str.upper] does on
      ASCII text; Unicode case mapping of non-ASCII characters is outside the
      model.
    - A value stored in a SQLite cell is [VNull], [VInt] or [VText]; REAL and
      BLOB cells are outside the model.
    - Code that talks to a database is written in a state monad with
      exceptions; the state survives a raise, as the side effects of Python
      code do.
    - The source database is the set of its tables, each with its schema,
      its indexes and its rows; a row carries its rowid.  The statements the
      code sends are kept by shape, with the number of their placeholders:
      sqlite3 raises when the parameters bound to a statement are not as
      many.  Two values are equal when they are the same value; the type
      affinity and the collations of SQLite are outside the model.
    - Column names are compared without regard to case, as SQLite does.
      The word [rowid] in a statement names the column of that name when
      the table has one, and the row identifier SQLite keeps otherwise.
    - The target server is seen through the calls made on its connection.
      What a call answers and whether it raises is given by an environment,
      which also says which statements of the source fail.  What the server
      holds uncommitted is a function of these calls: the connection has
      autocommit off, and a MySQL server commits the open transaction when
      it executes DROP TABLE, CREATE TABLE or CREATE INDEX. *)

From Stdlib Require Import String Ascii List ZArith Bool Lia DecimalString.
From Stdlib Require DecimalPos DecimalZ.
Import ListNotations.
Open Scope string_scope.
Open Scope Z_scope.

(** ** Python strings *)

Module PyStr.

(** [c.upper()] for one ASCII character. *)
Definition upper_ascii (c : ascii) : ascii :=
  let n := nat_of_ascii c in
  if ((97 <=? n)%nat && (n <=? 122)%nat)%bool then ascii_of_nat (n - 32) else c.

(** [s.upper()]. *)
Fixpoint upper (s : string) : string :=
  match s with
  | EmptyString => EmptyString
  | String c s' => String (upper_ascii c) (upper s')
  end.

(** [key in s]: [key] occurs in [s] as a contiguous substring. *)
Fixpoint contains (key s : string) : bool :=
  match s with
  | EmptyString => prefix key EmptyString
  | String _ s' => prefix key s || contains key s'
  end.

(** [s.startswith(p)] is [prefix p s]; [s.endswith(p)]: *)
Fixpoint endswith (s p : string) : bool :=
  match s with
  | EmptyString => String.eqb p EmptyString
  | String _ s' => String.eqb s p || endswith s' p
  end.

Definition is_digit (c : ascii) : bool :=
  let n := nat_of_ascii c in ((48 <=? n)%nat && (n <=? 57)%nat)%bool.

Fixpoint all_digits (s : string) : bool :=
  match s with
  | EmptyString => true
  | String c s' => is_digit c && all_digits s'
  end.

(** [s.isdigit()]: non-empty and made of digits only. *)
Definition isdigit (s : string) : bool :=
  match s with
  | EmptyString => false
  | _ => all_digits s
  end.

(** [str(n)] for an integer. *)
Definition str_of_Z (n : Z) : string := NilZero.string_of_int (Z.to_int n).

(** [sep.join(l)]. *)
Fixpoint join (sep : string) (l : list string) : string :=
  match l with
  | [] => ""
  | [x] => x
  | x :: rest => x ++ sep ++ join sep rest
  end.

End PyStr.

Import PyStr.

(** ** TypeMapper *)

Module TypeMapper.

(** The class attribute [MAPPING].  A Python dict iterates in insertion
    order, so the literal is an ordered list of (key, value) rules. *)
Definition MAPPING : list (string * string) :=
  [ ("INTEGER", "INT");
    ("INT", "INT");
    ("TINYINT", "TINYINT");
    ("SMALLINT", "SMALLINT");
    ("MEDIUMINT", "MEDIUMINT");
    ("BIGINT", "BIGINT");
    ("UNSIGNED BIG INT", "BIGINT UNSIGNED");
    ("INT2", "SMALLINT");
    ("INT8", "BIGINT");
    ("TEXT", "LONGTEXT");
    ("CLOB", "LONGTEXT");
    ("BLOB", "LONGBLOB");
    ("REAL", "DOUBLE");
    ("DOUBLE", "DOUBLE");
    ("DOUBLE PRECISION", "DOUBLE");
    ("FLOAT", "FLOAT");
    ("NUMERIC", "DECIMAL(10,5)");
    ("BOOLEAN", "BOOLEAN");
    ("DATETIME", "DATETIME");
    ("DATE", "DATE");
    ("VARCHAR", "VARCHAR");
    ("NVARCHAR", "VARCHAR");
    ("CHARACTER", "CHAR") ].

(** The loop [for key, value in MAPPING.items(): if key in sqlite_type:
    return value], falling through to the default. *)
Fixpoint scan_rules (rules : list (string * string)) (sqlite_type : string)
  : string :=
  match rules with
  | [] => "LONGTEXT"
  | (key, value) :: rest =>
      if contains key sqlite_type then value else scan_rules rest sqlite_type
  end.

(** [TypeMapper.map_type] of migrate.py; [column_name] and [table_name] are
    never read by the body. *)
Definition map_type (sqlite_type column_name table_name : string) : string :=
  let sqlite_type := upper sqlite_type in
  if contains "VARCHAR" sqlite_type then
    if negb (contains "(" sqlite_type) then "VARCHAR(255)" else sqlite_type
  else scan_rules MAPPING sqlite_type.

End TypeMapper.

(** [TypeMapper.map_type] of backend/main.py: the same table and the same
    body, with one parameter. *)
Module Backend_TypeMapper.

Definition MAPPING : list (string * string) := TypeMapper.MAPPING.

Definition map_type (sqlite_type : string) : string :=
  let sqlite_type := upper sqlite_type in
  if contains "VARCHAR" sqlite_type then
    if negb (contains "(" sqlite_type) then "VARCHAR(255)" else sqlite_type
  else TypeMapper.scan_rules MAPPING sqlite_type.

End Backend_TypeMapper.

(** The match paths of [map_type], as the specification names them. *)
Inductive match_path : Type :=
| VarcharQualified
| VarcharDefault
| RuleMatch (key : string)
| Fallback.

(** [first_rule rules s key value]: [(key, value)] is the first rule of
    [rules] whose key occurs in [s]. *)
Definition first_rule (rules : list (string * string)) (s key value : string)
  : Prop :=
  exists before after,
    rules = (before ++ (key, value) :: after)%list /\
    Forall (fun kv => contains (fst kv) s = false) before /\
    contains key s = true.

(** [takes_path s p r]: on input [s] the path [p] applies and yields [r]. *)
Inductive takes_path (s : string) : match_path -> string -> Prop :=
| path_varchar_qualified :
    contains "VARCHAR" (upper s) = true ->
    contains "(" (upper s) = true ->
    takes_path s VarcharQualified (upper s)
| path_varchar_default :
    contains "VARCHAR" (upper s) = true ->
    contains "(" (upper s) = false ->
    takes_path s VarcharDefault "VARCHAR(255)"
| path_rule key value :
    contains "VARCHAR" (upper s) = false ->
    first_rule TypeMapper.MAPPING (upper s) key value ->
    takes_path s (RuleMatch key) value
| path_fallback :
    contains "VARCHAR" (upper s) = false ->
    Forall (fun kv => contains (fst kv) (upper s) = false) TypeMapper.MAPPING ->
    takes_path s Fallback "LONGTEXT".

(** The claim of the specification on the qualified VARCHAR path, as it is
    worded: the input itself comes back. *)
Definition varchar_returned_unchanged (s : string) : Prop :=
  contains "VARCHAR" (upper s) = true ->
  contains "(" (upper s) = true ->
  TypeMapper.map_type s "" "" = s.

(** ** Exceptions and the state monad of the engine *)

(** The exception classes the engine distinguishes.  [OperationalError] and
    [ProgrammingError] are the sqlite3 classes of those names; all of them are
    instances of Python's [Exception]. *)
Inductive exn : Type :=
| OperationalError
| ProgrammingError
| IntegrityError
| DatabaseError
| TypeError
| OtherError (msg : string).

Inductive outcome (A : Type) : Type :=
| Ret (a : A)
| Exc (e : exn).
Arguments Ret {A} a.
Arguments Exc {A} e.

(** A computation over a mutable state [S]: it returns or raises, and the
    state it leaves is kept in both cases. *)
Definition M (S A : Type) : Type := S -> outcome A * S.

Definition ret {S A} (a : A) : M S A := fun st => (Ret a, st).

Definition bind {S A B} (m : M S A) (k : A -> M S B) : M S B :=
  fun st =>
    match m st with
    | (Ret a, st') => k a st'
    | (Exc e, st') => (Exc e, st')
    end.

Definition raise {S A} (e : exn) : M S A := fun st => (Exc e, st).

(** [try: body / except <classes> as e: handler e]; [catches e] says whether
    the except clause lists the class of [e]. *)
Definition try_except {S A} (body : M S A) (catches : exn -> bool)
  (handler : exn -> M S A) : M S A :=
  fun st =>
    match body st with
    | (Ret a, st') => (Ret a, st')
    | (Exc e, st') => if catches e then handler e st' else (Exc e, st')
    end.

Definition gets {S A} (f : S -> A) : M S A := fun st => (Ret (f st), st).
Definition modify {S} (f : S -> S) : M S unit := fun st => (Ret tt, f st).

Declare Scope monad_scope.
Delimit Scope monad_scope with monad.
Notation "x <- m ;; k" := (bind m (fun x => k))
  (at level 61, m at next level, right associativity) : monad_scope.
Notation "m ;; k" := (bind m (fun _ => k))
  (at level 61, right associativity) : monad_scope.
Open Scope monad_scope.

(** [for x in l: body x]. *)
Fixpoint for_each {S A} (l : list A) (body : A -> M S unit) : M S unit :=
  match l with
  | [] => ret tt
  | x :: rest => body x ;; for_each rest body
  end.

(** A list comprehension whose element expression has effects. *)
Fixpoint map_m {S A B} (f : A -> M S B) (l : list A) : M S (list B) :=
  match l with
  | [] => ret []
  | x :: rest => y <- f x ;; ys <- map_m f rest ;; ret (y :: ys)
  end.

(** [except Exception] catches every class of [exn]. *)
Definition any_exception (e : exn) : bool := true.

(** [except sqlite3.OperationalError]. *)
Definition is_operational (e : exn) : bool :=
  match e with OperationalError => true | _ => false end.

(** ** The source database *)

Inductive value : Type :=
| VNull
| VInt (n : Z)
| VText (s : string).

Definition value_eqb (a b : value) : bool :=
  match a, b with
  | VNull, VNull => true
  | VInt x, VInt y => Z.eqb x y
  | VText x, VText y => String.eqb x y
  | _, _ => false
  end.

(** [v is None]. *)
Definition is_none (v : value) : bool :=
  match v with VNull => true | _ => false end.

(** [str(v)], as an f-string renders a fetched value. *)
Definition py_str (v : value) : string :=
  match v with
  | VNull => "None"
  | VInt n => str_of_Z n
  | VText s => s
  end.

(** Truth value of an integer flag ([if col['pk']], [if idx['unique']]). *)
Definition truthy (n : Z) : bool := negb (Z.eqb n 0).

(** A row of [PRAGMA table_info], as [get_table_schema] returns it. *)
Record column : Type := {
  col_cid : Z;
  col_name : string;
  col_type : string;
  col_notnull : Z;
  col_dflt_value : option string;
  col_pk : Z
}.

(** An index, as [get_indexes] returns it. *)
Record index : Type := {
  idx_name : string;
  idx_unique : Z;
  idx_columns : list string
}.

(** A stored row: its intrinsic row identifier and one value per column of
    the table, in declaration order. *)
Record row : Type := {
  rowid : Z;
  cells : list value
}.

Record table : Type := {
  columns : list column;
  indexes : list index;
  rows : list row
}.

Definition set_rows (t : table) (rs : list row) : table :=
  {| columns := columns t; indexes := indexes t; rows := rs |}.

(** SQLite compares the names of columns without regard to the case of the
    letters a-z. *)
Definition same_name (a b : string) : bool := String.eqb (upper a) (upper b).

(** Position of the column a statement names [c] in a schema. *)
Fixpoint col_index (c : string) (cols : list column) : option nat :=
  match cols with
  | [] => None
  | col :: rest =>
      if same_name (col_name col) c then Some O
      else option_map S (col_index c rest)
  end.

Definition has_column (t : table) (c : string) : bool :=
  match col_index c (columns t) with Some _ => true | None => false end.

(** The value of column [c] in row [r]. *)
Definition cell (t : table) (r : row) (c : string) : value :=
  match col_index c (columns t) with
  | Some i => nth i (cells r) VNull
  | None => VNull
  end.

Fixpoint set_nth {A} (i : nat) (x : A) (l : list A) : list A :=
  match l, i with
  | [], _ => []
  | _ :: rest, O => x :: rest
  | y :: rest, S j => y :: set_nth j x rest
  end.

Definition set_cell (t : table) (r : row) (c : string) (v : value) : row :=
  match col_index c (columns t) with
  | Some i => {| rowid := rowid r; cells := set_nth i v (cells r) |}
  | None => r
  end.

(** What the word [rowid] stands for in a statement on table [t]: the column
    of that name when the table declares one, the intrinsic row identifier
    otherwise.  (A table created WITHOUT ROWID has neither; a statement that
    names rowid fails on it, which the model leaves to the environment.) *)
Definition rowid_value (t : table) (r : row) : value :=
  match col_index "rowid" (columns t) with
  | Some i => nth i (cells r) VNull
  | None => VInt (rowid r)
  end.

(** The order of [ORDER BY ... ASC] on values: NULL first, then the
    integers, then the texts, byte by byte. *)
Definition value_leb (a b : value) : bool :=
  match a, b with
  | VNull, _ => true
  | _, VNull => false
  | VInt x, VInt y => Z.leb x y
  | VInt _, VText _ => true
  | VText _, VInt _ => false
  | VText x, VText y => String.leb x y
  end.

(** The first value of a list in that order. *)
Fixpoint least (vs : list value) : option value :=
  match vs with
  | [] => None
  | v :: rest =>
      match least rest with
      | None => Some v
      | Some m => Some (if value_leb v m then v else m)
      end
  end.

(** One conjunct of a WHERE clause the resolver builds. *)
Inductive cond : Type :=
| CEq (c : string)        (* `c` = ?      *)
| CIsNull (c : string)    (* `c` IS NULL  *)
| CRowidNe.               (* rowid != ?   *)

(** The statements the engine sends to the source connection, by shape; the
    table each one names is an argument, as in the f-strings of the code. *)
Inductive stmt : Type :=
| ListTables
    (* SELECT name FROM sqlite_master
       WHERE type='table' AND name NOT LIKE 'sqlite_%' *)
| PragmaTableInfo (t : string)
| PragmaIndexList (t : string)
| PragmaIndexInfo (idx : string)
| SelectDuplicates (t : string) (cols : list string)
    (* SELECT cols, COUNT( * ) FROM t GROUP BY cols HAVING COUNT( * ) > 1 *)
| SelectKeeper (t : string) (where_ : list cond)
    (* SELECT rowid FROM t WHERE where_ ORDER BY rowid ASC LIMIT 1 *)
| SelectRowids (t : string) (where_ : list cond)
    (* SELECT rowid FROM t WHERE where_ *)
| DeleteWhere (t : string) (where_ : list cond)
    (* DELETE FROM t WHERE where_ *)
| SelectCell (t : string) (c : string)
    (* SELECT c FROM t WHERE rowid = ? *)
| UpdateCell (t : string) (c : string)
    (* UPDATE t SET c = ? WHERE rowid = ? *)
| SelectCount (t : string)
| SelectAll (t : string)
| Commit.

Definition cond_placeholders (c : cond) : nat :=
  match c with CEq _ => 1 | CIsNull _ => 0 | CRowidNe => 1 end%nat.

Definition where_placeholders (w : list cond) : nat :=
  list_sum (map cond_placeholders w).

(** Number of [?] in the text of a statement. *)
Definition placeholders (s : stmt) : nat :=
  match s with
  | SelectKeeper _ w | SelectRowids _ w | DeleteWhere _ w =>
      where_placeholders w
  | SelectCell _ _ => 1
  | UpdateCell _ _ => 2
  | _ => 0
  end%nat.

Definition cond_columns (c : cond) : list string :=
  match c with CEq c | CIsNull c => [c] | CRowidNe => [] end.

(** The table a statement reads or writes, and the columns it names. *)
Definition stmt_table (s : stmt) : option string :=
  match s with
  | SelectDuplicates t _ | SelectKeeper t _ | SelectRowids t _
  | DeleteWhere t _ | SelectCell t _ | UpdateCell t _
  | SelectCount t | SelectAll t => Some t
  | _ => None
  end.

Definition stmt_columns (s : stmt) : list string :=
  match s with
  | SelectDuplicates _ cols => cols
  | SelectKeeper _ w | SelectRowids _ w | DeleteWhere _ w =>
      flat_map cond_columns w
  | SelectCell _ c | UpdateCell _ c => [c]
  | _ => []
  end.

(** The calls made on the MySQL connection and its cursors. *)
Inductive tcall : Type :=
| TExecute (sql : string)
| TExecuteMany (sql : string) (batch : list (list value))
| TCommit
| TRollback.

(** What a run cannot control.  A source statement that [src_faults] maps to
    [Some e] raises [e] when executed (a locked or damaged file, a lost
    handle); likewise [tgt_faults] for the calls on the target;
    [tgt_scalar] is the answer of the target to a scalar SELECT, by the text
    of the query. *)
Record environment : Type := {
  src_faults : stmt -> option exn;
  tgt_faults : tcall -> option exn;
  tgt_scalar : string -> Z
}.

Definition calm : environment :=
  {| src_faults := fun _ => None;
     tgt_faults := fun _ => None;
     tgt_scalar := fun _ => 0 |}.

Inductive level : Type := WARNING | INFO | ERROR.

(** The messages the resolver logs, by the line of migrate.py that formats
    them. *)
Inductive message : Type :=
| MsgFound (n : nat) (table_name : string) (cols : list string)
    (* "Encontradas {n} duplicatas na tabela {table_name}
        para as colunas {cols}" *)
| MsgRemoved (deleted_count : Z) (table_name : string) (vals : list value)
    (* "Removidas {deleted_count} duplicatas de {table_name} para {vals}" *)
| MsgResolveError (table_name : string) (e : exn)
    (* "Erro ao resolver duplicata em {table_name}: {e}" *)
| MsgOther (text : string).
    (* the other lines of the log, by their fixed text *)

(** An entry of the list [resolve] returns; each stands for the string the
    code appends. *)
Inductive resolution : Type :=
| Removed (deleted_count : Z) (table_name : string) (vals : list value)
    (* "Removidas {deleted_count} duplicatas de {table_name} para {vals}" *)
| Renamed (table_name : string) (orig_val : value) (new_val : string).
    (* "Renomeada duplicata em {table_name}: {orig_val} -> {new_val}" *)

(** The source side of a run: the SQLite file behind [DatabaseAnalyzer], the
    module logger, and the local list [resolutions] of [resolve]. *)
Record source : Type := {
  s_names : list string;
  s_tables : string -> option table;
  s_log : list (level * message);
  s_commits : nat;
  s_resolutions : list resolution
}.

Definition put_table (name : string) (t : table) (st : source) : source :=
  {| s_names := s_names st;
     s_tables := fun n => if String.eqb n name then Some t else s_tables st n;
     s_log := s_log st;
     s_commits := s_commits st;
     s_resolutions := s_resolutions st |}.

Definition add_log (l : level) (m : message) (st : source) : source :=
  {| s_names := s_names st;
     s_tables := s_tables st;
     s_log := (s_log st ++ [(l, m)])%list;
     s_commits := s_commits st;
     s_resolutions := s_resolutions st |}.

Definition add_commit (st : source) : source :=
  {| s_names := s_names st;
     s_tables := s_tables st;
     s_log := s_log st;
     s_commits := S (s_commits st);
     s_resolutions := s_resolutions st |}.

Definition set_resolutions (rs : list resolution) (st : source) : source :=
  {| s_names := s_names st;
     s_tables := s_tables st;
     s_log := s_log st;
     s_commits := s_commits st;
     s_resolutions := rs |}.

Definition logger (l : level) (m : message) : M source unit :=
  modify (add_log l m).

(** *** What the statements compute *)

Definition empty_table : table :=
  {| columns := []; indexes := []; rows := [] |}.

Definition the_table (t : string) (st : source) : table :=
  match s_tables st t with Some tb => tb | None => empty_table end.

(** SQL comparison: it is not satisfied when either side is NULL. *)
Definition sql_eq (a b : value) : bool :=
  negb (is_none a) && negb (is_none b) && value_eqb a b.

Definition sql_ne (a b : value) : bool :=
  negb (is_none a) && negb (is_none b) && negb (value_eqb a b).

(** Does row [r] satisfy the conjunction [w], its placeholders bound to
    [params] from left to right? *)
Fixpoint eval_where (t : table) (w : list cond) (params : list value) (r : row)
  : bool :=
  match w with
  | [] => true
  | CIsNull c :: k => is_none (cell t r c) && eval_where t k params r
  | CEq c :: k =>
      match params with
      | v :: ps => sql_eq (cell t r c) v && eval_where t k ps r
      | [] => false
      end
  | CRowidNe :: k =>
      match params with
      | v :: ps => sql_ne (rowid_value t r) v && eval_where t k ps r
      | [] => false
      end
  end.

(** The values of the columns [cols] in a row: the key GROUP BY groups on. *)
Definition key_of (t : table) (cols : list string) (r : row) : list value :=
  map (cell t r) cols.

Fixpoint key_eqb (a b : list value) : bool :=
  match a, b with
  | [], [] => true
  | x :: a', y :: b' => value_eqb x y && key_eqb a' b'
  | _, _ => false
  end.

(** Grouping treats two NULLs as equal, which [key_eqb] does. *)
Definition group_of (t : table) (cols : list string) (k : list value)
  : list row :=
  filter (fun r => key_eqb (key_of t cols r) k) (rows t).

Fixpoint mem_key (k : list value) (l : list (list value)) : bool :=
  match l with
  | [] => false
  | k' :: rest => key_eqb k k' || mem_key k rest
  end.

(** The distinct keys of a list, each at its last occurrence. *)
Fixpoint distinct_keys (l : list (list value)) : list (list value) :=
  match l with
  | [] => []
  | k :: rest => if mem_key k rest then distinct_keys rest
                 else k :: distinct_keys rest
  end.

(** Result of the grouping query: one tuple [key ++ [count]] per key that
    more than one row carries.  SQL leaves the order of the groups open; the
    model lists them in table order of their last member. *)
Definition duplicate_groups (t : table) (cols : list string)
  : list (list value) :=
  flat_map
    (fun k =>
       let n := length (group_of t cols k) in
       if (1 <? n)%nat then [(k ++ [VInt (Z.of_nat n)])%list] else [])
    (distinct_keys (map (key_of t cols) (rows t))).

(** The lowest intrinsic row identifier of a list of rows. *)
Fixpoint min_rowid (rs : list row) : option Z :=
  match rs with
  | [] => None
  | r :: rest =>
      match min_rowid rest with
      | None => Some (rowid r)
      | Some m => Some (Z.min (rowid r) m)
      end
  end.

(** [cursor.execute(s, params)] up to the point where the statement runs:
    the environment may make it raise; a table or column that does not exist
    is an [OperationalError] of the SQL compiler; a parameter sequence whose
    length differs from the number of placeholders is a [ProgrammingError]
    of the sqlite3 module. *)
Definition execute (env : environment) (s : stmt) (params : list value)
  : M source unit :=
  fun st =>
    match src_faults env s with
    | Some e => (Exc e, st)
    | None =>
        let known :=
          match stmt_table s with
          | Some t =>
              match s_tables st t with
              | Some tb => forallb (has_column tb) (stmt_columns s)
              | None => false
              end
          | None => true
          end in
        if negb known then (Exc OperationalError, st)
        else if negb (Nat.eqb (placeholders s) (length params))
             then (Exc ProgrammingError, st)
             else (Ret tt, st)
    end.

Definition select_duplicates (env : environment)
  (t : string) (cols : list string)
  : M source (list (list value)) :=
  execute env (SelectDuplicates t cols) [] ;;
  gets (fun st => duplicate_groups (the_table t st) cols).

(** [execute] of the keeper query followed by [fetchone()]: the first
    [rowid] of the selected rows in ascending order, when there is one. *)
Definition select_keeper (env : environment)
  (t : string) (w : list cond) (params : list value)
  : M source (option value) :=
  execute env (SelectKeeper t w) params ;;
  gets (fun st =>
          let tb := the_table t st in
          least (map (rowid_value tb)
                   (filter (eval_where tb w params) (rows tb)))).

(** [execute] followed by [[r[0] for r in fetchall()]]. *)
Definition select_rowids (env : environment)
  (t : string) (w : list cond) (params : list value)
  : M source (list value) :=
  execute env (SelectRowids t w) params ;;
  gets (fun st =>
          let tb := the_table t st in
          map (rowid_value tb) (filter (eval_where tb w params) (rows tb))).

(** [execute] of the DELETE; the result is [cursor.rowcount]. *)
Definition delete_where (env : environment)
  (t : string) (w : list cond) (params : list value)
  : M source Z :=
  execute env (DeleteWhere t w) params ;;
  fun st =>
    let tb := the_table t st in
    let gone := filter (eval_where tb w params) (rows tb) in
    let kept := filter (fun r => negb (eval_where tb w params r)) (rows tb) in
    (Ret (Z.of_nat (length gone)), put_table t (set_rows tb kept) st).

(** [execute] followed by [fetchone()]; the caller subscripts the result. *)
Definition select_cell (env : environment) (t c : string) (rid : value)
  : M source (option value) :=
  execute env (SelectCell t c) [rid] ;;
  gets (fun st =>
          let tb := the_table t st in
          match filter (fun r => sql_eq (rowid_value tb r) rid) (rows tb) with
          | r :: _ => Some (cell tb r c)
          | [] => None
          end).

Definition update_cell (env : environment)
  (t c : string) (new_val : value) (rid : value)
  : M source unit :=
  execute env (UpdateCell t c) [new_val; rid] ;;
  modify (fun st =>
            let tb := the_table t st in
            put_table t
              (set_rows tb
                 (map (fun r => if sql_eq (rowid_value tb r) rid
                                then set_cell tb r c new_val else r)
                      (rows tb)))
              st).

Definition select_count (env : environment) (t : string) : M source Z :=
  execute env (SelectCount t) [] ;;
  gets (fun st => Z.of_nat (length (rows (the_table t st)))).

Definition select_all (env : environment) (t : string) : M source (list row) :=
  execute env (SelectAll t) [] ;;
  gets (fun st => rows (the_table t st)).

(** [self.analyzer.conn.commit()]. *)
Definition conn_commit (env : environment) : M source unit :=
  execute env Commit [] ;; modify add_commit.

(** ** DatabaseAnalyzer *)

Module DatabaseAnalyzer.

Definition get_tables (env : environment) : M source (list string) :=
  execute env ListTables [] ;; gets s_names.

Definition get_table_schema (env : environment) (table_name : string)
  : M source (list column) :=
  execute env (PragmaTableInfo table_name) [] ;;
  gets (fun st => columns (the_table table_name st)).

(** The outer PRAGMA lists the indexes of the table; for each, a second
    PRAGMA reads its columns. *)
Definition get_indexes (env : environment) (table_name : string)
  : M source (list index) :=
  execute env (PragmaIndexList table_name) [] ;;
  listed <- gets (fun st => indexes (the_table table_name st)) ;;
  map_m (fun row =>
           let idx_name := idx_name row in
           let unique := idx_unique row in
           execute env (PragmaIndexInfo idx_name) [] ;;
           let cols := idx_columns row in
           ret {| idx_name := idx_name; idx_unique := unique;
                  idx_columns := cols |})
        listed.

End DatabaseAnalyzer.

(** ** DuplicateResolver *)

Module DuplicateResolver.

Import DatabaseAnalyzer.

Definition find_duplicates (env : environment)
  (table_name : string) (unique_cols : list string)
  : M source (list (list value)) :=
  match unique_cols with
  | [] => ret []
  | _ =>
      try_except (select_duplicates env table_name unique_cols)
        is_operational
        (fun _ => ret [])
  end.

(** The dict literal [common_grafana_unique], in source order. *)
Definition common_grafana_unique : list (string * list (list string)) :=
  [ ("user", [["login"]; ["email"]]);
    ("dashboard", [["uid"]; ["slug"; "org_id"]]);
    ("org", [["name"]]);
    ("data_source", [["uid"; "org_id"]; ["name"; "org_id"]]);
    ("team", [["name"; "org_id"]]);
    ("folder", [["uid"]; ["title"; "org_id"]]) ].

Fixpoint dict_get {A} (k : string) (d : list (string * A)) : option A :=
  match d with
  | [] => None
  | (k', v) :: rest => if String.eqb k k' then Some v else dict_get k rest
  end.

(** [c in l] for a list of strings. *)
Definition str_in (c : string) (l : list string) : bool :=
  existsb (String.eqb c) l.

(** [set(a) == set(b)]. *)
Definition set_eq (a b : list string) : bool :=
  forallb (fun c => str_in c b) a && forallb (fun c => str_in c a) b.

(** One iteration of [for check_cols in common_grafana_unique[table_name]]. *)
Definition add_pseudo_index (existing_cols : list string)
  (unique_indexes : list index) (check_cols : list string) : list index :=
  let valid_cols := filter (fun c => str_in c existing_cols) check_cols in
  if Nat.eqb (length valid_cols) (length check_cols) then
    if negb (existsb (fun idx => set_eq (idx_columns idx) valid_cols)
               unique_indexes)
    then (unique_indexes ++
          [ {| idx_name := "pseudo_idx_" ++ join "_" valid_cols;
               idx_columns := valid_cols;
               idx_unique := 1 |} ])%list
    else unique_indexes
  else unique_indexes.

(** The list [unique_indexes] as it stands when the resolution loop starts. *)
Definition constraint_groups (env : environment) (table_name : string)
  : M source (list index) :=
  indexes <- get_indexes env table_name ;;
  let unique_indexes := filter (fun idx => truthy (idx_unique idx)) indexes in
  match dict_get table_name common_grafana_unique with
  | Some groups =>
      schema <- get_table_schema env table_name ;;
      let existing_cols := map col_name schema in
      ret (fold_left (add_pseudo_index existing_cols) groups unique_indexes)
  | None => ret unique_indexes
  end.

(** [" AND ".join([f"`{c}` = ?" if dupe[i] is not None else f"`{c}` IS NULL"
    for i, c in enumerate(idx['columns'])])], from position [i] on. *)
Fixpoint cols_vals_from (i : nat) (cols : list string) (dupe : list value)
  : list cond :=
  match cols with
  | [] => []
  | c :: rest =>
      (if negb (is_none (nth i dupe VNull)) then CEq c else CIsNull c)
      :: cols_vals_from (S i) rest dupe
  end.

Definition cols_vals_of (cols : list string) (dupe : list value) : list cond :=
  cols_vals_from 0 cols dupe.

(** [[v for v in dupe[:-1] if v is not None]]. *)
Definition vals_of (dupe : list value) : list value :=
  filter (fun v => negb (is_none v)) (removelast dupe).

Definition append_resolution (r : resolution) : M source unit :=
  modify (fun st => set_resolutions (s_resolutions st ++ [r])%list st).

(** [enumerate(l, start)]. *)
Fixpoint enumerate {A} (start : Z) (l : list A) : list (Z * A) :=
  match l with
  | [] => []
  | x :: rest => (start, x) :: enumerate (start + 1) rest
  end.

(** The body of [for i, rid in enumerate(ids_to_fix, 1)]. *)
Definition rename_one (env : environment)
  (table_name : string) (idx : index) (i_rid : Z * value)
  : M source unit :=
  let '(i, rid) := i_rid in
  match idx_columns idx with
  | [] => raise (OtherError "IndexError")
  | col_to_rename :: _ =>
      fetched <- select_cell env table_name col_to_rename rid ;;
      match fetched with
      | None => raise TypeError
      | Some orig_val =>
          let new_val := py_str orig_val ++ "_dup_" ++ str_of_Z i in
          update_cell env table_name col_to_rename (VText new_val) rid ;;
          append_resolution (Renamed table_name orig_val new_val)
      end
  end.

(** The [try] block of the loop over [dupes]: the keeper is looked up and
    the other rows of the group are deleted or renamed. *)
Definition resolve_dupe_body (env : environment) (table_name strategy : string)
  (idx : index) (cols_vals : list cond) (vals : list value) : M source unit :=
  keep_id_row <- select_keeper env table_name cols_vals vals ;;
  match keep_id_row with
  | None => ret tt
  | Some keep_id =>
      if String.eqb strategy "remove" then
        deleted_count <-
          delete_where env table_name (cols_vals ++ [CRowidNe])%list
            (vals ++ [keep_id])%list ;;
        logger INFO (MsgRemoved deleted_count table_name vals) ;;
        append_resolution (Removed deleted_count table_name vals)
      else if String.eqb strategy "rename" then
        ids_to_fix <-
          select_rowids env table_name (cols_vals ++ [CRowidNe])%list vals ;;
        for_each (enumerate 1 ids_to_fix) (rename_one env table_name idx)
      else ret tt
  end.

(** The body of [for dupe in dupes]: the [try] block and its
    [except Exception] handler. *)
Definition resolve_dupe (env : environment) (table_name strategy : string)
  (idx : index) (dupe : list value) : M source unit :=
  let cols_vals := cols_vals_of (idx_columns idx) dupe in
  let vals := vals_of dupe in
  try_except
    (resolve_dupe_body env table_name strategy idx cols_vals vals)
    any_exception
    (fun e => logger ERROR (MsgResolveError table_name e)).

(** The body of [for idx in unique_indexes]. *)
Definition resolve_index (env : environment)
  (table_name strategy : string) (idx : index)
  : M source unit :=
  dupes <- find_duplicates env table_name (idx_columns idx) ;;
  match dupes with
  | [] => ret tt
  | _ =>
      logger WARNING (MsgFound (length dupes) table_name (idx_columns idx)) ;;
      for_each dupes (resolve_dupe env table_name strategy idx)
  end.

Definition resolve (env : environment) (table_name strategy : string)
  : M source (list resolution) :=
  unique_indexes <- constraint_groups env table_name ;;
  modify (set_resolutions []) ;;
  for_each unique_indexes (resolve_index env table_name strategy) ;;
  resolutions <- gets s_resolutions ;;
  match resolutions with
  | [] => ret tt
  | _ => conn_commit env
  end ;;
  ret resolutions.

End DuplicateResolver.

(** *** The running example of the specification *)

Definition user_columns : list column :=
  [ {| col_cid := 0; col_name := "id"; col_type := "INTEGER";
       col_notnull := 0; col_dflt_value := None; col_pk := 1 |};
    {| col_cid := 1; col_name := "login"; col_type := "TEXT";
       col_notnull := 1; col_dflt_value := None; col_pk := 0 |};
    {| col_cid := 2; col_name := "email"; col_type := "TEXT";
       col_notnull := 0; col_dflt_value := None; col_pk := 0 |};
    {| col_cid := 3; col_name := "is_admin"; col_type := "BOOLEAN";
       col_notnull := 0; col_dflt_value := None; col_pk := 0 |} ].

Definition user_row (id : Z) (login email : string) (is_admin : Z) : row :=
  {| rowid := id;
     cells := [VInt id; VText login; VText email; VInt is_admin] |}.

(** user(id, login, email, is_admin) with the three rows of the scenario and
    no index on [login]. *)
Definition user_table : table :=
  {| columns := user_columns;
     indexes := [];
     rows := [ user_row 1 "admin" "a@x" 1;
               user_row 2 "user1" "u@x" 0;
               user_row 3 "admin" "a2@x" 0 ] |}.

Definition source_of (name : string) (t : table) : source :=
  {| s_names := [name];
     s_tables := fun n => if String.eqb n name then Some t else None;
     s_log := [];
     s_commits := 0;
     s_resolutions := [] |}.

(** ** The target connection *)

(** The target server is seen through its interface.  [t_trace] records the
    calls in the order they are made; which call raises and what a scalar
    SELECT answers is given by the environment: the engine never looks at the
    target in another way.  The connection is opened with
    [autocommit = False]; what the server holds uncommitted after the calls
    of a trace, given that it commits on its own at every DDL statement, is
    [open_transaction] below. *)
Record target : Type := {
  t_trace : list tcall
}.

Definition record_call (c : tcall) (tg : target) : target :=
  {| t_trace := (t_trace tg ++ [c])%list |}.

(** A call on the target: it is recorded, then it raises or returns. *)
Definition tcall_do (env : environment) (c : tcall) : M target unit :=
  fun tg =>
    match tgt_faults env c with
    | Some e => (Exc e, record_call c tg)
    | None => (Ret tt, record_call c tg)
    end.

(** [cursor.execute(sql)] followed by [fetchone()[0]] for a scalar query. *)
Definition tquery_scalar (env : environment) (sql : string) : M target Z :=
  tcall_do env (TExecute sql) ;; ret (tgt_scalar env sql).

(** ** The migration report and the state of a [Migrator] *)

Record table_report : Type := {
  tr_status : string;
  tr_validation : option string
}.

Record test_result : Type := {
  test_name : string;
  test_status : string;
  test_message : string
}.

Record report : Type := {
  r_tables : list (string * table_report);
  r_duplicate_resolutions : list resolution;
  r_validation_results : list test_result;
  r_errors : list exn;
  r_status : string
}.

(** [self.report] as [__init__] leaves it (the timestamps are left out). *)
Definition initial_report : report :=
  {| r_tables := [];
     r_duplicate_resolutions := [];
     r_validation_results := [];
     r_errors := [];
     r_status := "started" |}.

Record options : Type := {
  resolve_duplicates : bool;
  duplicate_strategy : string
}.

(** The two connections of a run and the report of type [R] it builds. *)
Record engine (R : Type) : Type := {
  src : source;
  tgt : target;
  rep : R
}.
Arguments src {R} _.
Arguments tgt {R} _.
Arguments rep {R} _.

Definition migrator : Type := engine report.

Definition lift_src {R A} (m : M source A) : M (engine R) A :=
  fun st =>
    let '(o, s') := m (src st) in
    (o, {| src := s'; tgt := tgt st; rep := rep st |}).

Definition lift_tgt {R A} (m : M target A) : M (engine R) A :=
  fun st =>
    let '(o, t') := m (tgt st) in
    (o, {| src := src st; tgt := t'; rep := rep st |}).

Definition update_report {R} (f : R -> R) : M (engine R) unit :=
  modify (fun st => {| src := src st; tgt := tgt st; rep := f (rep st) |}).

(** [d[k] = v] on a dict kept in insertion order. *)
Fixpoint dict_set {A} (k : string) (v : A) (d : list (string * A))
  : list (string * A) :=
  match d with
  | [] => [(k, v)]
  | (k', v') :: rest =>
      if String.eqb k k' then (k, v) :: rest else (k', v') :: dict_set k v rest
  end.

Definition set_table_status (t : string) (r : report) : report :=
  {| r_tables :=
       dict_set t {| tr_status := "success"; tr_validation := None |}
         (r_tables r);
     r_duplicate_resolutions := r_duplicate_resolutions r;
     r_validation_results := r_validation_results r;
     r_errors := r_errors r;
     r_status := r_status r |}.

(** [self.report["tables"][table]["validation"] = v]: a [KeyError] when the
    table has no entry. *)
Definition set_table_validation (t v : string) : M migrator unit :=
  fun st =>
    let r := rep st in
    match DuplicateResolver.dict_get t (r_tables r) with
    | None => (Exc (OtherError "KeyError"), st)
    | Some e =>
        (Ret tt,
         {| src := src st; tgt := tgt st;
            rep :=
              {| r_tables :=
                   dict_set t {| tr_status := tr_status e;
                                 tr_validation := Some v |} (r_tables r);
                 r_duplicate_resolutions := r_duplicate_resolutions r;
                 r_validation_results := r_validation_results r;
                 r_errors := r_errors r;
                 r_status := r_status r |} |})
    end.

Definition extend_resolutions (l : list resolution) (r : report) : report :=
  {| r_tables := r_tables r;
     r_duplicate_resolutions := (r_duplicate_resolutions r ++ l)%list;
     r_validation_results := r_validation_results r;
     r_errors := r_errors r;
     r_status := r_status r |}.

Definition set_validation_results (l : list test_result) (r : report)
  : report :=
  {| r_tables := r_tables r;
     r_duplicate_resolutions := r_duplicate_resolutions r;
     r_validation_results := l;
     r_errors := r_errors r;
     r_status := r_status r |}.

Definition set_status (s : string) (r : report) : report :=
  {| r_tables := r_tables r;
     r_duplicate_resolutions := r_duplicate_resolutions r;
     r_validation_results := r_validation_results r;
     r_errors := r_errors r;
     r_status := s |}.

Definition append_error (e : exn) (r : report) : report :=
  {| r_tables := r_tables r;
     r_duplicate_resolutions := r_duplicate_resolutions r;
     r_validation_results := r_validation_results r;
     r_errors := (r_errors r ++ [e])%list;
     r_status := r_status r |}.

(** ** Validator *)

Module Validator.

Definition count_query (table_name : string) : string :=
  "SELECT COUNT(" ++ "*" ++ ") FROM `" ++ table_name ++ "`".

Definition validate_counts (env : environment) (table_name : string)
  : M migrator bool :=
  sqlite_count <- lift_src (select_count env table_name) ;;
  mysql_count <- lift_tgt (tquery_scalar env (count_query table_name)) ;;
  ret (Z.eqb sqlite_count mysql_count).

Definition admin_query : string :=
  "SELECT COUNT(" ++ "*" ++ ") as count FROM `user` WHERE is_admin = 1".

Definition dashboard_query : string :=
  "SELECT COUNT(" ++ "*" ++ ") as count FROM `dashboard`".

(** One of the two [try: ... except: pass] blocks of [run_grafana_tests]. *)
Definition grafana_test (env : environment) (name sql what : string)
  : M migrator (list test_result) :=
  try_except
    (count <- lift_tgt (tquery_scalar env sql) ;;
     ret [ {| test_name := name;
              test_status := if (0 <? count) then "pass" else "warn";
              test_message := "Found " ++ str_of_Z count ++ " " ++ what |} ])
    any_exception
    (fun _ => ret []).

Definition run_grafana_tests (env : environment)
  : M migrator (list test_result) :=
  t1 <- grafana_test env "Admin User Check" admin_query "admins" ;;
  t2 <- grafana_test env "Dashboard Check" dashboard_query "dashboards" ;;
  ret (t1 ++ t2)%list.

End Validator.

(** ** Migrator *)

Module Migrator.

Import DatabaseAnalyzer.

(** The translated default-value clause of one column. *)
Definition default_str (col : column) : string :=
  match col_dflt_value col with
  | Some dflt =>
      if String.eqb (upper dflt) "CURRENT_TIMESTAMP" then
        "DEFAULT CURRENT_TIMESTAMP"
      else if prefix "'" dflt && endswith dflt "'" then "DEFAULT " ++ dflt
      else if isdigit dflt then "DEFAULT " ++ dflt
      else ""
  | None => ""
  end.

(** The variable [extra] of the column loop. *)
Definition extra (table_name : string) (col : column) : string :=
  let mysql_type :=
    TypeMapper.map_type (col_type col) (col_name col) table_name in
  if truthy (col_pk col) && contains "INT" (upper mysql_type)
  then "AUTO_INCREMENT" else "".

(** The string appended to [mysql_cols] for one column. *)
Definition column_line (table_name : string) (col : column) : string :=
  let mysql_type :=
    TypeMapper.map_type (col_type col) (col_name col) table_name in
  let null_str := if truthy (col_notnull col) then "NOT NULL" else "NULL" in
  "`" ++ col_name col ++ "` " ++ mysql_type ++ " " ++ null_str ++ " "
      ++ default_str col ++ " " ++ extra table_name col.

(** [pk_cols] after the column loop: both branches that test [col['pk']]
    append the name. *)
Definition pk_cols_of (cols : list column) : list string :=
  map col_name (filter (fun col => truthy (col_pk col)) cols).

Definition backquote (c : string) : string := "`" ++ c ++ "`".

Definition newline : string := String (ascii_of_nat 10) "".

Definition create_query (table_name : string) (cols : list column) : string :=
  let mysql_cols := map (column_line table_name) cols in
  let pk_cols := pk_cols_of cols in
  "CREATE TABLE IF NOT EXISTS `" ++ table_name ++ "` (" ++ newline ++ "  "
    ++ join ("," ++ newline ++ "  ") mysql_cols
    ++ (match pk_cols with
        | [] => ""
        | _ => "," ++ newline ++ "  PRIMARY KEY ("
                 ++ join ", " (map backquote pk_cols) ++ ")"
        end)
    ++ newline ++ ") ENGINE=InnoDB DEFAULT CHARSET=utf8mb4;".

(** The body of [for idx in indexes] of [create_mysql_schema]. *)
Definition create_index (env : environment)
  (table_name : string) (pk_cols : list string)
  (idx : index) : M migrator unit :=
  if existsb (fun col => DuplicateResolver.str_in col pk_cols) (idx_columns idx)
     && truthy (idx_unique idx)
     && Nat.eqb (length (idx_columns idx)) 1
  then ret tt
  else
    let idx_type :=
      if truthy (idx_unique idx) then "UNIQUE INDEX" else "INDEX" in
    let cols := join ", " (map backquote (idx_columns idx)) in
    try_except
      (lift_tgt (tcall_do env (TExecute
         ("CREATE " ++ idx_type ++ " `" ++ idx_name idx ++ "` ON `"
            ++ table_name ++ "` (" ++ cols ++ ")"))))
      any_exception
      (fun e =>
         lift_src (logger WARNING (MsgOther "Erro ao criar indice")) ;;
         if truthy (idx_unique idx) then
           lift_src
             (logger INFO (MsgOther "Tentando criar indice nao-unico")) ;;
           lift_tgt (tcall_do env (TExecute
             ("CREATE INDEX `" ++ idx_name idx ++ "_non_unique` ON `"
                ++ table_name ++ "` (" ++ cols ++ ")")))
         else ret tt).

Definition create_mysql_schema (env : environment) (table_name : string)
  : M migrator unit :=
  columns <- lift_src (get_table_schema env table_name) ;;
  indexes <- lift_src (get_indexes env table_name) ;;
  let pk_cols := pk_cols_of columns in
  lift_tgt (tcall_do env
              (TExecute ("DROP TABLE IF EXISTS `" ++ table_name ++ "`"))) ;;
  lift_tgt (tcall_do env (TExecute (create_query table_name columns))) ;;
  for_each indexes (create_index env table_name pk_cols).

(** [[rows[i:i + batch_size] for i in range(0, len(rows), batch_size)]];
    [fuel] bounds the number of batches. *)
Fixpoint batches {A} (fuel batch_size : nat) (rows : list A) : list (list A) :=
  match fuel, rows with
  | O, _ => []
  | _, [] => []
  | S fuel', _ =>
      firstn batch_size rows :: batches fuel' batch_size (skipn batch_size rows)
  end.

Definition insert_query (table_name : string) (col_names : list string)
  : string :=
  "INSERT INTO `" ++ table_name ++ "` ("
    ++ join ", " (map backquote col_names) ++ ") VALUES ("
    ++ join ", " (map (fun _ => "%s") col_names) ++ ")".

Definition migrate_data (env : environment) (table_name : string)
  : M migrator unit :=
  rows <- lift_src (select_all env table_name) ;;
  match rows with
  | [] => ret tt
  | _ =>
      col_names <-
        lift_src
          (gets (fun st =>
                   map col_name (columns (the_table table_name st)))) ;;
      let insert_query := insert_query table_name col_names in
      for_each (batches (length rows) 1000 rows)
        (fun batch =>
           let cleaned_batch := map cells batch in
           try_except
             (lift_tgt (tcall_do env (TExecuteMany insert_query cleaned_batch)))
             any_exception
             (fun e =>
                lift_src (logger ERROR (MsgOther "Erro ao inserir dados")) ;;
                raise e))
  end.

(** The body of the validation loop of [run]. *)
Definition validate_table (env : environment) (table : string)
  : M migrator unit :=
  count_ok <- Validator.validate_counts env table ;;
  if negb count_ok then
    lift_src (logger WARNING (MsgOther "Diferenca na contagem de registros")) ;;
    set_table_validation table "count_mismatch"
  else set_table_validation table "ok".

(** Step 1 of the [try] block of [run]: duplicates are resolved in the
    source. *)
Definition resolution_phase (env : environment) (opts : options)
  (tables : list string) : M migrator unit :=
  if resolve_duplicates opts then
    for_each tables
      (fun table =>
         resolutions <-
           lift_src (DuplicateResolver.resolve env table
                       (duplicate_strategy opts)) ;;
         update_report (extend_resolutions resolutions))
  else ret tt.

(** Step 2: schema and data of every table. *)
Definition migration_phase (env : environment) (tables : list string)
  : M migrator unit :=
  for_each tables
    (fun table =>
       create_mysql_schema env table ;;
       migrate_data env table ;;
       update_report (set_table_status table)).

(** Step 3: the counts of every table, then the Grafana checks. *)
Definition validation_phase (env : environment) (tables : list string)
  : M migrator unit :=
  for_each tables (validate_table env) ;;
  grafana_tests <- Validator.run_grafana_tests env ;;
  update_report (set_validation_results grafana_tests).

(** The [try] block of [run]: the three steps, then the only [commit] of
    the run on the target. *)
Definition run_body (env : environment) (opts : options) (tables : list string)
  : M migrator unit :=
  resolution_phase env opts tables ;;
  migration_phase env tables ;;
  validation_phase env tables ;;
  lift_tgt (tcall_do env TCommit) ;;
  update_report (set_status "completed").

(** The [except Exception as e] block of [run]. *)
Definition rollback_and_fail (env : environment) (e : exn) : M migrator unit :=
  lift_tgt (tcall_do env TRollback) ;;
  update_report (set_status "failed") ;;
  update_report (append_error e) ;;
  lift_src (logger ERROR (MsgOther "Migracao falhou. Rollback executado.")).

(** [Migrator.run], the connection to the target being open.  The table
    list is read before the [try]; the [finally] clause writes the report
    out and changes nothing the model keeps. *)
Definition run (env : environment) (opts : options) : M migrator unit :=
  tables <- lift_src (get_tables env) ;;
  try_except (run_body env opts tables) any_exception (rollback_and_fail env).

End Migrator.

(** ** The second entry point: [run_migration_task] of backend/main.py *)

Module Backend.

Import DuplicateResolver.

(** The lines appended to [status["logs"]], by the statement that formats
    them. *)
Inductive entry : Type :=
| LogResolving                 (* "Iniciando resolucao de duplicatas..." *)
| LogRemoved (rowcount : Z) (table : string)
| LogProcessing (table : string)
| LogMigrated (table : string)
| LogValidating
| LogDivergence (table : string) (sqlite_count mysql_count : Z)
| LogAllMatch
| LogFinished
| LogCritical (e : exn).

(** The entry of [migration_status] for the run; [progress] is computed in
    floating point and is left out. *)
Record status : Type := {
  b_status : string;
  b_logs : list entry
}.

Definition task : Type := engine status.

Record task_options : Type := {
  include_data : bool;
  b_resolve_duplicates : bool;
  b_duplicate_strategy : string
}.

Definition set_b_status (s : string) (r : status) : status :=
  {| b_status := s; b_logs := b_logs r |}.

Definition log (e : entry) : M task unit :=
  update_report (fun r => {| b_status := b_status r;
                             b_logs := (b_logs r ++ [e])%list |}).

(** The body of [for dupe in dupes]; no handler surrounds it. *)
Definition resolve_dupe (env : environment) (table strategy : string)
  (valid_cols : list string) (dupe : list value) : M task unit :=
  let cols_vals := cols_vals_of valid_cols dupe in
  let vals := vals_of dupe in
  fetched <- lift_src (select_keeper env table cols_vals vals) ;;
  match fetched with
  | None => raise TypeError
  | Some keep_id =>
      if String.eqb strategy "remove" then
        rowcount <-
          lift_src (delete_where env table (cols_vals ++ [CRowidNe])%list
                      (vals ++ [keep_id])%list) ;;
        log (LogRemoved rowcount table)
      else ret tt
  end.

(** The body of [for check_cols in common_grafana_unique[table]]. *)
Definition resolve_group (env : environment) (table strategy : string)
  (existing_cols check_cols : list string) : M task unit :=
  let valid_cols := filter (fun c => str_in c existing_cols) check_cols in
  if Nat.eqb (length valid_cols) (length check_cols) then
    dupes <- lift_src (select_duplicates env table valid_cols) ;;
    for_each dupes (resolve_dupe env table strategy valid_cols)
  else ret tt.

(** The body of [for table in tables] of step 1. *)
Definition resolve_table (env : environment) (strategy table : string)
  : M task unit :=
  match dict_get table common_grafana_unique with
  | Some groups =>
      schema <- lift_src (DatabaseAnalyzer.get_table_schema env table) ;;
      let existing_cols := map col_name schema in
      for_each groups (resolve_group env table strategy existing_cols)
  | None => ret tt
  end.

Definition resolution_phase (env : environment) (opts : task_options)
  (tables : list string) : M task unit :=
  if b_resolve_duplicates opts then
    log LogResolving ;;
    for_each tables (resolve_table env (b_duplicate_strategy opts)) ;;
    lift_src (conn_commit env)
  else ret tt.

Definition extra (col : column) : string :=
  let m_type := Backend_TypeMapper.map_type (col_type col) in
  if truthy (col_pk col) && contains "INT" (upper m_type)
  then "AUTO_INCREMENT" else "".

Definition column_line (col : column) : string :=
  let m_type := Backend_TypeMapper.map_type (col_type col) in
  let null_str := if truthy (col_notnull col) then "NOT NULL" else "NULL" in
  "`" ++ col_name col ++ "` " ++ m_type ++ " " ++ null_str ++ " " ++ extra col.

(** [pk_cols] holds the names already between backquotes. *)
Definition pk_cols_of (cols : list column) : list string :=
  map (fun col => Migrator.backquote (col_name col))
    (filter (fun col => truthy (col_pk col)) cols).

Definition create_query (table : string) (cols : list column) : string :=
  let mysql_cols := map column_line cols in
  let pk_cols := pk_cols_of cols in
  "CREATE TABLE IF NOT EXISTS `" ++ table ++ "` (" ++ Migrator.newline ++ "  "
    ++ join ("," ++ Migrator.newline ++ "  ") mysql_cols
    ++ (match pk_cols with
        | [] => ""
        | _ => "," ++ Migrator.newline ++ "  PRIMARY KEY ("
                 ++ join ", " (map Migrator.backquote pk_cols) ++ ")"
        end)
    ++ Migrator.newline ++ ") ENGINE=InnoDB DEFAULT CHARSET=utf8mb4;".

(** The body of [for idx, table in enumerate(tables)] of step 2. *)
Definition migrate_table (env : environment) (opts : task_options)
  (table : string) : M task unit :=
  log (LogProcessing table) ;;
  cols <- lift_src (DatabaseAnalyzer.get_table_schema env table) ;;
  lift_tgt (tcall_do env
              (TExecute ("DROP TABLE IF EXISTS `" ++ table ++ "`"))) ;;
  lift_tgt (tcall_do env (TExecute (create_query table cols))) ;;
  (if include_data opts then
     rows <- lift_src (select_all env table) ;;
     match rows with
     | [] => ret tt
     | _ =>
         let col_names := map col_name cols in
         let insert_query := Migrator.insert_query table col_names in
         for_each (Migrator.batches (length rows) 1000 rows)
           (fun batch =>
              lift_tgt (tcall_do env
                          (TExecuteMany insert_query (map cells batch))))
     end
   else ret tt) ;;
  log (LogMigrated table).

Definition migration_phase (env : environment) (opts : task_options)
  (tables : list string) : M task unit :=
  for_each tables (migrate_table env opts).

(** One iteration of the validation loop; the result is what it appends to
    [validation_errors]. *)
Definition validate_table (env : environment) (table : string)
  : M task (list entry) :=
  sqlite_count <- lift_src (select_count env table) ;;
  mysql_count <- lift_tgt (tquery_scalar env (Validator.count_query table)) ;;
  if negb (Z.eqb sqlite_count mysql_count)
  then ret [LogDivergence table sqlite_count mysql_count]
  else ret [].

(** Step 3, after the commit. *)
Definition validation_phase (env : environment) (tables : list string)
  : M task unit :=
  log LogValidating ;;
  validation_errors <- map_m (validate_table env) tables ;;
  match concat validation_errors with
  | [] => log LogAllMatch
  | errs => for_each errs log
  end.

(** The [try] block, the two connections being open. *)
Definition task_body (env : environment) (opts : task_options)
  : M task unit :=
  tables <- lift_src (DatabaseAnalyzer.get_tables env) ;;
  resolution_phase env opts tables ;;
  migration_phase env opts tables ;;
  lift_tgt (tcall_do env TCommit) ;;
  validation_phase env tables ;;
  update_report (set_b_status "completed") ;;
  log LogFinished.

(** The [except Exception as e] block. *)
Definition rollback_and_fail (env : environment) (e : exn) : M task unit :=
  lift_tgt (tcall_do env TRollback) ;;
  update_report (set_b_status "failed") ;;
  log (LogCritical e).

Definition run_migration_task (env : environment) (opts : task_options)
  : M task unit :=
  update_report (set_b_status "migrating") ;;
  try_except (task_body env opts) any_exception (rollback_and_fail env).

Definition new_task (s : source) (tg : target) : task :=
  {| src := s; tgt := tg;
     rep := {| b_status := "pending"; b_logs := [] |} |}.

End Backend.

Definition fresh_target : target := {| t_trace := [] |}.

Definition new_migrator (s : source) (tg : target) : migrator :=
  {| src := s; tgt := tg; rep := initial_report |}.

(** ** Properties, as the specification words them *)

(** The integer-family table of the specification: source keyword and the
    target type it is to be mapped to. *)
Definition integer_family : list (string * string) :=
  [ ("TINYINT", "TINYINT");
    ("SMALLINT", "SMALLINT");
    ("MEDIUMINT", "MEDIUMINT");
    ("BIGINT", "BIGINT");
    ("INT2", "SMALLINT");
    ("INT8", "BIGINT");
    ("UNSIGNED BIG INT", "BIGINT UNSIGNED") ].




(** A table whose primary key is the pair (org_id, user_id). *)
Definition composite_pk_columns : list column :=
  [ {| col_cid := 0; col_name := "org_id"; col_type := "INTEGER";
       col_notnull := 1; col_dflt_value := None; col_pk := 1 |};
    {| col_cid := 1; col_name := "user_id"; col_type := "INTEGER";
       col_notnull := 1; col_dflt_value := None; col_pk := 2 |};
    {| col_cid := 2; col_name := "role"; col_type := "TEXT";
       col_notnull := 0; col_dflt_value := None; col_pk := 0 |} ].

(** *** Uniqueness of a constraint group *)

(** No statement of the source raises on the environment's account. *)
Definition faultless (env : environment) : Prop :=
  forall s, src_faults env s = None.

(** No value combination of the columns [cols] is carried by two rows. *)
Definition unique_on (t : table) (cols : list string) : Prop :=
  forall k, (length (group_of t cols k) <= 1)%nat.

(** The constraint groups [resolve] checks for a table, as a function of the
    table: its unique indexes, then the supplementary groups that apply. *)
Definition groups_of (table_name : string) (tb : table) : list index :=
  let unique_indexes :=
    filter (fun idx => truthy (idx_unique idx)) (indexes tb) in
  match DuplicateResolver.dict_get table_name
          DuplicateResolver.common_grafana_unique with
  | Some groups =>
      fold_left
        (DuplicateResolver.add_pseudo_index (map col_name (columns tb)))
        groups unique_indexes
  | None => unique_indexes
  end.

(** [m] reads the source at [st]: it returns [x] or raises, the state stays
    [st], and it returns when the environment injects no fault. *)
Definition reads {A} (env : environment) (m : M source A) (st : source) (x : A)
  : Prop :=
  (m st = (Ret x, st) \/ exists e, m st = (Exc e, st)) /\
  (faultless env -> m st = (Ret x, st)).

(** A check of [unique_on] that computes: every row is alone in its group. *)
Definition unique_onb (t : table) (cols : list string) : bool :=
  forallb
    (fun r => (length (group_of t cols (key_of t cols r)) <=? 1)%nat)
    (rows t).

(** *** Isolation of resolution failures *)

(** [m] returns normally from every state. *)
Definition returns {S A} (m : M S A) : Prop :=
  forall st, exists a st', m st = (Ret a, st').

(** The statements sent for one duplicate value combination. *)
Definition per_dupe_stmt (s : stmt) : bool :=
  match s with
  | SelectKeeper _ _ | SelectRowids _ _ | DeleteWhere _ _
  | SelectCell _ _ | UpdateCell _ _ => true
  | _ => false
  end.

(** The environment makes no statement fail but those sent for one duplicate
    value combination and, with an [OperationalError], the grouping query. *)
Definition resolver_faults_only (env : environment) : Prop :=
  forall s e, src_faults env s = Some e ->
    per_dupe_stmt s = true \/
    (exists t cols, s = SelectDuplicates t cols) /\ e = OperationalError.




Definition with_resolution (strategy : string) : options :=
  {| resolve_duplicates := true; duplicate_strategy := strategy |}.

(** *** The remove strategy, as a function on the rows *)

(** The rows of [rs] whose key on [cols] is [k]; [tb] gives the schema. *)
Definition rows_with (tb : table) (cols : list string) (k : list value)
  (rs : list row) : list row :=
  filter (fun r => key_eqb (key_of tb cols r) k) rs.

(** The members of a group that carry its lowest rowid. *)
Definition keeper_of (g : list row) : list row :=
  match min_rowid g with
  | Some m => filter (fun r => Z.eqb (rowid r) m) g
  | None => []
  end.

(** What the keeper lookup and the DELETE do to the rows for one key. *)
Definition remove_rows (tb : table) (cols : list string) (k : list value)
  (rs : list row) : list row :=
  match min_rowid (rows_with tb cols k rs) with
  | None => rs
  | Some keep_id =>
      filter (fun r => negb (key_eqb (key_of tb cols r) k
                             && negb (Z.eqb (rowid r) keep_id))) rs
  end.

Definition remove_pass (tb : table) (cols : list string)
  (ks : list (list value)) (rs : list row) : list row :=
  fold_left (fun rs k => remove_rows tb cols k rs) ks rs.

(** The keys the grouping query reports, without their counts. *)
Definition dup_keys (tb : table) (cols : list string) (rs : list row)
  : list (list value) :=
  filter (fun k => (1 <? length (rows_with tb cols k rs))%nat)
    (distinct_keys (map (key_of tb cols) rs)).

Definition unique_rowids (rs : list row) : Prop := NoDup (map rowid rs).

(** Every index of the table names at least one column, and only columns
    the table has. *)
Definition well_indexed (tb : table) : Prop :=
  forall idx, In idx (indexes tb) ->
    idx_columns idx <> [] /\ forallb (has_column tb) (idx_columns idx) = true.

(** [after] keeps of every group of [before] its member of lowest rowid and
    nothing else. *)
Definition keeps_lowest (before after : table) (cols : list string) : Prop :=
  forall k r, In r (group_of before cols k) ->
    exists r0,
      group_of after cols k = [r0] /\
      In r0 (group_of before cols k) /\
      forall r', In r' (group_of before cols k) -> rowid r0 <= rowid r'.

(** [rs'] is [rs] with some rows left out. *)
Definition thinned (rs rs' : list row) : Prop :=
  exists f, rs' = filter f rs.

(** The survivor rule as the specification states it, between the table
    before [resolve] and the table after it: every violating group has one
    surviving row, its member of lowest rowid. *)
Definition lowest_member_survives (before after : table) (cols : list string)
  : Prop :=
  forall k, (1 < length (group_of before cols k))%nat ->
    exists r, group_of after cols k = [r] /\
              min_rowid (group_of before cols k) = Some (rowid r).

(** Three users: rows 2 and 3 share a login, rows 1 and 2 share an e-mail. *)
Definition crossed_users : table :=
  {| columns := user_columns;
     indexes := [];
     rows := [ user_row 1 "bob" "x@x" 0;
               user_row 2 "ann" "x@x" 0;
               user_row 3 "ann" "y@x" 0 ] |}.

(** *** One value combination at a time *)

(** The keeper query and the DELETE that the remove strategy sends for the
    value combination [k] of the columns [cols]. *)
Definition keeper_stmt (t : string) (cols : list string) (k : list value)
  : stmt :=
  SelectKeeper t (DuplicateResolver.cols_vals_of cols k).

Definition delete_stmt (t : string) (cols : list string) (k : list value)
  : stmt :=
  DeleteWhere t (DuplicateResolver.cols_vals_of cols k ++ [CRowidNe])%list.

(** The environment lets both through. *)
Definition combination_accepted (env : environment) (t : string)
  (cols : list string) (k : list value) : bool :=
  match src_faults env (keeper_stmt t cols k),
        src_faults env (delete_stmt t cols k) with
  | None, None => true
  | _, _ => false
  end.

(** The line the resolver logs for the combination [k]: the removal when
    its statements are accepted, a resolution error when one is not. *)
Definition entry_for (env : environment) (t : string) (cols : list string)
  (k : list value) (entry : level * message) : Prop :=
  if combination_accepted env t cols k
  then exists n,
         entry = (INFO, MsgRemoved n t (filter (fun v => negb (is_none v)) k))
  else exists e, entry = (ERROR, MsgResolveError t e).

(** [org] with a unique index on [code], which two rows leave NULL: SQLite
    accepts them, a unique index holding any number of NULLs. *)
Definition org_null_codes : table :=
  {| columns :=
       [ {| col_cid := 0; col_name := "id"; col_type := "INTEGER";
            col_notnull := 0; col_dflt_value := None; col_pk := 1 |};
         {| col_cid := 1; col_name := "name"; col_type := "TEXT";
            col_notnull := 1; col_dflt_value := None; col_pk := 0 |};
         {| col_cid := 2; col_name := "code"; col_type := "TEXT";
            col_notnull := 0; col_dflt_value := None; col_pk := 0 |} ];
     indexes := [ {| idx_name := "UQE_org_code"; idx_unique := 1;
                     idx_columns := ["code"] |} ];
     rows := [ {| rowid := 1; cells := [VInt 1; VText "Main"; VNull] |};
               {| rowid := 2; cells := [VInt 2; VText "Lab"; VNull] |};
               {| rowid := 3; cells := [VInt 3; VText "Ops"; VText "ops"] |} ]
  |}.

(** [org] with a column of its own named rowid, which both rows leave
    NULL, and twice the same name. *)
Definition org_own_rowid : table :=
  {| columns :=
       [ {| col_cid := 0; col_name := "rowid"; col_type := "INTEGER";
            col_notnull := 0; col_dflt_value := None; col_pk := 0 |};
         {| col_cid := 1; col_name := "name"; col_type := "TEXT";
            col_notnull := 1; col_dflt_value := None; col_pk := 0 |} ];
     indexes := [];
     rows := [ {| rowid := 1; cells := [VNull; VText "Main"] |};
               {| rowid := 2; cells := [VNull; VText "Main"] |} ] |}.

Definition remove_everything : Backend.task_options :=
  {| Backend.include_data := true;
     Backend.b_resolve_duplicates := true;
     Backend.b_duplicate_strategy := "remove" |}.

(** *** Failures during resolution *)


(** Six users whose e-mails go two by two, the first pair leaving it NULL;
    the pairs come in the order of their e-mails, NULL first, so that
    the groups are listed in this order however the grouping query orders
    them. *)
Definition paired_emails : table :=
  {| columns := user_columns;
     indexes := [];
     rows :=
       [ {| rowid := 1; cells := [VInt 1; VText "u1"; VNull; VInt 0] |};
         {| rowid := 2; cells := [VInt 2; VText "u2"; VNull; VInt 0] |};
         {| rowid := 3; cells := [VInt 3; VText "u3"; VText "a@x"; VInt 0] |};
         {| rowid := 4; cells := [VInt 4; VText "u4"; VText "a@x"; VInt 0] |};
         {| rowid := 5; cells := [VInt 5; VText "u5"; VText "b@x"; VInt 0] |};
         {| rowid := 6; cells := [VInt 6; VText "u6"; VText "b@x"; VInt 0] |} ]
  |}.

Definition email_group : index :=
  {| idx_name := "pseudo_idx_email"; idx_unique := 1;
     idx_columns := ["email"] |}.

(** The DELETE whose clause starts with an IS NULL test fails. *)
Definition null_delete_fails : environment :=
  {| src_faults := fun s =>
       match s with
       | DeleteWhere _ (CIsNull _ :: _) => Some OperationalError
       | _ => None
       end;
     tgt_faults := fun _ => None;
     tgt_scalar := fun _ => 0 |}.

(** *** Transactions on the target *)
















(** Whatever [m] does, the state it leaves is related by [R] to the state
    it started from. *)
Definition respects {S A} (R : S -> S -> Prop) (m : M S A) : Prop :=
  forall st, R st (snd (m st)).

(** The question put to the target about table [t]: how many rows it
    has. *)
Definition count_read (t : string) : tcall :=
  TExecute ("SELECT COUNT(" ++ "*" ++ ") FROM `" ++ t ++ "`").








Definition without_resolution : options :=
  {| resolve_duplicates := false; duplicate_strategy := "remove" |}.





(** *** Count validation in a run *)

Definition target_faultless (env : environment) : Prop :=
  forall c, tgt_faults env c = None.

(** Every table the source lists can be read. *)
Definition tables_listed (s : source) : Prop :=
  forall t, In t (s_names s) -> s_tables s t <> None.

(** [st'] lists the tables of [st] and has at least the tables of [st]. *)
Definition grows (st st' : source) : Prop :=
  s_names st' = s_names st /\
  forall t, s_tables st t <> None -> s_tables st' t <> None.

(** From a state where [P] holds, [m] returns and leaves [Q]. *)
Definition hoare {S A} (P : S -> Prop) (m : M S A) (Q : A -> S -> Prop)
  : Prop :=
  forall st, P st -> exists a st', m st = (Ret a, st') /\ Q a st'.

(** What the target answers when asked how many rows table [t] has. *)
Definition target_count (env : environment) (t : string) : Z :=
  tgt_scalar env ("SELECT COUNT(" ++ "*" ++ ") FROM `" ++ t ++ "`").

(** What the report is to say of table [t], given the rows the source has
    and the count the target answers. *)
Definition expected_validation (env : environment) (s : source) (t : string)
  : string :=
  if Z.eqb (Z.of_nat (length (rows (the_table t s)))) (target_count env t)
  then "ok" else "count_mismatch".

(** [report["tables"][t].get("validation")]. *)
Definition validation_of (r : report) (t : string) : option string :=
  match DuplicateResolver.dict_get t (r_tables r) with
  | Some e => tr_validation e
  | None => None
  end.

(** The source keeps its table list and its tables, the report is [r0]. *)
Definition steady (names : list string) (T : string -> option table)
  (r0 : report) (st : migrator) : Prop :=
  s_names (src st) = names /\ s_tables (src st) = T /\ rep st = r0.


(** ** Further properties: definitions *)

(** The target types [map_type] can answer for a declared type without
    VARCHAR. *)
Definition reachable_types : list string :=
  ["INT"; "LONGTEXT"; "LONGBLOB"; "DOUBLE"; "FLOAT"; "DECIMAL(10,5)";
   "BOOLEAN"; "DATETIME"; "DATE"; "CHAR"].


(** The two statements [create_mysql_schema] may send for an index that is
    not skipped: the one it tries first, and the fallback under a suffixed
    name. *)
Definition index_statement (table_name : string) (idx : index) : tcall :=
  TExecute
    ("CREATE " ++ (if truthy (idx_unique idx) then "UNIQUE INDEX" else "INDEX")
       ++ " `" ++ idx_name idx ++ "` ON `" ++ table_name ++ "` ("
       ++ join ", " (map Migrator.backquote (idx_columns idx)) ++ ")").

Definition fallback_index_statement (table_name : string) (idx : index)
  : tcall :=
  TExecute
    ("CREATE INDEX `" ++ idx_name idx ++ "_non_unique` ON `" ++ table_name
       ++ "` (" ++ join ", " (map Migrator.backquote (idx_columns idx)) ++ ")").

(** The test of [create_mysql_schema] that skips the index backing a
    primary-key column. *)
Definition backs_primary_key (pk_cols : list string) (idx : index) : bool :=
  existsb (fun col => DuplicateResolver.str_in col pk_cols) (idx_columns idx)
  && truthy (idx_unique idx)
  && Nat.eqb (length (idx_columns idx)) 1.


(** The target rejects every CREATE ... INDEX statement on user. *)
Definition rejects_indexes : environment :=
  {| src_faults := fun _ => None;
     tgt_faults := fun c =>
       match c with
       | TExecute sql =>
           if contains "INDEX" sql then Some IntegrityError else None
       | _ => None
       end;
     tgt_scalar := fun _ => 0 |}.

Definition login_index : index :=
  {| idx_name := "idx_user_login"; idx_unique := 1;
     idx_columns := ["login"] |}.

(** [1] when the target accepts the call [c], [0] when it rejects it. *)
Definition accepted (env : environment) (c : tcall) : nat :=
  match tgt_faults env c with Some _ => 0%nat | None => 1%nat end.



(** ** Further properties: what a run leaves of the source *)

(** [st'] has the table list and the tables of [st]. *)
Definition same_data (st st' : source) : Prop :=
  s_names st' = s_names st /\ s_tables st' = s_tables st.

(** Nothing was written to the file behind [st] and nothing committed:
    [st'] differs by its log and its resolution list at most. *)
Definition untouched (st st' : source) : Prop :=
  same_data st st' /\ s_commits st' = s_commits st.

(** [st'] differs from [st] by its log at most. *)
Definition only_logged (st st' : source) : Prop :=
  untouched st st' /\ s_resolutions st' = s_resolutions st.

Definition same_commits (st st' : source) : Prop :=
  s_commits st' = s_commits st.

(** A relation on the source, read on the state of a run. *)
Definition on_src {Rep} (R : source -> source -> Prop) (st st' : engine Rep)
  : Prop :=
  R (src st) (src st').



(** ** The SQL export of backend/main.py *)

Module ExportSql.

(** [str(v).replace(chr(39), chr(39)+chr(39))]: every single quote is
    doubled. *)
Fixpoint double_quotes (s : string) : string :=
  match s with
  | EmptyString => EmptyString
  | String c rest =>
      if Ascii.eqb c "'" then String "'" (String "'" (double_quotes rest))
      else String c (double_quotes rest)
  end.

(** The text appended to [vals] for one value of a row. *)
Definition literal (v : value) : string :=
  match v with
  | VNull => "NULL"
  | VInt n => str_of_Z n
  | VText s => "'" ++ double_quotes s ++ "'"
  end.

Definition column_line (col : column) : string :=
  let m_type := Backend_TypeMapper.map_type (col_type col) in
  let null_str := if truthy (col_notnull col) then "NOT NULL" else "NULL" in
  "`" ++ col_name col ++ "` " ++ m_type ++ " " ++ null_str.

(** What is written for the schema of one table: the DROP, the CREATE with
    its column lines, the PRIMARY KEY clause when [pk_cols] is not empty,
    and the closing line. *)
Definition create_text (table : string) (cols : list column) : string :=
  let mysql_cols := map column_line cols in
  let pk_cols := Backend.pk_cols_of cols in
  "DROP TABLE IF EXISTS `" ++ table ++ "`;" ++ Migrator.newline
    ++ "CREATE TABLE `" ++ table ++ "` (" ++ Migrator.newline ++ "  "
    ++ join ("," ++ Migrator.newline ++ "  ") mysql_cols
    ++ (match pk_cols with
        | [] => ""
        | _ => "," ++ Migrator.newline ++ "  PRIMARY KEY ("
                 ++ join ", " (map Migrator.backquote pk_cols) ++ ")"
        end)
    ++ Migrator.newline ++ ") ENGINE=InnoDB DEFAULT CHARSET=utf8mb4;"
    ++ Migrator.newline ++ Migrator.newline.

(** The line written for one row. *)
Definition insert_line (table : string) (cols : list column) (r : row)
  : string :=
  "INSERT INTO `" ++ table ++ "` ("
    ++ join ", " (map (fun c => Migrator.backquote (col_name c)) cols)
    ++ ") VALUES (" ++ join ", " (map literal (cells r)) ++ ");"
    ++ Migrator.newline.

(** The body of [for table in tables]; the result is what it writes. *)
Definition export_table (env : environment) (include_data : bool)
  (table : string) : M source (list string) :=
  cols <- DatabaseAnalyzer.get_table_schema env table ;;
  let schema := create_text table cols in
  if include_data then
    rows <- select_all env table ;;
    match rows with
    | [] => ret [schema]
    | _ =>
        ret ([schema] ++ map (insert_line table cols) rows
               ++ [Migrator.newline])%list
    end
  else ret [schema].

(** [export_sql], the file being there: the result is the text of the file
    served, in the order it is written; [generated] is the time stamp of
    the header.
    An exception becomes the answer 500 of the endpoint. *)
Definition export_sql (env : environment) (generated : string)
  (include_data : bool) : M source (list string) :=
  tables <- DatabaseAnalyzer.get_tables env ;;
  written <- map_m (export_table env include_data) tables ;;
  ret (("-- Migration from SQLite to MySQL" ++ Migrator.newline
          ++ "-- Generated: " ++ generated ++ Migrator.newline
          ++ Migrator.newline)
       :: concat written).

End ExportSql.

(** ** Further properties: the constraint groups, the export, the target *)

(** Every column of [cols] is one of [existing]. *)
Definition all_exist (existing cols : list string) : bool :=
  forallb (fun c => DuplicateResolver.str_in c existing) cols.

(** Some constraint group of [groups] is on the columns [cols], in any
    order. *)
Definition checked (groups : list index) (cols : list string) : bool :=
  existsb (fun idx => DuplicateResolver.set_eq (idx_columns idx) cols) groups.

(** The PRIMARY KEY clause with every key column between two pairs of
    backquotes. *)
Definition doubled_pk_clause (cols : list column) : string :=
  "PRIMARY KEY ("
    ++ join ", "
         (map (fun col => "``" ++ col_name col ++ "``")
            (filter (fun col => truthy (col_pk col)) cols))
    ++ ")".

(** A call that carries rows to the target. *)
Definition carries_rows (c : tcall) : bool :=
  match c with TExecuteMany _ _ => true | _ => false end.

(** What was sent to the target from [st] to [st'] carries no row. *)
Definition sends_no_rows {R} (st st' : engine R) : Prop :=
  exists calls,
    t_trace (tgt st') = (t_trace (tgt st) ++ calls)%list /\
    forallb (fun c => negb (carries_rows c)) calls = true.


(** * Theorems *)

(** ** Strings *)

Lemma str_append_assoc (a b c : string) : (a ++ b) ++ c = a ++ (b ++ c).
Proof.
  induction a as [|x a IH]; simpl; [reflexivity|rewrite IH; reflexivity].
Qed.

(** ** TypeMapper *)

Lemma scan_rules_first rules s key value :
  first_rule rules s key value -> TypeMapper.scan_rules rules s = value.
Proof.
  intros (before & after & -> & Hb & Hk).
  induction before as [|[k v] before IH]; simpl.
  - rewrite Hk. reflexivity.
  - inversion Hb as [|? ? Hkv Hrest]; subst. simpl in Hkv. rewrite Hkv.
    apply IH. exact Hrest.
Qed.

Lemma first_rule_functional rules s k1 v1 k2 v2 :
  first_rule rules s k1 v1 -> first_rule rules s k2 v2 -> k1 = k2 /\ v1 = v2.
Proof.
  intros (b1 & a1 & E1 & F1 & C1) (b2 & a2 & E2 & F2 & C2).
  subst rules. revert b2 E2 F2.
  induction b1 as [|x b1 IH]; intros [|y b2] E2 F2; simpl in E2.
  - inversion E2; subst. split; reflexivity.
  - inversion E2; subst. inversion F2 as [|? ? Hy _]; subst.
    simpl in Hy. congruence.
  - inversion E2; subst. inversion F1 as [|? ? Hx _]; subst.
    simpl in Hx. congruence.
  - inversion E2; subst. inversion F1; inversion F2; subst.
    eapply IH; eauto.
Qed.

Lemma scan_rules_none rules s :
  Forall (fun kv => contains (fst kv) s = false) rules ->
  TypeMapper.scan_rules rules s = "LONGTEXT".
Proof.
  induction 1 as [|[k v] rest Hkv _ IH]; simpl; [reflexivity|].
  simpl in Hkv. rewrite Hkv. exact IH.
Qed.

(** The scan either stops at a first matching rule or no key occurs. *)
Lemma scan_rules_cases rules s :
  (exists key value, first_rule rules s key value) \/
  Forall (fun kv => contains (fst kv) s = false) rules.
Proof.
  induction rules as [|[k v] rest IH].
  - right. constructor.
  - destruct (contains k s) eqn:Hk.
    + left. exists k, v, [], rest. repeat split; auto.
    + destruct IH as [(key & value & b & a & E & F & C)|IH].
      * left. exists key, value, ((k, v) :: b), a. subst rest.
        repeat split; auto.
      * right. constructor; auto.
Qed.

Lemma first_rule_not_none rules s key value :
  first_rule rules s key value ->
  Forall (fun kv => contains (fst kv) s = false) rules -> False.
Proof.
  intros (b & a & -> & _ & C) F.
  apply Forall_app in F. destruct F as [_ F].
  inversion F as [|? ? Hk _]; subst. simpl in Hk. congruence.
Qed.

(** The two entry points carry the same mapper. *)
Lemma backend_map_type_agrees s c t :
  Backend_TypeMapper.map_type s = TypeMapper.map_type s c t.
Proof. reflexivity. Qed.

(** C1, at the seven integer-family keywords: the rule ["INT"], second in
    [MAPPING], occurs in each of them, so [map_type] answers [INT] and the
    rule written for the keyword is never reached. *)
Theorem map_type_integer_family_shadowed :
  map (fun kv => TypeMapper.map_type (fst kv) "" "") integer_family
  = ["INT"; "INT"; "INT"; "INT"; "INT"; "INT"; "INT"]
  /\ map (fun kv => Backend_TypeMapper.map_type (fst kv)) integer_family
     = ["INT"; "INT"; "INT"; "INT"; "INT"; "INT"; "INT"]
  /\ map snd integer_family
     = ["TINYINT"; "SMALLINT"; "MEDIUMINT"; "BIGINT"; "SMALLINT"; "BIGINT";
        "BIGINT UNSIGNED"].
Proof. repeat split; vm_compute; reflexivity. Qed.

(** C6 as worded fails on the qualified VARCHAR path: the value returned is
    the uppercased string, not the input. *)
Lemma varchar_not_returned_unchanged :
  ~ varchar_returned_unchanged "varchar(50)".
Proof.
  unfold varchar_returned_unchanged. intros H.
  specialize (H eq_refl eq_refl). vm_compute in H. discriminate H.
Qed.

(** C6, amended: [map_type] is a total function, and every input takes exactly
    one of the four match paths; the path it takes yields the value returned.
    On the qualified VARCHAR path that value is the uppercased input. *)
Theorem map_type_total_one_path (s column_name table_name : string) :
  exists p,
    takes_path s p (TypeMapper.map_type s column_name table_name) /\
    forall p' r', takes_path s p' r' ->
                  p' = p /\ r' = TypeMapper.map_type s column_name table_name.
Proof.
  unfold TypeMapper.map_type.
  destruct (contains "VARCHAR" (upper s)) eqn:Hv.
  - destruct (contains "(" (upper s)) eqn:Hq; simpl.
    + exists VarcharQualified. split; [constructor; assumption|].
      intros p' r' Hp. inversion Hp; subst; try congruence. split; reflexivity.
    + exists VarcharDefault. split; [constructor; assumption|].
      intros p' r' Hp. inversion Hp; subst; try congruence. split; reflexivity.
  - destruct (scan_rules_cases TypeMapper.MAPPING (upper s))
      as [(key & value & Hf)|Hn].
    + exists (RuleMatch key). rewrite (scan_rules_first _ _ _ _ Hf).
      split; [constructor; assumption|].
      intros p' r' Hp. inversion Hp; subst; try congruence.
      * destruct (first_rule_functional _ _ _ _ _ _ Hf H0) as [-> ->].
        split; reflexivity.
      * exfalso. eapply first_rule_not_none; eauto.
    + exists Fallback. rewrite (scan_rules_none _ _ Hn).
      split; [constructor; assumption|].
      intros p' r' Hp. inversion Hp; subst; try congruence.
      * exfalso. eapply first_rule_not_none; eauto.
      * split; reflexivity.
Qed.

(** ** DDL synthesis *)

(** On the composite key both key columns get the qualifier. *)
Lemma composite_pk_extra :
  map (Migrator.extra "org_user") composite_pk_columns
  = ["AUTO_INCREMENT"; "AUTO_INCREMENT"; ""].
Proof. vm_compute. reflexivity. Qed.



(** ** The source connection *)

(** A statement that raises leaves the source as it was. *)
Lemma execute_outcome env s params st :
  (execute env s params st = (Ret tt, st)) \/
  (exists e, execute env s params st = (Exc e, st)).
Proof.
  unfold execute.
  destruct (src_faults env s); [right; eauto|].
  match goal with |- context [negb ?b] => destruct b end; simpl;
    [|right; eauto].
  destruct (Nat.eqb _ _); simpl; [left|right]; eauto.
Qed.

Lemma select_duplicates_raises env t cols st e st' :
  select_duplicates env t cols st = (Exc e, st') -> st' = st.
Proof.
  unfold select_duplicates, bind, gets.
  destruct (execute_outcome env (SelectDuplicates t cols) [] st) as [H|[e' H]];
    rewrite H; intros E; inversion E; reflexivity.
Qed.

(** ** DuplicateResolver: detection *)

(** C10.  With an empty column list, and when the grouping query raises an
    [OperationalError], [find_duplicates] returns the empty list and leaves
    the whole source state, the log included, as it found it. *)
Theorem find_duplicates_silent_empty (env : environment)
  (table_name : string) (unique_cols : list string) (st : source) :
  unique_cols = [] \/
  fst (select_duplicates env table_name unique_cols st)
  = Exc OperationalError ->
  DuplicateResolver.find_duplicates env table_name unique_cols st
  = (Ret [], st).
Proof.
  intros [->|H]; [reflexivity|].
  unfold DuplicateResolver.find_duplicates.
  destruct unique_cols as [|c cols]; [reflexivity|].
  unfold try_except.
  destruct (select_duplicates env table_name (c :: cols) st) as [o st'] eqn:E.
  simpl in H. subst o.
  apply select_duplicates_raises in E. subst st'. reflexivity.
Qed.

(** A column the table does not have makes the grouping query raise; the
    caller sees an empty result and an untouched log. *)
Lemma find_duplicates_silent_empty_witness :
  DuplicateResolver.find_duplicates calm "user" ["nickname"]
    (source_of "user" user_table)
  = (Ret [], source_of "user" user_table).
Proof.
  apply (find_duplicates_silent_empty calm "user" ["nickname"]
           (source_of "user" user_table)).
  right. reflexivity.
Defined.

(** ** DuplicateResolver: the rename strategy *)

(** C2, on the scenario of the specification.  The query that lists the
    rows to rename has one placeholder more than the parameters bound to it
    ([keep_id] is not passed), so sqlite3 raises [ProgrammingError]; the
    handler logs it; no row is renamed, the result list is empty and nothing
    is committed. *)
Theorem rename_scenario_binding_error :
  let r := DuplicateResolver.resolve calm "user" "rename"
             (source_of "user" user_table) in
  fst r = Ret []
  /\ option_map rows (s_tables (snd r) "user") = Some (rows user_table)
  /\ s_log (snd r)
     = [ (WARNING, MsgFound 1 "user" ["login"]);
         (ERROR, MsgResolveError "user" ProgrammingError) ]
  /\ s_commits (snd r) = 0%nat.
Proof. vm_compute. repeat split. Qed.

(** ** Keys and groups *)

Lemma value_eqb_eq a b : value_eqb a b = true <-> a = b.
Proof.
  destruct a, b; simpl; split; intros H; try discriminate; try reflexivity.
  - apply Z.eqb_eq in H. congruence.
  - inversion H. apply Z.eqb_refl.
  - apply String.eqb_eq in H. congruence.
  - inversion H. apply String.eqb_refl.
Qed.

Lemma key_eqb_eq a b : key_eqb a b = true <-> a = b.
Proof.
  revert b. induction a as [|x a IH]; intros [|y b]; simpl;
    split; intros H; try discriminate; try reflexivity.
  - apply andb_true_iff in H. destruct H as [H1 H2].
    apply value_eqb_eq in H1. apply IH in H2. congruence.
  - inversion H; subst. apply andb_true_iff. split.
    + apply value_eqb_eq. reflexivity.
    + apply IH. reflexivity.
Qed.

Lemma key_eqb_refl a : key_eqb a a = true.
Proof. apply key_eqb_eq. reflexivity. Qed.

Lemma group_of_In t cols k r :
  In r (group_of t cols k) <-> In r (rows t) /\ key_of t cols r = k.
Proof.
  unfold group_of. rewrite filter_In, key_eqb_eq. reflexivity.
Qed.

Lemma unique_onb_sound t cols : unique_onb t cols = true -> unique_on t cols.
Proof.
  intros H k. destruct (group_of t cols k) as [|r g] eqn:E; [simpl; lia|].
  assert (Hr : In r (group_of t cols k)) by (rewrite E; left; reflexivity).
  apply group_of_In in Hr. destruct Hr as [Hr Hk].
  unfold unique_onb in H. rewrite forallb_forall in H.
  specialize (H r Hr). rewrite Hk, E in H. apply Nat.leb_le in H. exact H.
Qed.

(** ** DuplicateResolver: tables without violation *)

Lemma execute_plain env s params st :
  stmt_table s = None -> placeholders s = length params ->
  reads env (execute env s params) st tt.
Proof.
  intros Ht Hp. unfold reads, execute. rewrite Ht, Hp, Nat.eqb_refl. simpl.
  split.
  - destruct (src_faults env s); [right; eauto|left; reflexivity].
  - intros F. rewrite F. reflexivity.
Qed.

Lemma reads_bind {A B} env (m : M source A) (k : A -> M source B) st x y :
  reads env m st x -> reads env (k x) st y -> reads env (bind m k) st y.
Proof.
  intros [[Hm|[e Hm]] Fm] [Hk Fk]; unfold reads, bind; split.
  - rewrite Hm. exact Hk.
  - intros F. rewrite (Fm F). exact (Fk F).
  - rewrite Hm. right. eauto.
  - intros F. rewrite (Fm F). exact (Fk F).
Qed.

Lemma reads_ret {A} env st (x : A) : reads env (ret x) st x.
Proof. split; [left|intros _]; reflexivity. Qed.

Lemma reads_gets {A} env st (f : source -> A) : reads env (gets f) st (f st).
Proof. split; [left|intros _]; reflexivity. Qed.

Lemma index_eta (i : index) :
  {| idx_name := idx_name i; idx_unique := idx_unique i;
     idx_columns := idx_columns i |} = i.
Proof. destruct i; reflexivity. Qed.

Lemma get_indexes_reads env t st :
  reads env (DatabaseAnalyzer.get_indexes env t) st (indexes (the_table t st)).
Proof.
  unfold DatabaseAnalyzer.get_indexes.
  eapply reads_bind; [apply execute_plain; reflexivity|].
  eapply reads_bind;
    [exact (reads_gets env st (fun st => indexes (the_table t st)))|].
  induction (indexes (the_table t st)) as [|i l IH]; simpl.
  - apply reads_ret.
  - eapply reads_bind.
    + eapply reads_bind; [apply execute_plain; reflexivity|apply reads_ret].
    + eapply reads_bind; [exact IH|]. rewrite index_eta. apply reads_ret.
Qed.

Lemma get_table_schema_reads env t st :
  reads env (DatabaseAnalyzer.get_table_schema env t) st
    (columns (the_table t st)).
Proof.
  unfold DatabaseAnalyzer.get_table_schema.
  eapply reads_bind; [apply execute_plain; reflexivity|].
  exact (reads_gets env st (fun st => columns (the_table t st))).
Qed.

Lemma constraint_groups_reads env t st :
  reads env (DuplicateResolver.constraint_groups env t) st
    (groups_of t (the_table t st)).
Proof.
  unfold DuplicateResolver.constraint_groups, groups_of.
  eapply reads_bind; [apply get_indexes_reads|].
  destruct (DuplicateResolver.dict_get t _).
  - eapply reads_bind; [apply get_table_schema_reads|apply reads_ret].
  - apply reads_ret.
Qed.

Lemma duplicate_groups_unique t cols :
  unique_on t cols -> duplicate_groups t cols = [].
Proof.
  intros U. unfold duplicate_groups.
  induction (distinct_keys _) as [|k l IH]; simpl; [reflexivity|].
  rewrite IH. specialize (U k).
  destruct (Nat.ltb_spec 1 (length (group_of t cols k))); [lia|reflexivity].
Qed.

Lemma execute_faultless_exn env s st e st' :
  faultless env -> execute env s [] st = (Exc e, st') ->
  placeholders s = 0%nat -> e = OperationalError.
Proof.
  intros F E Hp. unfold execute in E. rewrite F, Hp in E.
  destruct (negb _) in E; simpl in E; inversion E; reflexivity.
Qed.

Lemma find_duplicates_unique env t cols st :
  unique_on (the_table t st) cols ->
  reads env (DuplicateResolver.find_duplicates env t cols) st [].
Proof.
  intros U. unfold DuplicateResolver.find_duplicates.
  destruct cols as [|c cols]; [apply reads_ret|].
  unfold reads, try_except, select_duplicates, bind, gets.
  destruct (execute env (SelectDuplicates t (c :: cols)) [] st)
    as [o st'] eqn:E.
  assert (st' = st) as ->.
  { destruct (execute_outcome env (SelectDuplicates t (c :: cols)) [] st)
      as [H|[e H]]; congruence. }
  destruct o as [[]|e].
  - rewrite (duplicate_groups_unique _ _ U). split; auto.
  - split.
    + destruct (is_operational e); [left|right; eauto]; reflexivity.
    + intros F. rewrite (execute_faultless_exn _ _ _ _ _ F E eq_refl).
      reflexivity.
Qed.

Lemma resolve_index_unique env t strategy idx st :
  unique_on (the_table t st) (idx_columns idx) ->
  reads env (DuplicateResolver.resolve_index env t strategy idx) st tt.
Proof.
  intros U. unfold DuplicateResolver.resolve_index.
  eapply reads_bind; [apply find_duplicates_unique; exact U|].
  apply reads_ret.
Qed.

Lemma resolve_indexes_unique env t strategy groups st :
  (forall idx, In idx groups -> unique_on (the_table t st) (idx_columns idx)) ->
  reads env
    (for_each groups (DuplicateResolver.resolve_index env t strategy)) st tt.
Proof.
  induction groups as [|idx l IH]; intros U; simpl.
  - apply reads_ret.
  - eapply reads_bind.
    + apply resolve_index_unique. apply U. left. reflexivity.
    + apply IH. intros i Hi. apply U. right. exact Hi.
Qed.

Lemma resolve_unique_outcome env t strategy st :
  (forall idx, In idx (groups_of t (the_table t st)) ->
               unique_on (the_table t st) (idx_columns idx)) ->
  let r := DuplicateResolver.resolve env t strategy st in
  (r = (Ret [], set_resolutions [] st)
   \/ exists e, r = (Exc e, st) \/ r = (Exc e, set_resolutions [] st))
  /\ (faultless env -> r = (Ret [], set_resolutions [] st)).
Proof.
  intros U.
  destruct (constraint_groups_reads env t st) as [Hg Fg].
  destruct (resolve_indexes_unique env t strategy _ (set_resolutions [] st) U)
    as [Hl Fl].
  assert (Hok : DuplicateResolver.constraint_groups env t st
                = (Ret (groups_of t (the_table t st)), st) ->
                for_each (groups_of t (the_table t st))
                  (DuplicateResolver.resolve_index env t strategy)
                  (set_resolutions [] st)
                = (Ret tt, set_resolutions [] st) ->
                DuplicateResolver.resolve env t strategy st
                = (Ret [], set_resolutions [] st)).
  { intros E1 E2. unfold DuplicateResolver.resolve, bind, modify.
    rewrite E1, E2. reflexivity. }
  split.
  - destruct Hg as [Hg|[e Hg]].
    + destruct Hl as [Hl|[e Hl]]; [left; auto|].
      right. exists e. right.
      unfold DuplicateResolver.resolve, bind, modify. rewrite Hg, Hl.
      reflexivity.
    + right. exists e. left.
      unfold DuplicateResolver.resolve, bind. rewrite Hg. reflexivity.
  - intros F. auto.
Qed.

(** C9.  When no constraint group of the table has a violation, [resolve]
    with any strategy and in any environment leaves the tables, the commit
    count and the log as they were, and what it returns is the empty list;
    it does return when no statement fails. *)
Theorem resolve_without_violation (env : environment)
  (table_name strategy : string) (st : source) :
  (forall idx, In idx (groups_of table_name (the_table table_name st)) ->
               unique_on (the_table table_name st) (idx_columns idx)) ->
  let r := DuplicateResolver.resolve env table_name strategy st in
  (fst r = Ret [] \/ exists e, fst r = Exc e)
  /\ s_tables (snd r) = s_tables st
  /\ s_commits (snd r) = s_commits st
  /\ s_log (snd r) = s_log st
  /\ (faultless env -> fst r = Ret []).
Proof.
  intros U r. subst r.
  destruct (resolve_unique_outcome env table_name strategy st U) as [H F].
  destruct H as [H|[e [H|H]]]; rewrite H; simpl; repeat split; eauto;
    intros Fl; rewrite (F Fl) in H; discriminate H.
Qed.

(** A table whose logins and e-mails are all different. *)
Lemma resolve_without_violation_witness :
  let st := source_of "user"
              (set_rows user_table
                 [user_row 1 "admin" "a@x" 1; user_row 2 "user1" "u@x" 0]) in
  let r := DuplicateResolver.resolve calm "user" "rename" st in
  (fst r = Ret [] \/ exists e, fst r = Exc e)
  /\ s_tables (snd r) = s_tables st
  /\ s_commits (snd r) = s_commits st
  /\ s_log (snd r) = s_log st
  /\ (faultless calm -> fst r = Ret []).
Proof.
  apply (resolve_without_violation calm "user" "rename").
  intros idx Hidx. vm_compute in Hidx.
  destruct Hidx as [<-|[<-|[]]]; apply unique_onb_sound; reflexivity.
Defined.

(** ** DuplicateResolver: failures *)

Lemma returns_ret {S A} (a : A) : returns (@ret S A a).
Proof. intros st. exists a, st. reflexivity. Qed.

Lemma returns_bind {S A B} (m : M S A) (k : A -> M S B) :
  returns m -> (forall a, returns (k a)) -> returns (bind m k).
Proof.
  intros Hm Hk st. destruct (Hm st) as (a & st1 & E).
  destruct (Hk a st1) as (b & st2 & E2).
  exists b, st2. unfold bind. rewrite E. exact E2.
Qed.

Lemma returns_modify {S} (f : S -> S) : returns (modify f).
Proof. intros st. exists tt, (f st). reflexivity. Qed.

Lemma returns_gets {S A} (f : S -> A) : returns (gets f).
Proof. intros st. exists (f st), st. reflexivity. Qed.

Lemma returns_for_each {S A} (l : list A) (body : A -> M S unit) :
  (forall x, returns (body x)) -> returns (for_each l body).
Proof.
  intros H. induction l as [|x l IH]; simpl.
  - apply returns_ret.
  - apply returns_bind; [apply H|intros _; exact IH].
Qed.

Lemma returns_map_m {S A B} (f : A -> M S B) (l : list A) :
  (forall x, returns (f x)) -> returns (map_m f l).
Proof.
  intros H. induction l as [|x l IH]; simpl.
  - apply returns_ret.
  - apply returns_bind; [apply H|intros y].
    apply returns_bind; [exact IH|intros ys; apply returns_ret].
Qed.

(** A handler that returns makes an [except Exception] block return. *)
Lemma returns_try_any {S A} (body : M S A) (handler : exn -> M S A) :
  (forall e, returns (handler e)) ->
  returns (try_except body any_exception handler).
Proof.
  intros H st. unfold try_except.
  destruct (body st) as [[a|e] st1]; [exists a, st1; reflexivity|].
  simpl. apply H.
Qed.

Lemma returns_execute env s :
  src_faults env s = None -> stmt_table s = None ->
  returns (execute env s []).
Proof.
  intros F T st. exists tt, st. unfold execute. rewrite F, T.
  destruct s; try discriminate T; reflexivity.
Qed.

Lemma resolver_faults_other env s :
  resolver_faults_only env -> per_dupe_stmt s = false ->
  (forall t cols, s <> SelectDuplicates t cols) ->
  src_faults env s = None.
Proof.
  intros P Hs Hd. destruct (src_faults env s) as [e|] eqn:E; [|reflexivity].
  destruct (P s e E) as [H|[(t & cols & H) _]]; [congruence|].
  exfalso. eapply Hd. exact H.
Qed.

Lemma returns_resolve_dupe env t strategy idx dupe :
  returns (DuplicateResolver.resolve_dupe env t strategy idx dupe).
Proof.
  unfold DuplicateResolver.resolve_dupe. apply returns_try_any.
  intros e. apply returns_modify.
Qed.

Lemma returns_find_duplicates env t cols :
  resolver_faults_only env ->
  returns (DuplicateResolver.find_duplicates env t cols).
Proof.
  intros P. unfold DuplicateResolver.find_duplicates.
  destruct cols as [|c cols]; [apply returns_ret|].
  intros st. unfold try_except, select_duplicates, bind, gets, execute.
  destruct (src_faults env _) as [e|] eqn:E.
  - destruct (P _ _ E) as [H|[_ ->]]; [discriminate H|].
    simpl. eexists _, _. reflexivity.
  - destruct (negb _); simpl; [eexists _, _; reflexivity|].
    eexists _, _. reflexivity.
Qed.

Lemma returns_resolve env t strategy :
  resolver_faults_only env ->
  returns (DuplicateResolver.resolve env t strategy).
Proof.
  intros P.
  assert (X : forall s, per_dupe_stmt s = false ->
                        (forall t cols, s <> SelectDuplicates t cols) ->
                        stmt_table s = None -> returns (execute env s [])).
  { intros s H1 H2 H3. apply returns_execute; auto.
    apply resolver_faults_other; auto. }
  unfold DuplicateResolver.resolve.
  apply returns_bind.
  { unfold DuplicateResolver.constraint_groups.
    apply returns_bind.
    - unfold DatabaseAnalyzer.get_indexes.
      apply returns_bind; [apply X; intros; reflexivity || discriminate|].
      intros _. apply returns_bind; [apply returns_gets|intros l].
      apply returns_map_m. intros i.
      apply returns_bind; [apply X; intros; reflexivity || discriminate|].
      intros _. apply returns_ret.
    - intros indexes. destruct (DuplicateResolver.dict_get t _).
      + apply returns_bind; [|intros; apply returns_ret].
        unfold DatabaseAnalyzer.get_table_schema.
        apply returns_bind; [apply X; intros; reflexivity || discriminate|].
        intros _. apply returns_gets.
      + apply returns_ret. }
  intros groups. apply returns_bind; [apply returns_modify|intros _].
  apply returns_bind.
  { apply returns_for_each. intros idx.
    unfold DuplicateResolver.resolve_index.
    apply returns_bind; [apply returns_find_duplicates; exact P|].
    intros [|d dupes]; [apply returns_ret|].
    apply returns_bind; [apply returns_modify|intros _].
    apply returns_for_each. intros dupe. apply returns_resolve_dupe. }
  intros _. apply returns_bind; [apply returns_gets|intros res].
  apply returns_bind; [|intros; apply returns_ret].
  destruct res; [apply returns_ret|].
  unfold conn_commit.
  apply returns_bind; [apply X; intros; reflexivity || discriminate|].
  intros _. apply returns_modify.
Qed.

(** ** The remove strategy on the rows *)

Lemma filter_filter {A} (f g : A -> bool) (l : list A) :
  filter f (filter g l) = filter (fun x => g x && f x) l.
Proof.
  induction l as [|x l IH]; simpl; [reflexivity|].
  destruct (g x); simpl; [destruct (f x)|]; rewrite IH; reflexivity.
Qed.

Lemma filter_comm {A} (f g : A -> bool) (l : list A) :
  filter f (filter g l) = filter g (filter f l).
Proof.
  rewrite !filter_filter. apply filter_ext. intros x. apply andb_comm.
Qed.

Lemma filter_length_le {A} (f : A -> bool) (l : list A) :
  (length (filter f l) <= length l)%nat.
Proof.
  induction l as [|x l IH]; simpl; [lia|]. destruct (f x); simpl; lia.
Qed.

Lemma filter_all {A} (f : A -> bool) (l : list A) :
  (forall x, In x l -> f x = true) -> filter f l = l.
Proof.
  induction l as [|x l IH]; simpl; intros H; [reflexivity|].
  rewrite (H x (or_introl eq_refl)). f_equal. apply IH. auto.
Qed.

Lemma filter_none {A} (f : A -> bool) (l : list A) :
  (forall x, In x l -> f x = false) -> filter f l = [].
Proof.
  induction l as [|x l IH]; simpl; intros H; [reflexivity|].
  rewrite (H x (or_introl eq_refl)). apply IH. auto.
Qed.

Lemma min_rowid_none g : min_rowid g = None -> g = [].
Proof.
  destruct g as [|r g]; [reflexivity|]. simpl.
  destruct (min_rowid g); discriminate.
Qed.

Lemma min_rowid_le g m :
  min_rowid g = Some m -> forall r, In r g -> m <= rowid r.
Proof.
  revert m. induction g as [|x g IH]; simpl; intros m H r Hr; [contradiction|].
  destruct (min_rowid g) as [m'|] eqn:E.
  - inversion H; subst. destruct Hr as [->|Hr]; [lia|].
    specialize (IH m' eq_refl r Hr). lia.
  - inversion H; subst. destruct Hr as [->|Hr]; [lia|].
    apply min_rowid_none in E. subst g. contradiction.
Qed.

Lemma min_rowid_attained g m :
  min_rowid g = Some m -> exists r, In r g /\ rowid r = m.
Proof.
  revert m. induction g as [|x g IH]; simpl; intros m H; [discriminate|].
  destruct (min_rowid g) as [m'|] eqn:E.
  - inversion H; subst.
    destruct (Z.min_spec (rowid x) m') as [[_ ->]|[_ ->]].
    + exists x. auto.
    + destruct (IH m' eq_refl) as (r & Hr & <-). exists r. auto.
  - inversion H; subst. exists x. auto.
Qed.

(** Among rows of distinct rowids, one rowid selects one row. *)
Lemma filter_rowid_single g r :
  unique_rowids g -> In r g ->
  filter (fun x => Z.eqb (rowid x) (rowid r)) g = [r].
Proof.
  unfold unique_rowids. induction g as [|x g IH]; simpl; intros N H;
    [contradiction|].
  inversion N as [|? ? Hx Ng]; subst. destruct H as [->|H].
  - rewrite Z.eqb_refl. f_equal.
    rewrite filter_none; [reflexivity|].
    intros y Hy. apply Z.eqb_neq. intros E. apply Hx. rewrite <- E.
    apply in_map. exact Hy.
  - destruct (Z.eqb_spec (rowid x) (rowid r)) as [E|_].
    + exfalso. apply Hx. rewrite E. apply in_map. exact H.
    + apply IH; assumption.
Qed.

Lemma unique_rowids_filter f rs :
  unique_rowids rs -> unique_rowids (filter f rs).
Proof.
  unfold unique_rowids. induction rs as [|x rs IH]; simpl; intros N;
    [constructor|].
  inversion N as [|? ? Hx Nr]; subst. destruct (f x); simpl; auto.
  constructor; auto. intros H. apply Hx.
  apply in_map_iff in H. destruct H as (y & E & Hy).
  apply filter_In in Hy. rewrite <- E. apply in_map. tauto.
Qed.

Lemma keeper_of_spec g r :
  unique_rowids g -> In r g ->
  exists r0, keeper_of g = [r0] /\ In r0 g /\
             forall r', In r' g -> rowid r0 <= rowid r'.
Proof.
  intros N Hr. unfold keeper_of.
  destruct (min_rowid g) as [m|] eqn:E.
  - destruct (min_rowid_attained g m E) as (r0 & H0 & <-).
    exists r0. split; [apply filter_rowid_single; assumption|].
    split; [assumption|]. apply min_rowid_le. exact E.
  - apply min_rowid_none in E. subst g. contradiction.
Qed.

Lemma keeper_of_small g : (length g <= 1)%nat -> keeper_of g = g.
Proof.
  destruct g as [|r [|r' g]]; simpl; intros H; try lia; [reflexivity|].
  unfold keeper_of. simpl. rewrite Z.eqb_refl. reflexivity.
Qed.

Lemma min_rowid_keeper g m :
  min_rowid g = Some m ->
  min_rowid (filter (fun r => Z.eqb (rowid r) m) g) = Some m.
Proof.
  intros E. destruct (min_rowid_attained g m E) as (r0 & H0 & E0).
  destruct (min_rowid (filter _ g)) as [m'|] eqn:E'.
  - destruct (min_rowid_attained _ _ E') as (r1 & H1 & E1).
    apply filter_In in H1. destruct H1 as [_ H1].
    apply Z.eqb_eq in H1. congruence.
  - apply min_rowid_none in E'.
    assert (In r0 (filter (fun r => Z.eqb (rowid r) m) g)).
    { apply filter_In. split; [assumption|]. apply Z.eqb_eq. assumption. }
    rewrite E' in H. contradiction.
Qed.

Lemma keeper_of_idem g : keeper_of (keeper_of g) = keeper_of g.
Proof.
  unfold keeper_of at 2 3. destruct (min_rowid g) as [m|] eqn:E;
    [|reflexivity].
  unfold keeper_of. rewrite (min_rowid_keeper g m E).
  rewrite filter_filter. apply filter_ext. intros r. apply andb_diag.
Qed.

Lemma rows_with_In tb cols k rs r :
  In r (rows_with tb cols k rs) <-> In r rs /\ key_of tb cols r = k.
Proof. unfold rows_with. rewrite filter_In, key_eqb_eq. reflexivity. Qed.

Lemma remove_rows_same tb cols k rs :
  rows_with tb cols k (remove_rows tb cols k rs)
  = keeper_of (rows_with tb cols k rs).
Proof.
  unfold remove_rows, keeper_of.
  destruct (min_rowid (rows_with tb cols k rs)) as [m|] eqn:E.
  - unfold rows_with. rewrite !filter_filter. apply filter_ext. intros r.
    destruct (key_eqb _ _), (Z.eqb _ _); reflexivity.
  - apply min_rowid_none in E. exact E.
Qed.

Lemma remove_rows_other tb cols k k' rs :
  k' <> k ->
  rows_with tb cols k' (remove_rows tb cols k rs) = rows_with tb cols k' rs.
Proof.
  intros Hk. unfold remove_rows.
  destruct (min_rowid _); [|reflexivity].
  unfold rows_with. rewrite filter_filter. apply filter_ext. intros r.
  destruct (key_eqb (key_of tb cols r) k') eqn:E1; simpl;
    [|rewrite andb_false_r; reflexivity].
  apply key_eqb_eq in E1.
  destruct (key_eqb (key_of tb cols r) k) eqn:E2; simpl; [|reflexivity].
  apply key_eqb_eq in E2. congruence.
Qed.

Lemma mem_key_In k l : mem_key k l = true <-> In k l.
Proof.
  induction l as [|x l IH]; simpl; [split; [discriminate|contradiction]|].
  rewrite orb_true_iff, key_eqb_eq, IH. split; intros [H|H]; auto.
Qed.

Lemma remove_pass_group tb cols ks rs k :
  rows_with tb cols k (remove_pass tb cols ks rs)
  = if mem_key k ks then keeper_of (rows_with tb cols k rs)
    else rows_with tb cols k rs.
Proof.
  revert rs. induction ks as [|k1 ks IH]; intros rs; simpl; [reflexivity|].
  unfold remove_pass in *. simpl. rewrite IH.
  destruct (key_eqb k k1) eqn:E; simpl.
  - apply key_eqb_eq in E. subst k1. rewrite remove_rows_same.
    destruct (mem_key k ks); [apply keeper_of_idem|reflexivity].
  - assert (k <> k1).
    { intros ->. rewrite key_eqb_refl in E. discriminate. }
    rewrite remove_rows_other by assumption. reflexivity.
Qed.

Lemma distinct_keys_In k l : In k (distinct_keys l) <-> In k l.
Proof.
  induction l as [|x l IH]; simpl; [reflexivity|].
  destruct (mem_key x l) eqn:E.
  - rewrite IH. apply mem_key_In in E. split; [auto|].
    intros [<-|H]; auto.
  - simpl. rewrite IH. reflexivity.
Qed.

Lemma dup_keys_In tb cols rs k :
  In k (dup_keys tb cols rs) <-> (1 < length (rows_with tb cols k rs))%nat.
Proof.
  unfold dup_keys. rewrite filter_In, distinct_keys_In, Nat.ltb_lt.
  split; [tauto|]. intros H. split; [|exact H].
  destruct (rows_with tb cols k rs) as [|r g] eqn:E; [simpl in H; lia|].
  assert (Hr : In r (rows_with tb cols k rs)) by (rewrite E; left; reflexivity).
  apply rows_with_In in Hr. destruct Hr as [Hr <-].
  apply in_map. exact Hr.
Qed.

(** After the pass over the reported keys every group is reduced to its
    keeper. *)
Lemma remove_pass_dup_keys tb cols rs k :
  rows_with tb cols k (remove_pass tb cols (dup_keys tb cols rs) rs)
  = keeper_of (rows_with tb cols k rs).
Proof.
  rewrite remove_pass_group.
  destruct (mem_key k (dup_keys tb cols rs)) eqn:E; [reflexivity|].
  symmetry. apply keeper_of_small.
  destruct (Nat.le_gt_cases (length (rows_with tb cols k rs)) 1) as [H|H];
    [exact H|].
  apply dup_keys_In in H. apply mem_key_In in H. congruence.
Qed.

Lemma thinned_refl rs : thinned rs rs.
Proof.
  exists (fun _ => true). symmetry. apply filter_all. reflexivity.
Qed.

Lemma thinned_trans a b c : thinned a b -> thinned b c -> thinned a c.
Proof.
  intros [f ->] [g ->]. exists (fun x => f x && g x). apply filter_filter.
Qed.

Lemma remove_rows_thinned tb cols k rs : thinned rs (remove_rows tb cols k rs).
Proof.
  unfold remove_rows. destruct (min_rowid _); [eexists; reflexivity|].
  apply thinned_refl.
Qed.

Lemma remove_pass_thinned tb cols ks rs :
  thinned rs (remove_pass tb cols ks rs).
Proof.
  revert rs. induction ks as [|k ks IH]; intros rs; [apply thinned_refl|].
  unfold remove_pass. simpl. eapply thinned_trans;
    [apply remove_rows_thinned|apply IH].
Qed.

Lemma thinned_group tb cols k rs rs' :
  thinned rs rs' ->
  (length (rows_with tb cols k rs') <= length (rows_with tb cols k rs))%nat.
Proof.
  intros [f ->]. unfold rows_with. rewrite filter_comm.
  apply filter_length_le.
Qed.

Lemma thinned_unique_rowids rs rs' :
  thinned rs rs' -> unique_rowids rs -> unique_rowids rs'.
Proof. intros [f ->]. apply unique_rowids_filter. Qed.

Lemma thinned_In rs rs' r : thinned rs rs' -> In r rs' -> In r rs.
Proof. intros [f ->] H. apply filter_In in H. tauto. Qed.

Lemma keeper_of_length g : unique_rowids g -> (length (keeper_of g) <= 1)%nat.
Proof.
  intros N. destruct g as [|r g]; [simpl; lia|].
  destruct (keeper_of_spec (r :: g) r N (or_introl eq_refl)) as (r0 & -> & _).
  simpl. lia.
Qed.

(** ** The remove strategy in the resolver *)

Lemma engine_eta {R} (st : engine R) :
  {| src := src st; tgt := tgt st; rep := rep st |} = st.
Proof. destruct st; reflexivity. Qed.

Lemma lift_src_ok {R A} (m : M source A) (st : engine R) a s' :
  m (src st) = (Ret a, s') ->
  lift_src m st = (Ret a, {| src := s'; tgt := tgt st; rep := rep st |}).
Proof. intros E. unfold lift_src. rewrite E. reflexivity. Qed.

Lemma lift_src_same {R A} (m : M source A) (st : engine R) a :
  m (src st) = (Ret a, src st) -> lift_src m st = (Ret a, st).
Proof.
  intros E. rewrite (lift_src_ok _ _ _ _ E). rewrite engine_eta. reflexivity.
Qed.

Lemma execute_accepted env s params st t tb :
  src_faults env s = None ->
  stmt_table s = Some t -> s_tables st t = Some tb ->
  forallb (has_column tb) (stmt_columns s) = true ->
  placeholders s = length params ->
  execute env s params st = (Ret tt, st).
Proof.
  intros F Ht Hs Hc Hp. unfold execute.
  rewrite F, Ht, Hs, Hc, Hp, Nat.eqb_refl. reflexivity.
Qed.

Lemma execute_rejected env s params st e :
  src_faults env s = Some e -> execute env s params st = (Exc e, st).
Proof. intros F. unfold execute. rewrite F. reflexivity. Qed.

Lemma execute_ok env s params st t tb :
  faultless env -> stmt_table s = Some t -> s_tables st t = Some tb ->
  forallb (has_column tb) (stmt_columns s) = true ->
  placeholders s = length params ->
  execute env s params st = (Ret tt, st).
Proof. intros F. apply execute_accepted. apply F. Qed.

Lemma cols_vals_columns i cols dupe :
  flat_map cond_columns (DuplicateResolver.cols_vals_from i cols dupe) = cols.
Proof.
  revert i. induction cols as [|c cols IH]; intros i; simpl; [reflexivity|].
  rewrite IH. destruct (negb _); reflexivity.
Qed.

Lemma nth_middle_app {A} (pre : list A) x post d :
  nth (length pre) (pre ++ x :: post)%list d = x.
Proof. induction pre; simpl; auto. Qed.

Lemma cols_vals_arity cols : forall pre k post,
  length k = length cols ->
  where_placeholders
    (DuplicateResolver.cols_vals_from (length pre) cols (pre ++ k ++ post)%list)
  = length (filter (fun v => negb (is_none v)) k).
Proof.
  unfold where_placeholders.
  induction cols as [|c cols IH]; intros pre [|v k] post H; simpl in *;
    try discriminate; [reflexivity|].
  rewrite nth_middle_app.
  replace (pre ++ v :: k ++ post)%list with ((pre ++ [v]) ++ k ++ post)%list
    by (rewrite <- app_assoc; reflexivity).
  replace (S (length pre)) with (length (pre ++ [v])%list)
    by (rewrite length_app; simpl; lia).
  rewrite IH by lia.
  destruct v; reflexivity.
Qed.

(** The clause is built from the key alone: the count that ends the tuple
    is not looked at. *)
Lemma cols_vals_from_key cols : forall pre k post post',
  length k = length cols ->
  DuplicateResolver.cols_vals_from (length pre) cols (pre ++ k ++ post)%list
  = DuplicateResolver.cols_vals_from (length pre) cols (pre ++ k ++ post')%list.
Proof.
  induction cols as [|c cols IH]; intros pre [|v k] post post' H;
    simpl in *; try discriminate; [reflexivity|].
  rewrite !nth_middle_app. f_equal.
  replace (pre ++ v :: k ++ post)%list with ((pre ++ [v]) ++ k ++ post)%list
    by (rewrite <- app_assoc; reflexivity).
  replace (pre ++ v :: k ++ post')%list with ((pre ++ [v]) ++ k ++ post')%list
    by (rewrite <- app_assoc; reflexivity).
  replace (S (length pre)) with (length (pre ++ [v])%list)
    by (rewrite length_app; simpl; lia).
  apply IH. lia.
Qed.

Lemma cols_vals_of_key cols k c :
  length k = length cols ->
  DuplicateResolver.cols_vals_of cols (k ++ [c])
  = DuplicateResolver.cols_vals_of cols k.
Proof.
  intros H. unfold DuplicateResolver.cols_vals_of.
  pose proof (cols_vals_from_key cols [] k [c] [] H) as E.
  simpl in E. rewrite app_nil_r in E. exact E.
Qed.

Lemma where_placeholders_app a b :
  where_placeholders (a ++ b)%list
  = (where_placeholders a + where_placeholders b)%nat.
Proof.
  unfold where_placeholders. rewrite map_app.
  induction (map cond_placeholders a) as [|x l IH]; simpl; [reflexivity|].
  rewrite IH. lia.
Qed.

Lemma value_eqb_null x : value_eqb x VNull = is_none x.
Proof. destruct x; reflexivity. Qed.

Lemma sql_eq_non_null x v : is_none v = false -> sql_eq x v = value_eqb x v.
Proof.
  intros H. unfold sql_eq. rewrite H. destruct x, v; try reflexivity;
    simpl; try discriminate H; rewrite ?andb_true_r; reflexivity.
Qed.

Lemma eval_where_cols_vals t r tail_w tail_p cols : forall pre k post,
  length k = length cols ->
  eval_where t
    (DuplicateResolver.cols_vals_from (length pre) cols (pre ++ k ++ post)
     ++ tail_w)%list
    (filter (fun v => negb (is_none v)) k ++ tail_p)%list r
  = key_eqb (key_of t cols r) k && eval_where t tail_w tail_p r.
Proof.
  induction cols as [|c cols IH]; intros pre [|v k] post H; simpl in *;
    try discriminate; [reflexivity|].
  rewrite nth_middle_app.
  replace (pre ++ v :: k ++ post)%list with ((pre ++ [v]) ++ k ++ post)%list
    by (rewrite <- app_assoc; reflexivity).
  replace (S (length pre)) with (length (pre ++ [v])%list)
    by (rewrite length_app; simpl; lia).
  destruct (is_none v) eqn:Hv; simpl.
  - rewrite IH by lia. destruct v; try discriminate Hv.
    rewrite value_eqb_null, andb_assoc. reflexivity.
  - rewrite IH by lia. rewrite sql_eq_non_null by exact Hv.
    rewrite andb_assoc. reflexivity.
Qed.

Lemma vals_of_dupe k c :
  DuplicateResolver.vals_of (k ++ [c])
  = filter (fun v => negb (is_none v)) k.
Proof.
  unfold DuplicateResolver.vals_of. rewrite removelast_last. reflexivity.
Qed.

Lemma set_rows_eta tb : set_rows tb (rows tb) = tb.
Proof. destruct tb; reflexivity. Qed.

Lemma bind_ok {S A B} (m : M S A) (k : A -> M S B) st a st1 :
  m st = (Ret a, st1) -> bind m k st = k a st1.
Proof. intros E. unfold bind. rewrite E. reflexivity. Qed.

Lemma bind_exc {S A B} (m : M S A) (k : A -> M S B) st e st1 :
  m st = (Exc e, st1) -> bind m k st = (Exc e, st1).
Proof. intros E. unfold bind. rewrite E. reflexivity. Qed.

Lemma the_table_some t st tb : s_tables st t = Some tb -> the_table t st = tb.
Proof. intros E. unfold the_table. rewrite E. reflexivity. Qed.

(** *** The word rowid on a table without a column of that name *)

Lemma rowid_value_intrinsic tb r :
  has_column tb "rowid" = false -> rowid_value tb r = VInt (rowid r).
Proof.
  unfold has_column, rowid_value.
  destruct (col_index "rowid" (columns tb)); [discriminate|reflexivity].
Qed.

Lemma least_intrinsic rs :
  least (map (fun r => VInt (rowid r)) rs) = option_map VInt (min_rowid rs).
Proof.
  induction rs as [|r rs IH]; simpl; [reflexivity|]. rewrite IH.
  destruct (min_rowid rs) as [m|]; simpl; [|reflexivity].
  f_equal. destruct (Z.leb_spec (rowid r) m); f_equal; lia.
Qed.

Lemma keeper_intrinsic tb rs :
  has_column tb "rowid" = false ->
  least (map (rowid_value tb) rs) = option_map VInt (min_rowid rs).
Proof.
  intros H. rewrite <- least_intrinsic. f_equal. apply map_ext.
  intros r. apply rowid_value_intrinsic. exact H.
Qed.

Lemma least_none vs : least vs = None -> vs = [].
Proof.
  destruct vs as [|v vs]; [reflexivity|]. simpl.
  destruct (least vs); discriminate.
Qed.

Lemma select_keeper_accepted env t w params st tb :
  src_faults env (SelectKeeper t w) = None ->
  s_tables st t = Some tb ->
  forallb (has_column tb) (flat_map cond_columns w) = true ->
  where_placeholders w = length params ->
  select_keeper env t w params st
  = (Ret (least (map (rowid_value tb)
                   (filter (eval_where tb w params) (rows tb)))), st).
Proof.
  intros F Hs Hc Ha. unfold select_keeper.
  rewrite (bind_ok _ _ st tt st)
    by (apply (execute_accepted env _ _ st t tb); auto).
  unfold gets. rewrite (the_table_some t st tb Hs). reflexivity.
Qed.

Lemma select_keeper_ok env t w params st tb :
  faultless env -> s_tables st t = Some tb ->
  forallb (has_column tb) (flat_map cond_columns w) = true ->
  where_placeholders w = length params ->
  select_keeper env t w params st
  = (Ret (least (map (rowid_value tb)
                   (filter (eval_where tb w params) (rows tb)))), st).
Proof. intros F. apply select_keeper_accepted. apply F. Qed.

Lemma delete_where_accepted env t w params st tb :
  src_faults env (DeleteWhere t w) = None ->
  s_tables st t = Some tb ->
  forallb (has_column tb) (flat_map cond_columns w) = true ->
  where_placeholders w = length params ->
  delete_where env t w params st
  = (Ret (Z.of_nat (length (filter (eval_where tb w params) (rows tb)))),
     put_table t
       (set_rows tb
          (filter (fun r => negb (eval_where tb w params r)) (rows tb)))
       st).
Proof.
  intros F Hs Hc Ha. unfold delete_where.
  rewrite (bind_ok _ _ st tt st)
    by (apply (execute_accepted env _ _ st t tb); auto).
  rewrite (the_table_some t st tb Hs). reflexivity.
Qed.

(** What the keeper query and the DELETE of the combination [k] compute on
    a table without a column named rowid. *)
Lemma keeper_of_combination env t cols k c st tb rs :
  src_faults env (keeper_stmt t cols k) = None ->
  s_tables st t = Some (set_rows tb rs) ->
  forallb (has_column tb) cols = true ->
  length k = length cols ->
  has_column tb "rowid" = false ->
  select_keeper env t (DuplicateResolver.cols_vals_of cols (k ++ [c]))
    (DuplicateResolver.vals_of (k ++ [c])) st
  = (Ret (option_map VInt (min_rowid (rows_with tb cols k rs))), st).
Proof.
  intros F Hs Hc Hk Hr. unfold keeper_stmt in F.
  rewrite <- (cols_vals_of_key cols k c Hk) in F.
  rewrite (select_keeper_accepted env t _ _ st (set_rows tb rs) F Hs).
  - f_equal. f_equal. rewrite (keeper_intrinsic (set_rows tb rs)) by exact Hr.
    f_equal. f_equal. unfold rows_with. apply filter_ext. intros r.
    rewrite vals_of_dupe.
    pose proof (eval_where_cols_vals (set_rows tb rs) r [] [] cols [] k [c]
                  Hk) as Hw.
    rewrite !app_nil_r in Hw. simpl in Hw.
    unfold DuplicateResolver.cols_vals_of. simpl. rewrite Hw.
    apply andb_true_r.
  - unfold DuplicateResolver.cols_vals_of. rewrite cols_vals_columns.
    exact Hc.
  - rewrite vals_of_dupe. exact (cols_vals_arity cols [] k [c] Hk).
Qed.

Lemma delete_of_combination env t cols k c keep st tb rs :
  src_faults env (delete_stmt t cols k) = None ->
  s_tables st t = Some (set_rows tb rs) ->
  forallb (has_column tb) cols = true ->
  length k = length cols ->
  has_column tb "rowid" = false ->
  exists n,
    delete_where env t
      (DuplicateResolver.cols_vals_of cols (k ++ [c]) ++ [CRowidNe])%list
      (DuplicateResolver.vals_of (k ++ [c]) ++ [VInt keep])%list st
    = (Ret n,
       put_table t
         (set_rows tb
            (filter (fun r => negb (key_eqb (key_of tb cols r) k
                                    && negb (Z.eqb (rowid r) keep))) rs))
         st).
Proof.
  intros F Hs Hc Hk Hr. unfold delete_stmt in F.
  rewrite <- (cols_vals_of_key cols k c Hk) in F.
  eexists.
  rewrite (delete_where_accepted env t _ _ st (set_rows tb rs) F Hs).
  - f_equal. f_equal.
    change (set_rows (set_rows tb rs) ?x) with (set_rows tb x).
    f_equal. cbn [rows set_rows].
    apply filter_ext. intros r. rewrite vals_of_dupe.
    pose proof (eval_where_cols_vals (set_rows tb rs) r [CRowidNe]
                  [VInt keep] cols [] k [c] Hk) as Hw.
    cbn [app length] in Hw. unfold DuplicateResolver.cols_vals_of.
    rewrite Hw. cbn [eval_where].
    rewrite (rowid_value_intrinsic (set_rows tb rs)) by exact Hr.
    unfold sql_ne. simpl. rewrite andb_true_r. reflexivity.
  - rewrite flat_map_app. unfold DuplicateResolver.cols_vals_of.
    rewrite cols_vals_columns. simpl. rewrite app_nil_r. exact Hc.
  - rewrite where_placeholders_app, length_app, vals_of_dupe.
    unfold DuplicateResolver.cols_vals_of.
    pose proof (cols_vals_arity cols [] k [c] Hk) as Ha.
    cbn [app length] in Ha. rewrite Ha. reflexivity.
Qed.

Lemma keeper_of_nonempty g : g <> [] -> keeper_of g <> [].
Proof.
  intros H. unfold keeper_of. destruct (min_rowid g) as [m|] eqn:E.
  - destruct (min_rowid_attained g m E) as (r & Hr & Er).
    intros X.
    assert (I : In r (filter (fun x => Z.eqb (rowid x) m) g)).
    { apply filter_In. split; [exact Hr|]. apply Z.eqb_eq. exact Er. }
    rewrite X in I. contradiction.
  - apply min_rowid_none in E. contradiction.
Qed.

Lemma remove_rows_keeps_groups tb cols k k' rs :
  rows_with tb cols k' rs <> [] ->
  rows_with tb cols k' (remove_rows tb cols k rs) <> [].
Proof.
  intros H. destruct (key_eqb k' k) eqn:E.
  - apply key_eqb_eq in E. subst k'. rewrite remove_rows_same.
    apply keeper_of_nonempty. exact H.
  - rewrite remove_rows_other; [exact H|].
    intros ->. rewrite key_eqb_refl in E. discriminate.
Qed.

(** One value combination under the remove strategy, whatever the
    environment: its block returns; when both its statements are accepted
    the rows of the group other than the keeper are gone and the removal is
    logged, and when one is rejected the table is as before and a
    resolution error is logged. *)
Lemma resolve_dupe_step env t idx k c st tb rs :
  s_tables st t = Some (set_rows tb rs) ->
  forallb (has_column tb) (idx_columns idx) = true ->
  length k = length (idx_columns idx) ->
  has_column tb "rowid" = false ->
  rows_with tb (idx_columns idx) k rs <> [] ->
  exists st' entry,
    DuplicateResolver.resolve_dupe env t "remove" idx (k ++ [c]) st
    = (Ret tt, st') /\
    s_log st' = (s_log st ++ [entry])%list /\
    entry_for env t (idx_columns idx) k entry /\
    s_tables st' t
    = Some (set_rows tb
              (if combination_accepted env t (idx_columns idx) k
               then remove_rows tb (idx_columns idx) k rs else rs)).
Proof.
  intros Hs Hc Hk Hr Hg.
  set (cols := idx_columns idx) in *.
  unfold DuplicateResolver.resolve_dupe, try_except,
    DuplicateResolver.resolve_dupe_body, entry_for, combination_accepted.
  fold cols.
  destruct (src_faults env (keeper_stmt t cols k)) as [e|] eqn:Fk.
  - unfold keeper_stmt in Fk.
    rewrite <- (cols_vals_of_key cols k c Hk) in Fk.
    unfold select_keeper.
    rewrite (bind_exc _ _ _ _ _
               (bind_exc _ _ _ _ _ (execute_rejected env _ _ st e Fk))).
    simpl. eexists _, _. split; [reflexivity|]. simpl.
    split; [reflexivity|]. split; [eauto|exact Hs].
  - rewrite (bind_ok _ _ _ _ _
               (keeper_of_combination env t cols k c st tb rs Fk Hs Hc Hk Hr)).
    unfold remove_rows.
    destruct (min_rowid (rows_with tb cols k rs)) as [keep|] eqn:Em;
      [|apply min_rowid_none in Em; contradiction].
    cbn [option_map].
    change (String.eqb "remove" "remove") with true. cbv iota.
    destruct (src_faults env (delete_stmt t cols k)) as [e|] eqn:Fd.
    + unfold delete_stmt in Fd.
      rewrite <- (cols_vals_of_key cols k c Hk) in Fd.
      unfold delete_where.
      rewrite (bind_exc _ _ _ _ _
                 (bind_exc _ _ _ _ _ (execute_rejected env _ _ st e Fd))).
      simpl. eexists _, _. split; [reflexivity|]. simpl.
      split; [reflexivity|]. split; [eauto|exact Hs].
    + destruct (delete_of_combination env t cols k c keep st tb rs
                  Fd Hs Hc Hk Hr) as (n & Ed).
      rewrite (bind_ok _ _ _ _ _ Ed).
      eexists _, _. split; [reflexivity|]. simpl.
      split; [reflexivity|]. rewrite vals_of_dupe.
      split; [eauto|]. rewrite String.eqb_refl. reflexivity.
Qed.

Lemma remove_pass_filter_cons tb cols (f : list value -> bool) k ks rs :
  remove_pass tb cols (filter f (k :: ks)) rs
  = remove_pass tb cols (filter f ks)
      (if f k then remove_rows tb cols k rs else rs).
Proof. simpl. destruct (f k); reflexivity. Qed.

(** The loop over the combinations of one constraint group: every
    combination is processed, one after the other, whether or not an
    earlier one failed. *)
Lemma resolve_dupes_pass env t idx (cnt : list value -> value) tb ks :
  forallb (has_column tb) (idx_columns idx) = true ->
  has_column tb "rowid" = false ->
  forall st rs,
    (forall k, In k ks ->
       length k = length (idx_columns idx) /\
       rows_with tb (idx_columns idx) k rs <> []) ->
    s_tables st t = Some (set_rows tb rs) ->
    exists st' entries,
      for_each (map (fun k => (k ++ [cnt k])%list) ks)
        (DuplicateResolver.resolve_dupe env t "remove" idx) st
      = (Ret tt, st') /\
      s_log st' = (s_log st ++ entries)%list /\
      Forall2 (entry_for env t (idx_columns idx)) ks entries /\
      s_tables st' t
      = Some (set_rows tb
                (remove_pass tb (idx_columns idx)
                   (filter (combination_accepted env t (idx_columns idx)) ks)
                   rs)).
Proof.
  intros Hc Hr. induction ks as [|k ks IH]; intros st rs Hk Hs.
  - exists st, []. simpl. rewrite app_nil_r. repeat split; auto.
  - destruct (Hk k (or_introl eq_refl)) as [Lk Gk].
    destruct (resolve_dupe_step env t idx k (cnt k) st tb rs Hs Hc Lk Hr Gk)
      as (st1 & entry & E1 & L1 & P1 & Hs1).
    set (rs1 := if combination_accepted env t (idx_columns idx) k
                then remove_rows tb (idx_columns idx) k rs else rs) in *.
    assert (Hk1 : forall k', In k' ks ->
                    length k' = length (idx_columns idx) /\
                    rows_with tb (idx_columns idx) k' rs1 <> []).
    { intros k' Hk'. destruct (Hk k' (or_intror Hk')) as [Lk' Gk'].
      split; [exact Lk'|]. unfold rs1.
      destruct (combination_accepted env t (idx_columns idx) k);
        [apply remove_rows_keeps_groups|]; exact Gk'. }
    destruct (IH st1 rs1 Hk1 Hs1) as (st2 & entries & E2 & L2 & P2 & Hs2).
    exists st2, (entry :: entries). cbn [map for_each].
    rewrite (bind_ok _ _ _ _ _ E1). split; [exact E2|].
    split; [rewrite L2, L1, <- app_assoc; reflexivity|].
    split; [constructor; assumption|].
    rewrite remove_pass_filter_cons. exact Hs2.
Qed.

Lemma flat_map_if_filter {A B} (P : A -> bool) (g : A -> B) (l : list A) :
  flat_map (fun x => if P x then [g x] else []) l = map g (filter P l).
Proof.
  induction l as [|x l IH]; simpl; [reflexivity|].
  destruct (P x); simpl; rewrite IH; reflexivity.
Qed.

Lemma duplicate_groups_keys tb cols rs :
  duplicate_groups (set_rows tb rs) cols
  = map (fun k =>
           (k ++ [VInt (Z.of_nat (length (rows_with tb cols k rs)))])%list)
      (dup_keys tb cols rs).
Proof.
  unfold duplicate_groups, dup_keys. exact (flat_map_if_filter _ _ _).
Qed.

Lemma dup_keys_length tb cols rs k :
  In k (dup_keys tb cols rs) -> length k = length cols.
Proof.
  unfold dup_keys. rewrite filter_In, distinct_keys_In, in_map_iff.
  intros [(r & <- & _) _]. unfold key_of. apply length_map.
Qed.

Lemma dup_keys_nonempty tb cols rs k :
  In k (dup_keys tb cols rs) -> rows_with tb cols k rs <> [].
Proof.
  intros H. apply dup_keys_In in H. intros E. rewrite E in H.
  simpl in H. lia.
Qed.

Lemma find_duplicates_accepted env t cols st tb :
  src_faults env (SelectDuplicates t cols) = None ->
  s_tables st t = Some tb -> cols <> [] ->
  forallb (has_column tb) cols = true ->
  DuplicateResolver.find_duplicates env t cols st
  = (Ret (duplicate_groups tb cols), st).
Proof.
  intros F Hs Hn Hc. unfold DuplicateResolver.find_duplicates.
  destruct cols as [|c cols]; [contradiction|].
  unfold try_except, select_duplicates.
  rewrite (bind_ok _ _ st tt st)
    by (apply (execute_accepted env _ _ st t tb); auto).
  unfold gets. rewrite (the_table_some t st tb Hs). reflexivity.
Qed.

Lemma find_duplicates_ok env t cols st tb :
  faultless env -> s_tables st t = Some tb -> cols <> [] ->
  forallb (has_column tb) cols = true ->
  DuplicateResolver.find_duplicates env t cols st
  = (Ret (duplicate_groups tb cols), st).
Proof. intros F. apply find_duplicates_accepted. apply F. Qed.

Lemma match_nonempty {A B} (l : list A) (a b : B) :
  l <> [] -> match l with [] => a | _ :: _ => b end = b.
Proof. destruct l; [contradiction|reflexivity]. Qed.

(** One constraint group under the remove strategy, the grouping query
    being accepted: the rows afterwards and the lines logged. *)
Lemma resolve_index_pass env t idx tb st rs :
  src_faults env (SelectDuplicates t (idx_columns idx)) = None ->
  idx_columns idx <> [] ->
  forallb (has_column tb) (idx_columns idx) = true ->
  has_column tb "rowid" = false ->
  s_tables st t = Some (set_rows tb rs) ->
  exists st' entries,
    DuplicateResolver.resolve_index env t "remove" idx st = (Ret tt, st') /\
    s_tables st' t
    = Some (set_rows tb
              (remove_pass tb (idx_columns idx)
                 (filter (combination_accepted env t (idx_columns idx))
                    (dup_keys tb (idx_columns idx) rs)) rs)) /\
    Forall2 (entry_for env t (idx_columns idx))
      (dup_keys tb (idx_columns idx) rs) entries /\
    s_log st'
    = (s_log st
       ++ match dup_keys tb (idx_columns idx) rs with
          | [] => []
          | _ => [(WARNING,
                   MsgFound (length (dup_keys tb (idx_columns idx) rs)) t
                     (idx_columns idx))]
          end ++ entries)%list.
Proof.
  intros F Hn Hc Hr Hs. unfold DuplicateResolver.resolve_index.
  rewrite (bind_ok _ _ _ _ _
             (find_duplicates_accepted env t _ st (set_rows tb rs) F Hs Hn Hc)).
  rewrite duplicate_groups_keys.
  destruct (dup_keys tb (idx_columns idx) rs) as [|k ks] eqn:E.
  - exists st, []. simpl. rewrite app_nil_r. repeat split; auto.
  - rewrite <- E. rewrite match_nonempty by (rewrite E; discriminate).
    unfold bind at 1. unfold logger, modify.
    destruct (resolve_dupes_pass env t idx
                (fun k =>
                   VInt (Z.of_nat
                           (length (rows_with tb (idx_columns idx) k rs))))
                tb (dup_keys tb (idx_columns idx) rs) Hc Hr
                (add_log WARNING
                   (MsgFound
                      (length
                         (map (fun k =>
                                 (k ++ [VInt (Z.of_nat
                                                (length
                                                   (rows_with tb
                                                      (idx_columns idx) k
                                                      rs)))])%list)
                            (dup_keys tb (idx_columns idx) rs)))
                      t (idx_columns idx)) st) rs)
      as (st' & entries & E' & L' & P' & Hs').
    + intros k' H. split; [eapply dup_keys_length; exact H|].
      eapply dup_keys_nonempty; exact H.
    + exact Hs.
    + exists st', entries. split; [exact E'|]. split; [exact Hs'|].
      split; [exact P'|]. rewrite L'. simpl. rewrite length_map, E.
      rewrite <- app_assoc. reflexivity.
Qed.

Lemma faultless_accepts env t cols ks :
  faultless env -> filter (combination_accepted env t cols) ks = ks.
Proof.
  intros F. apply filter_all. intros k _. unfold combination_accepted.
  rewrite !F. reflexivity.
Qed.

Lemma resolve_index_remove env t idx tb st rs :
  faultless env ->
  idx_columns idx <> [] ->
  forallb (has_column tb) (idx_columns idx) = true ->
  has_column tb "rowid" = false ->
  s_tables st t = Some (set_rows tb rs) ->
  exists st',
    DuplicateResolver.resolve_index env t "remove" idx st = (Ret tt, st') /\
    s_tables st' t
    = Some (set_rows tb
              (remove_pass tb (idx_columns idx)
                 (dup_keys tb (idx_columns idx) rs) rs)).
Proof.
  intros F Hn Hc Hr Hs.
  destruct (resolve_index_pass env t idx tb st rs (F _) Hn Hc Hr Hs)
    as (st' & entries & E & Hs' & _).
  rewrite (faultless_accepts env t _ _ F) in Hs'. eauto.
Qed.

Lemma unique_after_pass tb cols rs :
  unique_rowids rs ->
  unique_on (set_rows tb (remove_pass tb cols (dup_keys tb cols rs) rs)) cols.
Proof.
  intros N k.
  change (length (rows_with tb cols k
                    (remove_pass tb cols (dup_keys tb cols rs) rs)) <= 1)%nat.
  rewrite remove_pass_dup_keys. apply keeper_of_length.
  unfold rows_with. apply unique_rowids_filter. exact N.
Qed.

Lemma unique_on_thinned tb cols rs rs' :
  thinned rs rs' -> unique_on (set_rows tb rs) cols ->
  unique_on (set_rows tb rs') cols.
Proof.
  intros T U k. specialize (U k).
  change (length (rows_with tb cols k rs) <= 1)%nat in U.
  change (length (rows_with tb cols k rs') <= 1)%nat.
  pose proof (thinned_group tb cols k rs rs' T). lia.
Qed.

Lemma resolve_indexes_remove env t tb groups :
  faultless env ->
  has_column tb "rowid" = false ->
  (forall idx, In idx groups ->
     idx_columns idx <> [] /\
     forallb (has_column tb) (idx_columns idx) = true) ->
  forall st rs,
    s_tables st t = Some (set_rows tb rs) -> unique_rowids rs ->
    exists st' rs',
      for_each groups (DuplicateResolver.resolve_index env t "remove") st
      = (Ret tt, st') /\
      s_tables st' t = Some (set_rows tb rs') /\
      thinned rs rs' /\
      forall idx, In idx groups ->
                  unique_on (set_rows tb rs') (idx_columns idx).
Proof.
  intros F Hr.
  induction groups as [|idx groups IH]; intros W st rs Hs N; simpl.
  - exists st, rs. repeat split; auto using thinned_refl. contradiction.
  - destruct (W idx (or_introl eq_refl)) as [Hn Hc].
    destruct (resolve_index_remove env t idx tb st rs F Hn Hc Hr Hs)
      as (st1 & E1 & Hs1).
    set (rs1 := remove_pass tb (idx_columns idx)
                  (dup_keys tb (idx_columns idx) rs) rs) in *.
    assert (T1 : thinned rs rs1) by apply remove_pass_thinned.
    destruct (IH (fun i H => W i (or_intror H)) st1 rs1 Hs1
                (thinned_unique_rowids _ _ T1 N))
      as (st2 & rs2 & E2 & Hs2 & T2 & U2).
    exists st2, rs2. rewrite (bind_ok _ _ _ _ _ E1).
    repeat split; auto.
    + eapply thinned_trans; eauto.
    + intros i [<-|Hi]; [|auto].
      eapply unique_on_thinned; [exact T2|].
      apply unique_after_pass. exact N.
Qed.

Lemma same_name_refl c : same_name c c = true.
Proof. apply String.eqb_refl. Qed.

Lemma str_in_has_column tb c :
  DuplicateResolver.str_in c (map col_name (columns tb)) = true ->
  has_column tb c = true.
Proof.
  unfold has_column, DuplicateResolver.str_in.
  induction (columns tb) as [|col cols IH]; simpl; [discriminate|].
  destruct (String.eqb_spec c (col_name col)) as [->|_]; simpl.
  - rewrite same_name_refl. reflexivity.
  - intros H. specialize (IH H).
    destruct (same_name (col_name col) c); [reflexivity|].
    destruct (col_index c cols); [reflexivity|discriminate IH].
Qed.

Lemma common_groups_nonempty t groups :
  DuplicateResolver.dict_get t DuplicateResolver.common_grafana_unique
  = Some groups ->
  Forall (fun g => g <> []) groups.
Proof.
  simpl.
  repeat (destruct (String.eqb t _);
          [intros H; inversion H; repeat constructor; discriminate|]).
  discriminate.
Qed.

Lemma add_pseudo_index_wf tb acc check_cols :
  check_cols <> [] ->
  Forall (fun idx => idx_columns idx <> [] /\
                     forallb (has_column tb) (idx_columns idx) = true) acc ->
  Forall (fun idx => idx_columns idx <> [] /\
                     forallb (has_column tb) (idx_columns idx) = true)
    (DuplicateResolver.add_pseudo_index (map col_name (columns tb)) acc
       check_cols).
Proof.
  intros Hn Hacc. unfold DuplicateResolver.add_pseudo_index.
  destruct (Nat.eqb_spec
              (length (filter (fun c => DuplicateResolver.str_in c
                                          (map col_name (columns tb)))
                         check_cols))
              (length check_cols)) as [E|_]; [|exact Hacc].
  destruct (negb _); [|exact Hacc].
  apply Forall_app. split; [exact Hacc|]. constructor; [|constructor].
  simpl. split.
  - intros H. rewrite H in E. destruct check_cols; [contradiction|discriminate].
  - apply forallb_forall. intros c Hc. apply filter_In in Hc.
    apply str_in_has_column. tauto.
Qed.

Lemma groups_of_wf t tb :
  well_indexed tb ->
  forall idx, In idx (groups_of t tb) ->
    idx_columns idx <> [] /\
    forallb (has_column tb) (idx_columns idx) = true.
Proof.
  intros W. apply Forall_forall. unfold groups_of.
  assert (H0 : Forall (fun idx => idx_columns idx <> [] /\
                          forallb (has_column tb) (idx_columns idx) = true)
                 (filter (fun idx => truthy (idx_unique idx)) (indexes tb))).
  { apply Forall_forall. intros idx H. apply filter_In in H. apply W. tauto. }
  destruct (DuplicateResolver.dict_get t _) as [groups|] eqn:E; [|exact H0].
  apply common_groups_nonempty in E.
  revert H0.
  generalize (filter (fun idx => truthy (idx_unique idx)) (indexes tb)).
  induction E as [|g groups Hg _ IH]; intros acc Hacc; simpl; [exact Hacc|].
  apply IH. apply add_pseudo_index_wf; assumption.
Qed.

Lemma conn_commit_ok env st :
  faultless env -> conn_commit env st = (Ret tt, add_commit st).
Proof.
  intros F. unfold conn_commit, bind, execute. rewrite F. reflexivity.
Qed.

Lemma resolve_remove_ok env t st tb :
  faultless env -> s_tables st t = Some tb -> unique_rowids (rows tb) ->
  well_indexed tb -> has_column tb "rowid" = false ->
  exists res st' rs',
    DuplicateResolver.resolve env t "remove" st = (Ret res, st') /\
    s_tables st' t = Some (set_rows tb rs') /\
    thinned (rows tb) rs' /\
    forall idx, In idx (groups_of t tb) ->
                unique_on (set_rows tb rs') (idx_columns idx).
Proof.
  intros F Hs N W Hr.
  destruct (constraint_groups_reads env t st) as [_ Hg]. specialize (Hg F).
  rewrite (the_table_some t st tb Hs) in Hg.
  assert (Hs1 : s_tables (set_resolutions [] st) t
                = Some (set_rows tb (rows tb)))
    by (rewrite set_rows_eta; exact Hs).
  destruct (resolve_indexes_remove env t tb (groups_of t tb) F Hr
              (groups_of_wf t tb W) _ _ Hs1 N)
    as (st2 & rs2 & E2 & Hs2 & T2 & U2).
  unfold DuplicateResolver.resolve.
  rewrite (bind_ok _ _ _ _ _ Hg).
  unfold bind at 1. unfold modify at 1.
  rewrite (bind_ok _ _ _ _ _ E2).
  unfold bind at 1. unfold gets at 1.
  destruct (s_resolutions st2) as [|x res] eqn:Er.
  - exists [], st2, rs2. split; [reflexivity|]. auto.
  - exists (x :: res), (add_commit st2), rs2.
    split; [|auto].
    rewrite (bind_ok _ _ _ _ _ (conn_commit_ok env st2 F)). reflexivity.
Qed.

(** *** The resolution step of the backend *)

Lemma backend_resolve_dupe_remove env t cols k c (T : Backend.task) tb rs :
  faultless env ->
  s_tables (src T) t = Some (set_rows tb rs) ->
  forallb (has_column tb) cols = true ->
  length k = length cols ->
  has_column tb "rowid" = false ->
  rows_with tb cols k rs <> [] ->
  exists T',
    Backend.resolve_dupe env t "remove" cols (k ++ [c]) T = (Ret tt, T') /\
    s_tables (src T') t
    = Some (set_rows tb (remove_rows tb cols k rs)).
Proof.
  intros F Hs Hc Hk Hr Hg. unfold Backend.resolve_dupe.
  rewrite (bind_ok _ _ _ _ _
             (lift_src_same _ T _
                (keeper_of_combination env t cols k c (src T) tb rs
                   (F _) Hs Hc Hk Hr))).
  unfold remove_rows.
  destruct (min_rowid (rows_with tb cols k rs)) as [keep|] eqn:Em;
    [|apply min_rowid_none in Em; contradiction].
  cbn [option_map].
  change (String.eqb "remove" "remove") with true. cbv iota.
  destruct (delete_of_combination env t cols k c keep (src T) tb rs
              (F _) Hs Hc Hk Hr) as (n & Ed).
  rewrite (bind_ok _ _ _ _ _ (lift_src_ok _ T _ _ Ed)).
  eexists. split; [reflexivity|]. simpl. rewrite String.eqb_refl.
  reflexivity.
Qed.

Lemma backend_dupes_remove env t cols (cnt : list value -> value) tb ks :
  faultless env ->
  forallb (has_column tb) cols = true ->
  has_column tb "rowid" = false ->
  forall (T : Backend.task) rs,
    (forall k, In k ks ->
       length k = length cols /\ rows_with tb cols k rs <> []) ->
    s_tables (src T) t = Some (set_rows tb rs) ->
    exists T',
      for_each (map (fun k => (k ++ [cnt k])%list) ks)
        (Backend.resolve_dupe env t "remove" cols) T
      = (Ret tt, T') /\
      s_tables (src T') t = Some (set_rows tb (remove_pass tb cols ks rs)).
Proof.
  intros F Hc Hr. induction ks as [|k ks IH]; intros T rs Hk Hs.
  - exists T. split; [reflexivity|exact Hs].
  - destruct (Hk k (or_introl eq_refl)) as [Lk Gk].
    destruct (backend_resolve_dupe_remove env t cols k (cnt k) T tb rs
                F Hs Hc Lk Hr Gk) as (T1 & E1 & Hs1).
    assert (Hk1 : forall k', In k' ks ->
                    length k' = length cols /\
                    rows_with tb cols k' (remove_rows tb cols k rs) <> []).
    { intros k' Hk'. destruct (Hk k' (or_intror Hk')) as [Lk' Gk'].
      split; [exact Lk'|]. apply remove_rows_keeps_groups. exact Gk'. }
    destruct (IH T1 _ Hk1 Hs1) as (T2 & E2 & Hs2).
    exists T2. cbn [map for_each]. rewrite (bind_ok _ _ _ _ _ E1).
    split; [exact E2|exact Hs2].
Qed.

Lemma filter_length_all {A} (f : A -> bool) (l : list A) :
  length (filter f l) = length l -> filter f l = l.
Proof.
  induction l as [|x l IH]; simpl; [reflexivity|].
  destruct (f x); simpl; intros H.
  - f_equal. apply IH. lia.
  - pose proof (filter_length_le f l). lia.
Qed.

(** One supplementary group in the backend: nothing is done when one of its
    columns is missing, and the pass of the remove strategy otherwise. *)
Lemma backend_group_remove env t check_cols (T : Backend.task) tb rs :
  faultless env ->
  has_column tb "rowid" = false ->
  s_tables (src T) t = Some (set_rows tb rs) ->
  exists T',
    Backend.resolve_group env t "remove" (map col_name (columns tb))
      check_cols T = (Ret tt, T') /\
    s_tables (src T') t
    = Some (set_rows tb
              (if forallb
                    (fun c => DuplicateResolver.str_in c
                                (map col_name (columns tb))) check_cols
               then remove_pass tb check_cols (dup_keys tb check_cols rs) rs
               else rs)).
Proof.
  intros F Hr Hs. unfold Backend.resolve_group.
  set (existing := map col_name (columns tb)).
  set (valid := filter (fun c => DuplicateResolver.str_in c existing)
                  check_cols).
  destruct (Nat.eqb_spec (length valid) (length check_cols)) as [E|N].
  - assert (V : valid = check_cols) by (apply filter_length_all; exact E).
    assert (X : forallb (fun c => DuplicateResolver.str_in c existing)
                  check_cols = true).
    { apply forallb_forall. intros c Hc. rewrite <- V in Hc.
      apply filter_In in Hc. tauto. }
    assert (Hc : forallb (has_column tb) check_cols = true).
    { apply forallb_forall. intros c Hc. apply str_in_has_column.
      rewrite forallb_forall in X. apply X. exact Hc. }
    rewrite V, X.
    assert (Ed : select_duplicates env t check_cols (src T)
                 = (Ret (duplicate_groups (set_rows tb rs) check_cols),
                    src T)).
    { unfold select_duplicates.
      rewrite (bind_ok _ _ (src T) tt (src T))
        by (apply (execute_ok env _ _ (src T) t (set_rows tb rs)); auto).
      unfold gets. rewrite (the_table_some t _ _ Hs). reflexivity. }
    rewrite (bind_ok _ _ _ _ _ (lift_src_same _ T _ Ed)).
    rewrite duplicate_groups_keys.
    apply backend_dupes_remove; auto.
    intros k H. split; [eapply dup_keys_length; exact H|].
    eapply dup_keys_nonempty; exact H.
  - exists T. split; [reflexivity|].
    destruct (forallb _ check_cols) eqn:X; [|exact Hs].
    exfalso. apply N. unfold valid. f_equal. apply filter_all.
    intros c Hc. rewrite forallb_forall in X. auto.
Qed.

Lemma backend_groups_remove env t tb groups :
  faultless env ->
  has_column tb "rowid" = false ->
  forall (T : Backend.task) rs,
    s_tables (src T) t = Some (set_rows tb rs) -> unique_rowids rs ->
    exists T' rs',
      for_each groups
        (Backend.resolve_group env t "remove" (map col_name (columns tb))) T
      = (Ret tt, T') /\
      s_tables (src T') t = Some (set_rows tb rs') /\
      thinned rs rs' /\
      forall check_cols, In check_cols groups ->
        forallb (fun c => DuplicateResolver.str_in c
                            (map col_name (columns tb))) check_cols = true ->
        unique_on (set_rows tb rs') check_cols.
Proof.
  intros F Hr.
  induction groups as [|g groups IH]; intros T rs Hs N; simpl.
  - exists T, rs. repeat split; auto using thinned_refl. contradiction.
  - destruct (backend_group_remove env t g T tb rs F Hr Hs)
      as (T1 & E1 & Hs1).
    set (rs1 := if forallb _ g
                then remove_pass tb g (dup_keys tb g rs) rs else rs) in *.
    assert (T1r : thinned rs rs1).
    { unfold rs1. destruct (forallb _ g);
        [apply remove_pass_thinned|apply thinned_refl]. }
    destruct (IH T1 rs1 Hs1 (thinned_unique_rowids _ _ T1r N))
      as (T2 & rs2 & E2 & Hs2 & T2r & U2).
    exists T2, rs2. rewrite (bind_ok _ _ _ _ _ E1).
    repeat split; auto.
    + eapply thinned_trans; eauto.
    + intros c [<-|Hi] X; [|auto].
      eapply unique_on_thinned; [exact T2r|].
      unfold rs1. rewrite X. apply unique_after_pass. exact N.
Qed.

Lemma get_table_schema_ok env t st tb :
  faultless env -> s_tables st t = Some tb ->
  DatabaseAnalyzer.get_table_schema env t st = (Ret (columns tb), st).
Proof.
  intros F Hs. unfold DatabaseAnalyzer.get_table_schema, bind, execute, gets.
  rewrite F. simpl. rewrite (the_table_some t st tb Hs). reflexivity.
Qed.

Lemma backend_table_remove env t (T : Backend.task) tb :
  faultless env -> s_tables (src T) t = Some tb ->
  unique_rowids (rows tb) -> has_column tb "rowid" = false ->
  exists T' rs',
    Backend.resolve_table env "remove" t T = (Ret tt, T') /\
    s_tables (src T') t = Some (set_rows tb rs') /\
    thinned (rows tb) rs' /\
    forall groups check_cols,
      DuplicateResolver.dict_get t DuplicateResolver.common_grafana_unique
      = Some groups ->
      In check_cols groups ->
      forallb (fun c => DuplicateResolver.str_in c
                          (map col_name (columns tb))) check_cols = true ->
      unique_on (set_rows tb rs') check_cols.
Proof.
  intros F Hs N Hr. unfold Backend.resolve_table.
  destruct (DuplicateResolver.dict_get t _) as [groups|] eqn:E.
  - rewrite (bind_ok _ _ _ _ _
               (lift_src_same _ T _ (get_table_schema_ok env t _ tb F Hs))).
    rewrite <- (set_rows_eta tb) in Hs.
    destruct (backend_groups_remove env t tb groups F Hr T (rows tb) Hs N)
      as (T' & rs' & E' & Hs' & Th & U).
    exists T', rs'. repeat split; auto.
    intros groups' c Eg. inversion Eg; subst. apply U.
  - exists T, (rows tb). rewrite set_rows_eta.
    repeat split; auto using thinned_refl. discriminate.
Qed.

(** C3, amended.  With no statement failing, on a table of distinct rowids
    that has no column named rowid and whose indexes name columns of the
    table.  In migrate.py, [resolve] with the remove strategy returns, only
    leaves rows out, and afterwards no constraint group (unique index or
    supplementary group) has a value combination carried by two rows;
    resolving one constraint group keeps of every group of rows its member
    of lowest rowid among the rows present at that moment, and nothing else
    of the group.  In the backend, the resolution of a table returns, only
    leaves rows out, and afterwards no supplementary group whose columns
    all exist has a value combination carried by two rows; one
    supplementary group is resolved as in migrate.py. *)
Theorem remove_unique_and_keeps_lowest (env : environment)
  (table_name : string) (st : source) (tb : table) :
  faultless env ->
  s_tables st table_name = Some tb ->
  unique_rowids (rows tb) ->
  well_indexed tb ->
  has_column tb "rowid" = false ->
  (exists res st' tb',
      DuplicateResolver.resolve env table_name "remove" st = (Ret res, st') /\
      s_tables st' table_name = Some tb' /\
      columns tb' = columns tb /\
      thinned (rows tb) (rows tb') /\
      forall idx, In idx (groups_of table_name tb) ->
                  unique_on tb' (idx_columns idx))
  /\ (forall idx, In idx (groups_of table_name tb) ->
      forall st1 tb1,
        s_tables st1 table_name = Some tb1 ->
        columns tb1 = columns tb ->
        unique_rowids (rows tb1) ->
        exists st' tb',
          DuplicateResolver.resolve_index env table_name "remove" idx st1
          = (Ret tt, st') /\
          s_tables st' table_name = Some tb' /\
          keeps_lowest tb1 tb' (idx_columns idx))
  /\ (forall T : Backend.task, src T = st ->
      exists T' tb',
        Backend.resolve_table env "remove" table_name T = (Ret tt, T') /\
        s_tables (src T') table_name = Some tb' /\
        columns tb' = columns tb /\
        thinned (rows tb) (rows tb') /\
        forall groups check_cols,
          DuplicateResolver.dict_get table_name
            DuplicateResolver.common_grafana_unique = Some groups ->
          In check_cols groups ->
          forallb (fun c => DuplicateResolver.str_in c
                              (map col_name (columns tb))) check_cols
          = true ->
          unique_on tb' check_cols)
  /\ (forall check_cols (T1 : Backend.task) tb1,
        forallb (fun c => DuplicateResolver.str_in c
                            (map col_name (columns tb))) check_cols = true ->
        s_tables (src T1) table_name = Some tb1 ->
        columns tb1 = columns tb ->
        unique_rowids (rows tb1) ->
        exists T' tb',
          Backend.resolve_group env table_name "remove"
            (map col_name (columns tb)) check_cols T1 = (Ret tt, T') /\
          s_tables (src T') table_name = Some tb' /\
          keeps_lowest tb1 tb' check_cols).
Proof.
  intros F Hs N W Hr. split; [|split; [|split]].
  - destruct (resolve_remove_ok env table_name st tb F Hs N W Hr)
      as (res & st' & rs' & E & Hs' & T & U).
    exists res, st', (set_rows tb rs'). repeat split; auto.
  - intros idx Hidx st1 tb1 Hs1 Hcols N1.
    destruct (groups_of_wf table_name tb W idx Hidx) as [Hn Hc].
    assert (Hc1 : forallb (has_column tb1) (idx_columns idx) = true).
    { unfold has_column in *. rewrite Hcols. exact Hc. }
    assert (Hr1 : has_column tb1 "rowid" = false).
    { unfold has_column in *. rewrite Hcols. exact Hr. }
    rewrite <- (set_rows_eta tb1) in Hs1.
    destruct (resolve_index_remove env table_name idx tb1 st1 (rows tb1)
                F Hn Hc1 Hr1 Hs1) as (st' & E & Hs').
    eexists st', _. split; [exact E|]. split; [exact Hs'|].
    intros k r Hr'.
    change (group_of tb1 (idx_columns idx) k)
      with (rows_with tb1 (idx_columns idx) k (rows tb1)) in *.
    change (group_of (set_rows tb1 ?x) (idx_columns idx) k)
      with (rows_with tb1 (idx_columns idx) k x).
    rewrite remove_pass_dup_keys.
    apply keeper_of_spec with (r := r); [|exact Hr'].
    unfold rows_with. apply unique_rowids_filter. exact N1.
  - intros T ET. subst st.
    destruct (backend_table_remove env table_name T tb F Hs N Hr)
      as (T' & rs' & E & Hs' & Th & U).
    exists T', (set_rows tb rs'). repeat split; auto.
  - intros check_cols T1 tb1 X Hs1 Hcols N1.
    assert (Hr1 : has_column tb1 "rowid" = false).
    { unfold has_column in *. rewrite Hcols. exact Hr. }
    rewrite <- (set_rows_eta tb1) in Hs1.
    destruct (backend_group_remove env table_name check_cols T1 tb1
                (rows tb1) F Hr1 Hs1) as (T' & E & Hs').
    rewrite Hcols in E, Hs'. rewrite X in Hs'.
    eexists T', _. split; [exact E|]. split; [exact Hs'|].
    intros k r Hr'.
    change (group_of tb1 check_cols k)
      with (rows_with tb1 check_cols k (rows tb1)) in *.
    change (group_of (set_rows tb1 ?x) check_cols k)
      with (rows_with tb1 check_cols k x).
    rewrite remove_pass_dup_keys.
    apply keeper_of_spec with (r := r); [|exact Hr'].
    unfold rows_with. apply unique_rowids_filter. exact N1.
Qed.

(** C3 as worded fails.  On the survivor: in [crossed_users] rows 2 and 3
    share the login ann and rows 1 and 2 share an e-mail.  The login group
    keeps row 2, its lowest rowid; the e-mail group, resolved next, keeps
    row 1 and deletes row 2.  After [resolve] the violating login group has
    no survivor at all.  On the backend: it does not look at the unique
    indexes of a table.  In [org_null_codes] two rows leave the uniquely
    indexed code NULL; the task completes and both are still there, where
    [resolve] of migrate.py removes the second.  On the word rowid: in
    [org_own_rowid] it names a column of the table, NULL in both rows; the
    keeper query answers NULL, the DELETE compares with NULL and removes
    nothing, no statement fails, and both rows of the same name stay, in
    migrate.py and in the backend. *)
Lemma remove_keeper_deleted_later :
  (let r := DuplicateResolver.resolve calm "user" "remove"
              (source_of "user" crossed_users) in
   fst r = Ret [Removed 1 "user" [VText "ann"];
                Removed 1 "user" [VText "x@x"]]
   /\ rows (the_table "user" (snd r)) = [user_row 1 "bob" "x@x" 0]
   /\ ~ lowest_member_survives crossed_users (the_table "user" (snd r))
          ["login"])
  /\ (let r := Backend.run_migration_task calm remove_everything
                 (Backend.new_task (source_of "org" org_null_codes)
                    fresh_target) in
      Backend.b_status (rep (snd r)) = "completed"
      /\ map idx_columns (groups_of "org" org_null_codes)
         = [["code"]; ["name"]]
      /\ map rowid (rows (the_table "org" (src (snd r)))) = [1; 2; 3]
      /\ unique_onb (the_table "org" (src (snd r))) ["code"] = false
      /\ map rowid
           (rows (the_table "org"
                    (snd (DuplicateResolver.resolve calm "org" "remove"
                            (source_of "org" org_null_codes)))))
         = [1; 3])
  /\ (let r := DuplicateResolver.resolve calm "org" "remove"
                 (source_of "org" org_own_rowid) in
      let t := Backend.run_migration_task calm remove_everything
                 (Backend.new_task (source_of "org" org_own_rowid)
                    fresh_target) in
      fst r = Ret [Removed 0 "org" [VText "Main"]]
      /\ map rowid (rows (the_table "org" (snd r))) = [1; 2]
      /\ unique_onb (the_table "org" (snd r)) ["name"] = false
      /\ Backend.b_status (rep (snd t)) = "completed"
      /\ map rowid (rows (the_table "org" (src (snd t)))) = [1; 2]).
Proof.
  split; [|split].
  - split; [vm_compute; reflexivity|]. split; [vm_compute; reflexivity|].
    intros H. specialize (H [VText "ann"]).
    assert (L : (1 < length (group_of crossed_users ["login"]
                               [VText "ann"]))%nat)
      by (vm_compute; lia).
    destruct (H L) as (r0 & E & _). vm_compute in E. discriminate E.
  - vm_compute. repeat split.
  - vm_compute. repeat split.
Qed.

(** The scenario of the specification: the login group of rows 1 and 3. *)
Lemma remove_unique_and_keeps_lowest_witness :
  (exists res st' tb',
      DuplicateResolver.resolve calm "user" "remove"
        (source_of "user" user_table) = (Ret res, st') /\
      s_tables st' "user" = Some tb' /\
      columns tb' = columns user_table /\
      thinned (rows user_table) (rows tb') /\
      forall idx, In idx (groups_of "user" user_table) ->
                  unique_on tb' (idx_columns idx))
  /\ (forall idx, In idx (groups_of "user" user_table) ->
      forall st1 tb1,
        s_tables st1 "user" = Some tb1 ->
        columns tb1 = columns user_table ->
        unique_rowids (rows tb1) ->
        exists st' tb',
          DuplicateResolver.resolve_index calm "user" "remove" idx st1
          = (Ret tt, st') /\
          s_tables st' "user" = Some tb' /\
          keeps_lowest tb1 tb' (idx_columns idx))
  /\ (forall T : Backend.task, src T = source_of "user" user_table ->
      exists T' tb',
        Backend.resolve_table calm "remove" "user" T = (Ret tt, T') /\
        s_tables (src T') "user" = Some tb' /\
        columns tb' = columns user_table /\
        thinned (rows user_table) (rows tb') /\
        forall groups check_cols,
          DuplicateResolver.dict_get "user"
            DuplicateResolver.common_grafana_unique = Some groups ->
          In check_cols groups ->
          forallb (fun c => DuplicateResolver.str_in c
                              (map col_name (columns user_table))) check_cols
          = true ->
          unique_on tb' check_cols)
  /\ (forall check_cols (T1 : Backend.task) tb1,
        forallb (fun c => DuplicateResolver.str_in c
                            (map col_name (columns user_table))) check_cols
        = true ->
        s_tables (src T1) "user" = Some tb1 ->
        columns tb1 = columns user_table ->
        unique_rowids (rows tb1) ->
        exists T' tb',
          Backend.resolve_group calm "user" "remove"
            (map col_name (columns user_table)) check_cols T1
          = (Ret tt, T') /\
          s_tables (src T') "user" = Some tb' /\
          keeps_lowest tb1 tb' check_cols).
Proof.
  apply (remove_unique_and_keeps_lowest calm "user"
           (source_of "user" user_table) user_table).
  - intros s. reflexivity.
  - reflexivity.
  - unfold unique_rowids. simpl.
    repeat constructor; simpl; intuition discriminate.
  - intros idx H. simpl in H. contradiction.
  - reflexivity.
Defined.

(** ** Transactions on the target *)

Section Respects.

Variable S : Type.
Variable R : S -> S -> Prop.
Hypothesis R_refl : forall s, R s s.
Hypothesis R_trans : forall a b c, R a b -> R b c -> R a c.

Lemma respects_ret {A} (a : A) : respects R (@ret S A a).
Proof. intros st. apply R_refl. Qed.

Lemma respects_raise {A} (e : exn) : respects R (@raise S A e).
Proof. intros st. apply R_refl. Qed.

Lemma respects_gets {A} (f : S -> A) : respects R (gets f).
Proof. intros st. apply R_refl. Qed.

Lemma respects_bind {A B} (m : M S A) (k : A -> M S B) :
  respects R m -> (forall a, respects R (k a)) -> respects R (bind m k).
Proof.
  intros Hm Hk st. unfold bind. specialize (Hm st).
  destruct (m st) as [[a|e] st1]; simpl in *; [|exact Hm].
  eapply R_trans; [exact Hm|apply Hk].
Qed.

Lemma respects_try {A} (body : M S A) catches handler :
  respects R body -> (forall e, respects R (handler e)) ->
  respects R (try_except body catches handler).
Proof.
  intros Hb Hh st. unfold try_except. specialize (Hb st).
  destruct (body st) as [[a|e] st1]; simpl in *; [exact Hb|].
  destruct (catches e); [|exact Hb].
  eapply R_trans; [exact Hb|apply Hh].
Qed.

Lemma respects_for_each {A} (l : list A) (body : A -> M S unit) :
  (forall x, respects R (body x)) -> respects R (for_each l body).
Proof.
  intros H. induction l as [|x l IH]; simpl; [apply respects_ret|].
  apply respects_bind; [apply H|intros _; exact IH].
Qed.

Lemma respects_map_m {A B} (f : A -> M S B) (l : list A) :
  (forall x, respects R (f x)) -> respects R (map_m f l).
Proof.
  intros H. induction l as [|x l IH]; simpl; [apply respects_ret|].
  apply respects_bind; [apply H|intros y].
  apply respects_bind; [exact IH|intros ys; apply respects_ret].
Qed.

End Respects.

(** *** The open transaction *)


















(** *** What a step sends *)

Section Sends.

Variable R : Type.
Variable status : R -> string.
Variable P : list tcall -> Prop.
Hypothesis P_nil : P [].
Hypothesis P_app : forall a b, P a -> P b -> P (a ++ b)%list.








End Sends.













(** *** The tables of [Migrator.run] *)
















(** *** The second entry point *)














(** ** Failures during duplicate resolution *)












(** The same run, computed: the DELETE of the pair of NULL e-mails is
    rejected and the pair is left; the loop goes on, rows 4 and 6 are
    removed, and the log has the three lines. *)
Lemma resolution_goes_on_after_a_failure :
  let r := DuplicateResolver.resolve_index null_delete_fails "user" "remove"
             email_group (source_of "user" paired_emails) in
  fst r = Ret tt
  /\ map rowid (rows (the_table "user" (snd r))) = [1; 2; 3; 5]
  /\ s_log (snd r)
     = [ (WARNING, MsgFound 3 "user" ["email"]);
         (ERROR, MsgResolveError "user" OperationalError);
         (INFO, MsgRemoved 1 "user" [VText "a@x"]);
         (INFO, MsgRemoved 1 "user" [VText "b@x"]) ].
Proof. vm_compute. repeat split. Qed.

(** ** Count validation *)

Lemma hoare_ret {S A} (P : S -> Prop) (Q : A -> S -> Prop) (a : A) :
  (forall st, P st -> Q a st) -> hoare P (ret a) Q.
Proof. intros H st HP. exists a, st. split; [reflexivity|auto]. Qed.

Lemma hoare_bind {S A B} (P : S -> Prop) (m : M S A) (Rm : A -> S -> Prop)
  (k : A -> M S B) (Q : B -> S -> Prop) :
  hoare P m Rm -> (forall a, hoare (Rm a) (k a) Q) -> hoare P (bind m k) Q.
Proof.
  intros Hm Hk st HP. destruct (Hm st HP) as (a & st1 & E1 & H1).
  destruct (Hk a st1 H1) as (b & st2 & E2 & H2).
  exists b, st2. split; [|exact H2]. rewrite (bind_ok _ _ _ _ _ E1). exact E2.
Qed.

Lemma hoare_conseq {S A} (P P' : S -> Prop) (m : M S A)
  (Q Q' : A -> S -> Prop) :
  (forall st, P st -> P' st) -> hoare P' m Q' ->
  (forall a st, Q' a st -> Q a st) -> hoare P m Q.
Proof.
  intros HP Hm HQ st H. destruct (Hm st (HP st H)) as (a & st1 & E & H1).
  exists a, st1. split; [exact E|auto].
Qed.

Lemma hoare_try {S A} (P : S -> Prop) (body : M S A) catches handler Q :
  hoare P body Q -> hoare P (try_except body catches handler) Q.
Proof.
  intros Hb st HP. destruct (Hb st HP) as (a & st1 & E & H1).
  exists a, st1. split; [|exact H1]. unfold try_except. rewrite E. reflexivity.
Qed.

Lemma hoare_for_each {S A} (I : S -> Prop) (l : list A)
  (body : A -> M S unit) :
  (forall x, In x l -> hoare I (body x) (fun _ => I)) ->
  hoare I (for_each l body) (fun _ => I).
Proof.
  induction l as [|x l IH]; intros H; simpl.
  - apply hoare_ret. auto.
  - eapply hoare_bind; [apply H; left; reflexivity|intros ?].
    apply IH. intros y Hy. apply H. right. exact Hy.
Qed.

(** A loop whose body [x] establishes [G x], every body keeping what the
    others established. *)
Lemma hoare_for_each_mark {S A} (I : S -> Prop) (G : A -> S -> Prop)
  (l : list A) (body : A -> M S unit) :
  (forall y, In y l ->
     hoare I (body y) (fun _ st => I st /\ G y st)) ->
  (forall x y, In y l ->
     hoare (fun st => I st /\ G x st) (body y) (fun _ st => G x st)) ->
  forall D : A -> Prop,
    hoare (fun st => I st /\ forall x, D x -> G x st)
      (for_each l body)
      (fun _ st => I st /\ forall x, D x \/ In x l -> G x st).
Proof.
  induction l as [|y l IH]; intros Hy Hx D; simpl.
  - apply hoare_ret. intros st [HI HD]. split; [exact HI|].
    intros x [H|H]; [auto|contradiction].
  - eapply hoare_bind with
      (Rm := fun _ st => I st /\ forall x, (D x \/ x = y) -> G x st).
    + intros st [HI HD].
      destruct (Hy y (or_introl eq_refl) st HI) as ([] & st1 & E & HI1 & HG).
      exists tt, st1. split; [exact E|]. split; [exact HI1|].
      intros x [H | ->]; [|exact HG].
      destruct (Hx x y (or_introl eq_refl) st (conj HI (HD x H)))
        as ([] & st2 & E2 & HG2).
      rewrite E in E2. inversion E2; subst. exact HG2.
    + intros _.
      eapply hoare_conseq;
        [|apply (IH (fun z H => Hy z (or_intror H))
                    (fun x z H => Hx x z (or_intror H))
                    (fun x => D x \/ x = y))|].
      * intros st H. exact H.
      * intros _ st [HI H]. split; [exact HI|].
        intros x [Hd|[-> | Hl]]; apply H; auto.
Qed.

Lemma tcall_ok {R} env c (st : engine R) :
  target_faultless env ->
  lift_tgt (tcall_do env c) st
  = (Ret tt, {| src := src st; tgt := record_call c (tgt st); rep := rep st |}).
Proof. intros F. unfold lift_tgt, tcall_do. rewrite F. reflexivity. Qed.

Lemma steady_tgt names T r0 (st : migrator) tg :
  steady names T r0 st ->
  steady names T r0 {| src := src st; tgt := tg; rep := rep st |}.
Proof. intros H. exact H. Qed.

Lemma hoare_statement env c names T r0 :
  target_faultless env ->
  hoare (steady names T r0) (lift_tgt (tcall_do env c))
    (fun _ => steady names T r0).
Proof.
  intros F st H. eexists tt, _. split; [apply tcall_ok; exact F|exact H].
Qed.

Lemma hoare_reads {A} env (m : M source A) (f : source -> A) names T r0 :
  faultless env -> (forall s, reads env m s (f s)) ->
  hoare (steady names T r0) (lift_src m)
    (fun a st => steady names T r0 st /\ a = f (src st)).
Proof.
  intros F Hm st H. exists (f (src st)), st. split; [|auto].
  apply lift_src_same. apply (proj2 (Hm (src st)) F).
Qed.

Lemma hoare_logger l msg names T r0 :
  hoare (steady names T r0) (lift_src (logger l msg))
    (fun _ => steady names T r0).
Proof. intros st H. eexists tt, _. split; [reflexivity|exact H]. Qed.

Lemma select_all_ok env t s tb :
  faultless env -> s_tables s t = Some tb ->
  select_all env t s = (Ret (rows tb), s).
Proof.
  intros F E. unfold select_all.
  rewrite (bind_ok _ _ s tt s)
    by (apply (execute_ok env _ _ s t tb); auto).
  unfold gets. rewrite (the_table_some t s tb E). reflexivity.
Qed.

Lemma select_count_ok env t s tb :
  faultless env -> s_tables s t = Some tb ->
  select_count env t s = (Ret (Z.of_nat (length (rows tb))), s).
Proof.
  intros F E. unfold select_count.
  rewrite (bind_ok _ _ s tt s)
    by (apply (execute_ok env _ _ s t tb); auto).
  unfold gets. rewrite (the_table_some t s tb E). reflexivity.
Qed.

(** *** The resolver keeps the tables of the source *)

Lemma grows_refl s : grows s s.
Proof. split; auto. Qed.

Lemma grows_trans a b c : grows a b -> grows b c -> grows a c.
Proof.
  intros [N1 T1] [N2 T2]. split; [congruence|]. intros t H. auto.
Qed.

Lemma grows_same st st' :
  s_names st' = s_names st -> s_tables st' = s_tables st -> grows st st'.
Proof. intros N T. split; [exact N|]. rewrite T. auto. Qed.

Lemma grows_execute env s params : respects grows (execute env s params).
Proof.
  intros st. destruct (execute_outcome env s params st) as [E|[e E]];
    rewrite E; apply grows_refl.
Qed.

Lemma grows_modify (f : source -> source) :
  (forall st, grows st (f st)) -> respects grows (modify f).
Proof. intros H st. apply H. Qed.

Lemma grows_put_table t tb st : grows st (put_table t tb st).
Proof.
  split; [reflexivity|]. intros t0 H. simpl.
  destruct (String.eqb t0 t); [discriminate|exact H].
Qed.

Ltac grows_step :=
  first
    [ apply respects_ret; apply grows_refl
    | apply respects_raise; apply grows_refl
    | apply respects_gets; apply grows_refl
    | apply grows_execute
    | apply grows_modify; intros;
        first [apply grows_put_table | apply grows_same; reflexivity]
    | apply respects_for_each;
        [apply grows_refl|apply grows_trans|intros]
    | apply respects_map_m;
        [apply grows_refl|apply grows_trans|intros]
    | apply respects_try; [apply grows_trans| |intros]
    | apply respects_bind; [apply grows_trans| |intros] ].

Lemma grows_delete_where env t w params :
  respects grows (delete_where env t w params).
Proof.
  unfold delete_where. apply respects_bind; [apply grows_trans| |intros _].
  - apply grows_execute.
  - intros st. apply grows_put_table.
Qed.

Lemma grows_resolve env t strategy :
  respects grows (DuplicateResolver.resolve env t strategy).
Proof.
  unfold DuplicateResolver.resolve.
  apply respects_bind; [apply grows_trans| |intros groups].
  { unfold DuplicateResolver.constraint_groups,
      DatabaseAnalyzer.get_indexes, DatabaseAnalyzer.get_table_schema.
    apply respects_bind; [apply grows_trans|repeat grows_step|intros idxs].
    destruct (DuplicateResolver.dict_get t _); repeat grows_step. }
  apply respects_bind; [apply grows_trans|grows_step|intros _].
  apply respects_bind; [apply grows_trans| |intros _].
  { apply respects_for_each; [apply grows_refl|apply grows_trans|intros idx].
    unfold DuplicateResolver.resolve_index.
    apply respects_bind; [apply grows_trans| |intros dupes].
    - unfold DuplicateResolver.find_duplicates.
      destruct (idx_columns idx); [grows_step|].
      unfold select_duplicates. repeat grows_step.
    - destruct dupes; [grows_step|].
      apply respects_bind;
        [apply grows_trans|unfold logger; grows_step|intros _].
      apply respects_for_each; [apply grows_refl|apply grows_trans|intros dupe].
      unfold DuplicateResolver.resolve_dupe.
      apply respects_try;
        [apply grows_trans| |intros e; unfold logger; grows_step].
      unfold DuplicateResolver.resolve_dupe_body.
      apply respects_bind; [apply grows_trans| |intros [keep_id|]];
        [unfold select_keeper; repeat grows_step| |grows_step].
      destruct (String.eqb strategy "remove").
      + apply respects_bind;
          [apply grows_trans|apply grows_delete_where|intros n].
        unfold logger, DuplicateResolver.append_resolution. repeat grows_step.
      + destruct (String.eqb strategy "rename"); [|grows_step].
        apply respects_bind; [apply grows_trans| |intros ids].
        * unfold select_rowids. repeat grows_step.
        * apply respects_for_each; [apply grows_refl|apply grows_trans|].
          intros [i rid]. unfold DuplicateResolver.rename_one.
          destruct (idx_columns idx); [grows_step|].
          apply respects_bind; [apply grows_trans| |intros [orig|]];
            [unfold select_cell; repeat grows_step| |grows_step].
          apply respects_bind; [apply grows_trans| |intros _].
          -- unfold update_cell. repeat grows_step.
          -- unfold DuplicateResolver.append_resolution. grows_step. }
  apply respects_bind; [apply grows_trans|grows_step|intros res].
  apply respects_bind; [apply grows_trans| |intros _; grows_step].
  destruct res; [grows_step|]. unfold conn_commit. repeat grows_step.
Qed.

Lemma faultless_resolver_faults_only env :
  faultless env -> resolver_faults_only env.
Proof. intros F s e H. rewrite F in H. discriminate H. Qed.

(** *** The phases of a run when no call fails *)

Lemma dict_get_set_same {A} k (v : A) d :
  DuplicateResolver.dict_get k (dict_set k v d) = Some v.
Proof.
  induction d as [|[k' v'] d IH]; simpl.
  - rewrite String.eqb_refl. reflexivity.
  - destruct (String.eqb k k') eqn:E; simpl; rewrite ?String.eqb_refl, ?E;
      auto.
Qed.

Lemma dict_get_set_other {A} k k' (v : A) d :
  k <> k' ->
  DuplicateResolver.dict_get k (dict_set k' v d)
  = DuplicateResolver.dict_get k d.
Proof.
  intros N. induction d as [|[k0 v0] d IH]; simpl.
  - destruct (String.eqb_spec k k'); [contradiction|reflexivity].
  - destruct (String.eqb_spec k' k0) as [->|N0]; simpl.
    + destruct (String.eqb_spec k k0); [contradiction|reflexivity].
    + destruct (String.eqb k k0); [reflexivity|exact IH].
Qed.

Lemma resolution_phase_ok env opts names :
  faultless env ->
  hoare (fun st : migrator =>
           s_names (src st) = names /\ tables_listed (src st))
    (Migrator.resolution_phase env opts names)
    (fun _ st => s_names (src st) = names /\ tables_listed (src st)).
Proof.
  intros F. unfold Migrator.resolution_phase.
  destruct (resolve_duplicates opts); [|apply hoare_ret; auto].
  apply hoare_for_each. intros table _ st [N L].
  destruct (returns_resolve env table (duplicate_strategy opts)
              (faultless_resolver_faults_only env F) (src st))
    as (res & s' & E).
  pose proof (grows_resolve env table (duplicate_strategy opts) (src st)) as G.
  rewrite E in G. simpl in G. destruct G as [Gn Gt].
  eexists tt, _. split.
  - rewrite (bind_ok _ _ _ _ _ (lift_src_ok _ st _ _ E)). reflexivity.
  - simpl. split; [congruence|].
    intros t Ht. apply Gt, L. rewrite <- Gn. exact Ht.
Qed.

Lemma steady_intro names T (st : migrator) :
  s_names (src st) = names -> s_tables (src st) = T ->
  steady names T (rep st) st.
Proof. intros. repeat split; assumption. Qed.

Lemma create_mysql_schema_ok env t names T r0 :
  faultless env -> target_faultless env ->
  hoare (steady names T r0) (Migrator.create_mysql_schema env t)
    (fun _ => steady names T r0).
Proof.
  intros F Ft. unfold Migrator.create_mysql_schema.
  eapply hoare_bind;
    [apply (hoare_reads env _ _ names T r0 F
              (get_table_schema_reads env t))|intros cols].
  eapply hoare_conseq with (P' := steady names T r0)
                           (Q' := fun _ => steady names T r0);
    [intros st [H _]; exact H| |auto].
  eapply hoare_bind;
    [apply (hoare_reads env _ _ names T r0 F (get_indexes_reads env t))
    |intros idxs].
  eapply hoare_conseq with (P' := steady names T r0)
                           (Q' := fun _ => steady names T r0);
    [intros st [H _]; exact H| |auto].
  eapply hoare_bind; [apply hoare_statement; exact Ft|intros ?].
  eapply hoare_bind; [apply hoare_statement; exact Ft|intros ?].
  apply hoare_for_each. intros idx _. unfold Migrator.create_index.
  destruct (_ && _ && _)%bool; [apply hoare_ret; auto|].
  apply hoare_try. apply hoare_statement. exact Ft.
Qed.

Lemma migrate_data_ok env t names T r0 :
  faultless env -> target_faultless env -> T t <> None ->
  hoare (steady names T r0) (Migrator.migrate_data env t)
    (fun _ => steady names T r0).
Proof.
  intros F Ft Ht. unfold Migrator.migrate_data.
  destruct (T t) as [tb|] eqn:E; [clear Ht|contradiction].
  eapply hoare_bind with (Rm := fun _ => steady names T r0).
  - intros st H. exists (rows tb), st. split; [|exact H].
    apply lift_src_same. apply select_all_ok; [exact F|].
    destruct H as (_ & -> & _). exact E.
  - intros [|r rs]; [apply hoare_ret; auto|].
    eapply hoare_bind with (Rm := fun _ => steady names T r0).
    + intros st H. eexists _, st. split; [|exact H].
      apply lift_src_same. reflexivity.
    + intros col_names. apply hoare_for_each. intros batch _.
      apply hoare_try. apply hoare_statement. exact Ft.
Qed.

Lemma migrate_table_run env names T t (st : migrator) :
  faultless env -> target_faultless env -> T t <> None ->
  s_names (src st) = names -> s_tables (src st) = T ->
  exists st',
    (Migrator.create_mysql_schema env t ;;
     Migrator.migrate_data env t ;;
     update_report (set_table_status t)) st = (Ret tt, st') /\
    s_names (src st') = names /\ s_tables (src st') = T /\
    rep st' = set_table_status t (rep st).
Proof.
  intros F Ft Ht N E.
  destruct (create_mysql_schema_ok env t names T (rep st) F Ft st
              (steady_intro names T st N E))
    as ([] & st1 & E1 & H1).
  destruct (migrate_data_ok env t names T (rep st) F Ft Ht st1 H1)
    as ([] & st2 & E2 & (N2 & T2 & R2)).
  eexists. split.
  - rewrite (bind_ok _ _ _ _ _ E1), (bind_ok _ _ _ _ _ E2). reflexivity.
  - simpl. rewrite R2. auto.
Qed.

Lemma migration_phase_ok env names T :
  faultless env -> target_faultless env ->
  (forall t, In t names -> T t <> None) ->
  hoare (fun st : migrator => s_names (src st) = names /\ s_tables (src st) = T)
    (Migrator.migration_phase env names)
    (fun _ st =>
       (s_names (src st) = names /\ s_tables (src st) = T) /\
       forall t, In t names ->
         DuplicateResolver.dict_get t (r_tables (rep st)) <> None).
Proof.
  intros F Ft L. unfold Migrator.migration_phase.
  eapply hoare_conseq;
    [|apply (hoare_for_each_mark
               (fun st : migrator =>
                  s_names (src st) = names /\ s_tables (src st) = T)
               (fun t st =>
                  DuplicateResolver.dict_get t (r_tables (rep st)) <> None)
               names _) with (D := fun _ => False)|].
  - intros st H. split; [exact H|]. intros x [].
  - intros y Hy st [N E].
    destruct (migrate_table_run env names T y st F Ft (L y Hy) N E)
      as (st' & E' & N' & T' & R').
    exists tt, st'. split; [exact E'|]. split; [auto|].
    rewrite R'. simpl. rewrite dict_get_set_same. discriminate.
  - intros x y Hy st [[N E] G].
    destruct (migrate_table_run env names T y st F Ft (L y Hy) N E)
      as (st' & E' & N' & T' & R').
    exists tt, st'. split; [exact E'|].
    rewrite R'. simpl. destruct (String.eqb_spec x y) as [->|Nxy].
    + rewrite dict_get_set_same. discriminate.
    + rewrite dict_get_set_other by exact Nxy. exact G.
  - intros _ st [H G]. split; [exact H|]. intros t Ht. apply G. right. exact Ht.
Qed.

Lemma expected_validation_tables env s s' t :
  s_tables s = s_tables s' ->
  expected_validation env s t = expected_validation env s' t.
Proof.
  intros E. unfold expected_validation, the_table. rewrite E. reflexivity.
Qed.

Lemma validate_counts_run env t (st : migrator) tb :
  faultless env -> target_faultless env ->
  s_tables (src st) t = Some tb ->
  Validator.validate_counts env t st
  = (Ret (Z.eqb (Z.of_nat (length (rows tb))) (target_count env t)),
     {| src := src st;
        tgt := record_call (count_read t) (tgt st);
        rep := rep st |}).
Proof.
  intros F Ft E. unfold Validator.validate_counts.
  rewrite (bind_ok _ _ _ _ _
             (lift_src_same _ st _ (select_count_ok env t (src st) tb F E))).
  unfold bind, lift_tgt, tquery_scalar, bind, tcall_do. rewrite Ft.
  reflexivity.
Qed.

Lemma validate_table_run env t (st : migrator) tb e :
  faultless env -> target_faultless env ->
  s_tables (src st) t = Some tb ->
  DuplicateResolver.dict_get t (r_tables (rep st)) = Some e ->
  exists st',
    Migrator.validate_table env t st = (Ret tt, st') /\
    s_names (src st') = s_names (src st) /\
    s_tables (src st') = s_tables (src st) /\
    r_tables (rep st')
    = dict_set t {| tr_status := tr_status e;
                    tr_validation :=
                      Some (expected_validation env (src st) t) |}
        (r_tables (rep st)).
Proof.
  intros F Ft E He. unfold Migrator.validate_table.
  rewrite (bind_ok _ _ _ _ _ (validate_counts_run env t st tb F Ft E)).
  unfold expected_validation. rewrite (the_table_some t (src st) tb E).
  destruct (Z.eqb _ _); simpl.
  - unfold set_table_validation. simpl. rewrite He.
    eexists. split; [reflexivity|]. simpl. auto.
  - unfold bind, lift_src, logger, modify, set_table_validation. simpl.
    rewrite He. eexists. split; [reflexivity|]. simpl. auto.
Qed.

Lemma validation_loop_ok env names T s0 :
  faultless env -> target_faultless env ->
  (forall t, In t names -> T t <> None) ->
  s_tables s0 = T ->
  hoare (fun st : migrator =>
           (s_names (src st) = names /\ s_tables (src st) = T) /\
           forall t, In t names ->
             DuplicateResolver.dict_get t (r_tables (rep st)) <> None)
    (for_each names (Migrator.validate_table env))
    (fun _ st =>
       (s_names (src st) = names /\ s_tables (src st) = T) /\
       forall t, In t names ->
         validation_of (rep st) t = Some (expected_validation env s0 t)).
Proof.
  intros F Ft L E0.
  assert (Step : forall y (st : migrator),
             In y names ->
             s_names (src st) = names -> s_tables (src st) = T ->
             (forall t, In t names ->
                DuplicateResolver.dict_get t (r_tables (rep st)) <> None) ->
             exists st' e,
               Migrator.validate_table env y st = (Ret tt, st') /\
               s_names (src st') = names /\ s_tables (src st') = T /\
               r_tables (rep st')
               = dict_set y {| tr_status := tr_status e;
                               tr_validation :=
                                 Some (expected_validation env s0 y) |}
                   (r_tables (rep st))).
  { intros y st Hy N E G.
    destruct (T y) as [tb|] eqn:Ety; [|exfalso; exact (L y Hy Ety)].
    destruct (DuplicateResolver.dict_get y (r_tables (rep st))) as [e|] eqn:Ey;
      [|exfalso; exact (G y Hy Ey)].
    rewrite <- E in Ety.
    destruct (validate_table_run env y st tb e F Ft Ety Ey)
      as (st' & E' & N' & T' & R').
    exists st', e. split; [exact E'|].
    rewrite (expected_validation_tables env s0 (src st) y) by congruence.
    repeat split; congruence. }
  eapply hoare_conseq;
    [|apply (hoare_for_each_mark
               (fun st : migrator =>
                  (s_names (src st) = names /\ s_tables (src st) = T) /\
                  forall t, In t names ->
                    DuplicateResolver.dict_get t (r_tables (rep st)) <> None)
               (fun t st =>
                  validation_of (rep st) t
                  = Some (expected_validation env s0 t))
               names _) with (D := fun _ => False)|].
  - intros st H. split; [exact H|]. intros x [].
  - intros y Hy st [[N E] G].
    destruct (Step y st Hy N E G) as (st' & e & E' & N' & T' & R').
    exists tt, st'. split; [exact E'|]. split; [split; [auto|]|].
    + intros t Ht. rewrite R'. destruct (String.eqb_spec t y) as [->|Nty].
      * rewrite dict_get_set_same. discriminate.
      * rewrite dict_get_set_other by exact Nty. apply G. exact Ht.
    + unfold validation_of. rewrite R', dict_get_set_same. reflexivity.
  - intros x y Hy st [[[N E] G] Gx].
    destruct (Step y st Hy N E G) as (st' & e & E' & N' & T' & R').
    exists tt, st'. split; [exact E'|].
    unfold validation_of in *. rewrite R'.
    destruct (String.eqb_spec x y) as [->|Nxy].
    + rewrite dict_get_set_same. reflexivity.
    + rewrite dict_get_set_other by exact Nxy. exact Gx.
  - intros _ st [H G]. split; [tauto|]. intros t Ht. apply G. right. exact Ht.
Qed.

Lemma grafana_tests_run env (st : migrator) :
  target_faultless env ->
  exists tests st',
    Validator.run_grafana_tests env st = (Ret tests, st') /\
    src st' = src st /\ rep st' = rep st.
Proof.
  intros Ft. unfold Validator.run_grafana_tests, Validator.grafana_test,
    bind, try_except, lift_tgt, tquery_scalar, bind, tcall_do.
  rewrite !Ft. simpl. eexists _, _. split; [reflexivity|]. simpl. auto.
Qed.

Lemma get_tables_ok env s :
  faultless env -> DatabaseAnalyzer.get_tables env s = (Ret (s_names s), s).
Proof.
  intros F. unfold DatabaseAnalyzer.get_tables, bind, execute. rewrite F.
  reflexivity.
Qed.

Lemma run_completes env opts (st : migrator) :
  faultless env -> target_faultless env -> tables_listed (src st) ->
  exists st',
    Migrator.run env opts st = (Ret tt, st') /\
    r_status (rep st') = "completed" /\
    forall t, In t (s_names (src st)) ->
      validation_of (rep st') t = Some (expected_validation env (src st') t).
Proof.
  intros F Ft L. set (names := s_names (src st)).
  unfold Migrator.run.
  rewrite (bind_ok _ _ _ _ _
             (lift_src_same _ st _ (get_tables_ok env (src st) F))).
  fold names. unfold try_except, Migrator.run_body.
  destruct (resolution_phase_ok env opts names F st (conj eq_refl L))
    as ([] & st1 & E1 & N1 & L1).
  rewrite (bind_ok _ _ _ _ _ E1).
  set (T := s_tables (src st1)).
  assert (LT : forall t, In t names -> T t <> None).
  { intros t Ht. apply L1. rewrite N1. exact Ht. }
  destruct (migration_phase_ok env names T F Ft LT st1 (conj N1 eq_refl))
    as ([] & st2 & E2 & [N2 T2] & G2).
  rewrite (bind_ok _ _ _ _ _ E2).
  destruct (validation_loop_ok env names T (src st2) F Ft LT T2 st2
              (conj (conj N2 T2) G2))
    as ([] & st3 & E3 & [N3 T3] & G3).
  destruct (grafana_tests_run env st3 Ft) as (tests & st4 & E4 & S4 & R4).
  unfold Migrator.validation_phase.
  rewrite (bind_ok _ _ st2 tt
             {| src := src st4; tgt := tgt st4;
                rep := set_validation_results tests (rep st4) |}).
  2:{ rewrite (bind_ok _ _ _ _ _ E3), (bind_ok _ _ _ _ _ E4). reflexivity. }
  rewrite (bind_ok _ _ _ _ _ (tcall_ok env TCommit _ Ft)).
  eexists. split; [reflexivity|]. simpl. split; [reflexivity|].
  intros t Ht. unfold validation_of in *. simpl. rewrite R4.
  rewrite (G3 t Ht). f_equal. apply expected_validation_tables.
  rewrite S4. congruence.
Qed.

(** C8.  [validate_counts] asks the target for COUNT( * ) of the table and
    answers whether it equals the number of rows the source has in that
    table; nothing else is sent and nothing is changed.  In a run where no
    call fails, whatever the target counts, the run returns with the status
    completed, and the report gives every table the validation ok when its
    counts agree and count_mismatch when they differ. *)
Theorem count_mismatch_reported_not_fatal (env : environment)
  (opts : options) (st : migrator) :
  faultless env -> target_faultless env -> tables_listed (src st) ->
  (forall t tb,
     s_tables (src st) t = Some tb ->
     exists st',
       Validator.validate_counts env t st
       = (Ret (Z.eqb (Z.of_nat (length (rows tb))) (target_count env t)),
          st') /\
       t_trace (tgt st') = (t_trace (tgt st) ++ [count_read t])%list /\
       src st' = src st /\ rep st' = rep st)
  /\ (let r := Migrator.run env opts st in
      fst r = Ret tt
      /\ r_status (rep (snd r)) = "completed"
      /\ forall t, In t (s_names (src st)) ->
           validation_of (rep (snd r)) t
           = Some (expected_validation env (src (snd r)) t)).
Proof.
  intros F Ft L. split.
  - intros t tb E. eexists. split; [apply validate_counts_run; assumption|].
    simpl. auto.
  - destruct (run_completes env opts st F Ft L) as (st' & E & S & V).
    cbv zeta. rewrite E. simpl. auto.
Qed.

(** The scenario table with duplicates removed has two rows; the target
    answers three to the count of user (a row inserted by hand on that
    side) and two to anything else. *)
Lemma count_mismatch_reported_not_fatal_witness :
  let env := {| src_faults := fun _ => None;
                tgt_faults := fun _ => None;
                tgt_scalar := fun sql =>
                  if String.eqb sql
                       ("SELECT COUNT(" ++ "*" ++ ") FROM `user`")
                  then 3 else 2 |} in
  let r := Migrator.run env (with_resolution "remove")
             (new_migrator (source_of "user" user_table) fresh_target) in
  fst r = Ret tt
  /\ r_status (rep (snd r)) = "completed"
  /\ validation_of (rep (snd r)) "user" = Some "count_mismatch".
Proof.
  intros env r.
  destruct (count_mismatch_reported_not_fatal env (with_resolution "remove")
              (new_migrator (source_of "user" user_table) fresh_target))
    as [_ (H1 & H2 & H3)].
  - intros s. reflexivity.
  - intros c. reflexivity.
  - intros t [<-|[]]. simpl. discriminate.
  - subst r. split; [exact H1|]. split; [exact H2|].
    rewrite (H3 "user" (or_introl eq_refl)). vm_compute. reflexivity.
Defined.

(** ** The rename strategy never gets past its first query *)

(** The query that lists the rows to rename carries the placeholders of
    [cols_vals] and one more for [rowid != ?], and is given [vals] alone. *)
Lemma select_rowids_short env t w vals st tb :
  faultless env -> s_tables st t = Some tb ->
  forallb (has_column tb) (flat_map cond_columns w) = true ->
  where_placeholders w = length vals ->
  select_rowids env t (w ++ [CRowidNe])%list vals st
  = (Exc ProgrammingError, st).
Proof.
  intros F Hs Hc Ha. unfold select_rowids, bind, execute.
  rewrite F. simpl. rewrite Hs, flat_map_app. simpl. rewrite app_nil_r, Hc.
  simpl. rewrite where_placeholders_app, Ha.
  change (where_placeholders [CRowidNe]) with 1%nat.
  destruct (Nat.eqb_spec (length vals + 1) (length vals)) as [E|_];
    [lia|reflexivity].
Qed.

(** Whenever a duplicate group is found and its keeper looked up, the
    rename branch raises [ProgrammingError] before any row is read or
    written; the handler logs it and the table is left as it was. *)
Lemma rename_never_renames env t idx k c st tb :
  faultless env ->
  s_tables st t = Some tb ->
  forallb (has_column tb) (idx_columns idx) = true ->
  length k = length (idx_columns idx) ->
  rows_with tb (idx_columns idx) k (rows tb) <> [] ->
  DuplicateResolver.resolve_dupe env t "rename" idx (k ++ [c]) st
  = (Ret tt, add_log ERROR (MsgResolveError t ProgrammingError) st).
Proof.
  intros F Hs Hc Hk Hg.
  set (cols := idx_columns idx) in *.
  set (w := DuplicateResolver.cols_vals_of cols (k ++ [c])).
  set (vals := DuplicateResolver.vals_of (k ++ [c])).
  assert (Ha : where_placeholders w = length vals).
  { unfold vals. rewrite vals_of_dupe.
    exact (cols_vals_arity cols [] k [c] Hk). }
  assert (Hcol : flat_map cond_columns w = cols) by apply cols_vals_columns.
  assert (Hkeep : select_keeper env t w vals st
                  = (Ret (least (map (rowid_value tb)
                                   (rows_with tb cols k (rows tb)))), st)).
  { rewrite (select_keeper_ok env t w vals st tb F Hs);
      [|rewrite Hcol; exact Hc|exact Ha].
    do 4 f_equal. unfold rows_with. apply filter_ext. intros r.
    unfold w, vals. rewrite vals_of_dupe.
    pose proof (eval_where_cols_vals tb r [] [] cols [] k [c] Hk) as Hw.
    rewrite !app_nil_r in Hw. simpl in Hw.
    unfold DuplicateResolver.cols_vals_of.
    simpl. rewrite Hw. apply andb_true_r. }
  unfold DuplicateResolver.resolve_dupe, try_except,
    DuplicateResolver.resolve_dupe_body. fold cols. fold w. fold vals.
  rewrite (bind_ok _ _ _ _ _ Hkeep).
  destruct (least (map (rowid_value tb) (rows_with tb cols k (rows tb))))
    as [keep|] eqn:Em.
  - change (String.eqb "rename" "remove") with false.
    change (String.eqb "rename" "rename") with true. cbv iota.
    unfold bind at 1.
    rewrite (select_rowids_short env t w vals st tb F Hs);
      [reflexivity|rewrite Hcol; exact Hc|exact Ha].
  - apply least_none, map_eq_nil in Em. contradiction.
Qed.

(** * Further properties of the engine *)

(** ** Substrings and case *)

Lemma upper_ascii_idem c : upper_ascii (upper_ascii c) = upper_ascii c.
Proof.
  destruct c as [[] [] [] [] [] [] [] []]; reflexivity.
Qed.

Lemma upper_idem s : upper (upper s) = upper s.
Proof.
  induction s as [|c s IH]; simpl; [reflexivity|].
  rewrite upper_ascii_idem, IH. reflexivity.
Qed.

Lemma prefix_iff key s :
  prefix key s = true <-> exists post, s = key ++ post.
Proof.
  revert s. induction key as [|a key IH]; intros s.
  - split; [intros _; exists s; reflexivity|].
    intros _. destruct s; reflexivity.
  - destruct s as [|b s]; simpl.
    + split; [discriminate|intros [post H]; discriminate H].
    + destruct (ascii_dec a b) as [->|N].
      * rewrite IH. split; intros [post H]; exists post.
        -- rewrite H. reflexivity.
        -- inversion H. reflexivity.
      * split; [discriminate|]. intros [post H]. simpl in H.
        injection H as E1 E2. congruence.
Qed.

Lemma contains_iff key s :
  contains key s = true <-> exists pre post, s = pre ++ key ++ post.
Proof.
  induction s as [|c s IH]; cbn [contains].
  - rewrite prefix_iff. split.
    + intros [post H]. exists "", post. exact H.
    + intros (pre & post & H). destruct pre; simpl in H.
      * exists post. exact H.
      * discriminate H.
  - rewrite orb_true_iff, prefix_iff, IH. split.
    + intros [[post H]|(pre & post & H)].
      * exists "", post. exact H.
      * exists (String c pre), post. simpl. rewrite H. reflexivity.
    + intros (pre & post & H). destruct pre as [|d pre]; simpl in H.
      * left. exists post. exact H.
      * right. inversion H. exists pre, post. reflexivity.
Qed.

Lemma contains_trans a b s :
  contains a b = true -> contains b s = true -> contains a s = true.
Proof.
  rewrite !contains_iff. intros (p1 & q1 & ->) (p2 & q2 & ->).
  exists (p2 ++ p1), (q1 ++ q2). rewrite !str_append_assoc. reflexivity.
Qed.

Lemma not_contains_trans a b s :
  contains a b = true -> contains a s = false -> contains b s = false.
Proof.
  intros Hab Has. destruct (contains b s) eqn:E; [|reflexivity].
  rewrite (contains_trans a b s Hab E) in Has. discriminate Has.
Qed.

(** ** TypeMapper: what it can answer *)

(** X1.  The letter case of a declared type does not matter. *)
Theorem map_type_case_insensitive (s column_name table_name : string) :
  TypeMapper.map_type (upper s) column_name table_name
  = TypeMapper.map_type s column_name table_name.
Proof. unfold TypeMapper.map_type. rewrite upper_idem. reflexivity. Qed.

(** Without VARCHAR in the declared type, the answer is INT exactly when
    the type contains INT; otherwise it is one of nine other types. *)
Lemma scan_rules_cases_int u :
  contains "VARCHAR" u = false ->
  (contains "INT" u = true /\
   TypeMapper.scan_rules TypeMapper.MAPPING u = "INT")
  \/ (contains "INT" u = false /\
      In (TypeMapper.scan_rules TypeMapper.MAPPING u) (tl reachable_types)).
Proof.
  intros Hv.
  unfold TypeMapper.MAPPING, TypeMapper.scan_rules, reachable_types.
  destruct (contains "INT" u) eqn:Hint.
  - left. split; [reflexivity|].
    destruct (contains "INTEGER" u); reflexivity.
  - right. split; [reflexivity|].
    rewrite (not_contains_trans "INT" "INTEGER" _ eq_refl Hint).
    rewrite (not_contains_trans "INT" "TINYINT" _ eq_refl Hint).
    rewrite (not_contains_trans "INT" "SMALLINT" _ eq_refl Hint).
    rewrite (not_contains_trans "INT" "MEDIUMINT" _ eq_refl Hint).
    rewrite (not_contains_trans "INT" "BIGINT" _ eq_refl Hint).
    rewrite (not_contains_trans "INT" "UNSIGNED BIG INT" _ eq_refl Hint).
    rewrite (not_contains_trans "INT" "INT2" _ eq_refl Hint).
    rewrite (not_contains_trans "INT" "INT8" _ eq_refl Hint).
    destruct (contains "TEXT" u); [simpl; tauto|].
    destruct (contains "CLOB" u); [simpl; tauto|].
    destruct (contains "BLOB" u); [simpl; tauto|].
    destruct (contains "REAL" u); [simpl; tauto|].
    destruct (contains "DOUBLE" u) eqn:Hd; [simpl; tauto|].
    rewrite (not_contains_trans "DOUBLE" "DOUBLE PRECISION" _ eq_refl Hd).
    destruct (contains "FLOAT" u); [simpl; tauto|].
    destruct (contains "NUMERIC" u); [simpl; tauto|].
    destruct (contains "BOOLEAN" u); [simpl; tauto|].
    destruct (contains "DATETIME" u); [simpl; tauto|].
    destruct (contains "DATE" u); [simpl; tauto|].
    rewrite Hv.
    rewrite (not_contains_trans "VARCHAR" "NVARCHAR" _ eq_refl Hv).
    destruct (contains "CHARACTER" u); simpl; tauto.
Qed.

(** X2.  A declared type without VARCHAR is mapped to one of ten target
    types: the rules whose key contains the key of an earlier rule are
    never selected, so TINYINT, SMALLINT, MEDIUMINT, BIGINT and BIGINT
    UNSIGNED are never answered.  A declared type with VARCHAR and a
    parenthesis is returned as it is, in upper case; one with VARCHAR and no
    parenthesis becomes VARCHAR(255). *)
Theorem map_type_range (s column_name table_name : string) :
  let r := TypeMapper.map_type s column_name table_name in
  (contains "VARCHAR" (upper s) = false /\ In r reachable_types)
  \/ (contains "VARCHAR" (upper s) = true /\
      contains "(" (upper s) = false /\ r = "VARCHAR(255)")
  \/ (contains "VARCHAR" (upper s) = true /\
      contains "(" (upper s) = true /\ r = upper s).
Proof.
  unfold TypeMapper.map_type.
  destruct (contains "VARCHAR" (upper s)) eqn:Hv.
  - right. destruct (contains "(" (upper s)); simpl; auto.
  - left. split; [reflexivity|].
    destruct (scan_rules_cases_int (upper s) Hv) as [[_ ->]|[_ H]].
    + left. reflexivity.
    + right. exact H.
Qed.

(** X3.  For a column whose declared type has no VARCHAR, the column line
    carries AUTO_INCREMENT exactly when the primary-key flag is set and the
    declared type contains INT, in any letter case. *)
Theorem auto_increment_by_declared_type (table_name : string) (col : column) :
  contains "VARCHAR" (upper (col_type col)) = false ->
  (Migrator.extra table_name col = "AUTO_INCREMENT" <->
   truthy (col_pk col) = true /\
   contains "INT" (upper (col_type col)) = true).
Proof.
  intros Hv. unfold Migrator.extra, TypeMapper.map_type. rewrite Hv.
  destruct (scan_rules_cases_int (upper (col_type col)) Hv)
    as [[Hi ->]|[Hi H]]; rewrite Hi.
  - change (contains "INT" (upper "INT")) with true.
    destruct (truthy (col_pk col)); simpl; split; intros H;
      try tauto; try discriminate H; destruct H; discriminate.
  - assert (E : contains "INT"
                  (upper (TypeMapper.scan_rules TypeMapper.MAPPING
                            (upper (col_type col)))) = false).
    { unfold reachable_types in H. cbn [tl In] in H.
      repeat (destruct H as [<- | H]; [reflexivity|]). contradiction. }
    rewrite E, andb_false_r. split; [discriminate|].
    intros [_ ?]. discriminate.
Qed.

Lemma auto_increment_by_declared_type_witness :
  Migrator.extra "user" (nth 0 user_columns
                           {| col_cid := 0; col_name := ""; col_type := "";
                              col_notnull := 0; col_dflt_value := None;
                              col_pk := 0 |}) = "AUTO_INCREMENT" <->
  truthy 1 = true /\ contains "INT" (upper "INTEGER") = true.
Proof.
  apply (auto_increment_by_declared_type "user"
           (nth 0 user_columns
              {| col_cid := 0; col_name := ""; col_type := "";
                 col_notnull := 0; col_dflt_value := None; col_pk := 0 |})).
  reflexivity.
Defined.

(** ** Data transfer: the batches *)

Lemma batches_partition_fuel {A} (n : nat) :
  (0 < n)%nat ->
  forall fuel (rows : list A),
    (length rows <= fuel)%nat ->
    concat (Migrator.batches fuel n rows) = rows /\
    Forall (fun b => (0 < length b <= n)%nat) (Migrator.batches fuel n rows).
Proof.
  intros Hn. induction fuel as [|fuel IH]; intros rows Hl.
  - destruct rows; [|simpl in Hl; lia]. simpl. auto.
  - destruct rows as [|r rows]; [simpl; auto|].
    cbn [Migrator.batches].
    destruct (IH (skipn n (r :: rows))) as [Hc Hf].
    { rewrite length_skipn. cbn [length] in *. lia. }
    split.
    + cbn [concat]. rewrite Hc. apply firstn_skipn.
    + constructor; [|exact Hf].
      rewrite length_firstn. cbn [length]. lia.
Qed.

(** X4.  The batches of a table are its rows, in order, cut into pieces that
    are never empty and never longer than the batch size. *)
Theorem batches_partition {A} (batch_size : nat) (rows : list A) :
  (0 < batch_size)%nat ->
  concat (Migrator.batches (length rows) batch_size rows) = rows /\
  Forall (fun b => (0 < length b <= batch_size)%nat)
    (Migrator.batches (length rows) batch_size rows).
Proof. intros H. apply batches_partition_fuel; [exact H|lia]. Qed.

Lemma batches_partition_witness :
  concat (Migrator.batches 5 2 [1; 2; 3; 4; 5]) = [1; 2; 3; 4; 5] /\
  Forall (fun b => (0 < length b <= 2)%nat)
    (Migrator.batches 5 2 [1; 2; 3; 4; 5]).
Proof. apply (batches_partition 2 [1; 2; 3; 4; 5]). lia. Defined.

(** A loop of inserts that returns has sent every batch, in order. *)
Lemma insert_loop_trace env sql (l : list (list row)) :
  forall st st' : migrator,
  for_each l
    (fun batch =>
       try_except
         (lift_tgt (tcall_do env (TExecuteMany sql (map cells batch))))
         any_exception
         (fun e =>
            lift_src (logger ERROR (MsgOther "Erro ao inserir dados")) ;;
            raise e)) st = (Ret tt, st') ->
  t_trace (tgt st')
  = (t_trace (tgt st)
     ++ map (fun batch => TExecuteMany sql (map cells batch)) l)%list
  /\ src st' = src st /\ rep st' = rep st.
Proof.
  induction l as [|b l IH]; intros st st' E; simpl in E.
  - inversion E; subst. rewrite app_nil_r. auto.
  - unfold bind at 1 in E. unfold try_except, lift_tgt, tcall_do in E.
    destruct (tgt_faults env (TExecuteMany sql (map cells b))) as [e|].
    + simpl in E. discriminate E.
    + apply IH in E. simpl in E. destruct E as (Et & Es & Er).
      rewrite Et, <- app_assoc. auto.
Qed.

Lemma select_all_returns env t s rs s' :
  select_all env t s = (Ret rs, s') -> s' = s /\ rs = rows (the_table t s).
Proof.
  unfold select_all, bind, gets.
  destruct (execute_outcome env (SelectAll t) [] s) as [E|[e E]]; rewrite E;
    intros H; inversion H; auto.
Qed.

(** X5.  When the transfer of a table returns, the batches it sent hold, in
    order, exactly the rows of the source table, each batch with 1 to 1000
    rows; an empty table sends nothing. The source and the report are not
    touched. *)
Theorem migrate_data_sends_every_row (env : environment) (table_name : string)
  (st st' : migrator) :
  Migrator.migrate_data env table_name st = (Ret tt, st') ->
  exists sent : list (list row),
    t_trace (tgt st')
    = (t_trace (tgt st)
       ++ map (fun batch =>
                 TExecuteMany
                   (Migrator.insert_query table_name
                      (map col_name (columns (the_table table_name (src st)))))
                   (map cells batch)) sent)%list
    /\ concat sent = rows (the_table table_name (src st))
    /\ Forall (fun b => (0 < length b <= 1000)%nat) sent
    /\ src st' = src st /\ rep st' = rep st.
Proof.
  unfold Migrator.migrate_data. intros E.
  unfold bind at 1 in E. unfold lift_src at 1 in E.
  destruct (select_all env table_name (src st)) as [[rs|e] s1] eqn:Es;
    [|discriminate E].
  apply select_all_returns in Es. destruct Es as [-> ->].
  destruct (rows (the_table table_name (src st))) as [|r rs] eqn:Er.
  - inversion E; subst. exists []. simpl. rewrite app_nil_r. auto.
  - unfold bind at 1 in E. unfold lift_src at 1, gets at 1 in E.
    apply insert_loop_trace in E. simpl in E. destruct E as (Et & Esrc & Erep).
    exists (Migrator.batches (length (r :: rs)) 1000 (r :: rs)).
    destruct (batches_partition 1000 (r :: rs)) as [Hc Hf]; [lia|].
    repeat split; auto.
Qed.

Lemma migrate_data_sends_every_row_witness :
  exists sent : list (list row),
    t_trace (tgt (snd (Migrator.migrate_data calm "user"
                         (new_migrator (source_of "user" user_table)
                            fresh_target))))
    = ([] ++ map (fun batch =>
                    TExecuteMany
                      (Migrator.insert_query "user" (map col_name user_columns))
                      (map cells batch)) sent)%list
    /\ concat sent = rows user_table.
Proof.
  destruct (migrate_data_sends_every_row calm "user"
              (new_migrator (source_of "user" user_table) fresh_target)
              (snd (Migrator.migrate_data calm "user"
                      (new_migrator (source_of "user" user_table)
                         fresh_target))))
    as (sent & H1 & H2 & _).
  - vm_compute. reflexivity.
  - exists sent. split; [exact H1|exact H2].
Defined.

(** ** Index synthesis: what a rejected index does *)

(** An index that backs a primary-key column is skipped without a call.
    For any other index, the statement is tried; when it is rejected, a
    non-unique index is dropped with a warning, and a unique index is tried
    again as a plain index under the suffixed name.  [create_index] raises
    only when that second statement is rejected too, with its exception. *)
Lemma create_index_outcome (env : environment) (table_name : string)
  (pk_cols : list string) (idx : index) (st : migrator) :
  let r := Migrator.create_index env table_name pk_cols idx st in
  (backs_primary_key pk_cols idx = true -> r = (Ret tt, st))
  /\ (backs_primary_key pk_cols idx = false ->
      tgt_faults env (index_statement table_name idx) = None ->
      fst r = Ret tt /\
      t_trace (tgt (snd r))
      = (t_trace (tgt st) ++ [index_statement table_name idx])%list)
  /\ (backs_primary_key pk_cols idx = false ->
      tgt_faults env (index_statement table_name idx) <> None ->
      truthy (idx_unique idx) = false ->
      fst r = Ret tt /\
      t_trace (tgt (snd r))
      = (t_trace (tgt st) ++ [index_statement table_name idx])%list)
  /\ (backs_primary_key pk_cols idx = false ->
      tgt_faults env (index_statement table_name idx) <> None ->
      truthy (idx_unique idx) = true ->
      fst r = match tgt_faults env (fallback_index_statement table_name idx)
              with Some e => Exc e | None => Ret tt end /\
      t_trace (tgt (snd r))
      = (t_trace (tgt st)
         ++ [index_statement table_name idx;
             fallback_index_statement table_name idx])%list).
Proof.
  unfold Migrator.create_index, backs_primary_key.
  destruct (_ && _ && _)%bool eqn:Hskip; cbv zeta.
  - repeat split; intros; try discriminate. 
  - fold (index_statement table_name idx).
    fold (fallback_index_statement table_name idx).
    unfold try_except, lift_tgt, tcall_do, bind, lift_src, logger, modify.
    destruct (tgt_faults env (index_statement table_name idx)) as [e|] eqn:E1;
      simpl.
    + split; [discriminate|]. split; [intros _ H; discriminate H|].
      destruct (truthy (idx_unique idx)) eqn:Hu; simpl.
      * split; [intros _ _ H; discriminate H|]. intros _ _ _.
        destruct (tgt_faults env (fallback_index_statement table_name idx));
          simpl; rewrite <- app_assoc; auto.
      * split; [auto|]. intros _ _ H. discriminate H.
    + split; [discriminate|]. split; [auto|].
      split; intros _ H; exfalso; apply H; reflexivity.
Qed.

(** X6.  [create_index] raises only for a unique index whose statement was
    rejected and whose fallback, the plain index under the suffixed name, was
    rejected too; the exception is the one of the fallback. A rejected non-
    unique index never stops the table. *)
Theorem create_index_raises_only_after_fallback (env : environment)
  (table_name : string) (pk_cols : list string) (idx : index) (st : migrator)
  (e : exn) :
  fst (Migrator.create_index env table_name pk_cols idx st) = Exc e ->
  truthy (idx_unique idx) = true
  /\ tgt_faults env (index_statement table_name idx) <> None
  /\ tgt_faults env (fallback_index_statement table_name idx) = Some e
  /\ t_trace (tgt (snd (Migrator.create_index env table_name pk_cols idx st)))
     = (t_trace (tgt st)
        ++ [index_statement table_name idx;
            fallback_index_statement table_name idx])%list.
Proof.
  intros H.
  destruct (create_index_outcome env table_name pk_cols idx st)
    as (H1 & H2 & H3 & H4).
  destruct (backs_primary_key pk_cols idx) eqn:Hb.
  - rewrite (H1 eq_refl) in H. discriminate H.
  - destruct (tgt_faults env (index_statement table_name idx)) as [e0|] eqn:E0.
    + destruct (truthy (idx_unique idx)) eqn:Hu.
      * destruct (H4 eq_refl ltac:(discriminate) eq_refl) as [Ho Ht].
        rewrite Ho in H.
        destruct (tgt_faults env (fallback_index_statement table_name idx))
          as [e1|]; [|discriminate H].
        inversion H; subst. repeat split; auto. discriminate.
      * destruct (H3 eq_refl ltac:(discriminate) eq_refl) as [Ho _].
        rewrite Ho in H. discriminate H.
    + destruct (H2 eq_refl eq_refl) as [Ho _]. rewrite Ho in H. discriminate H.
Qed.

Lemma create_index_raises_only_after_fallback_witness :
  truthy (idx_unique login_index) = true
  /\ tgt_faults rejects_indexes (index_statement "user" login_index) <> None
  /\ tgt_faults rejects_indexes (fallback_index_statement "user" login_index)
     = Some IntegrityError
  /\ t_trace (tgt (snd (Migrator.create_index rejects_indexes "user" ["id"]
                          login_index
                          (new_migrator (source_of "user" user_table)
                             fresh_target))))
     = ([] ++ [index_statement "user" login_index;
               fallback_index_statement "user" login_index])%list.
Proof.
  apply (create_index_raises_only_after_fallback rejects_indexes "user" ["id"]
           login_index
           (new_migrator (source_of "user" user_table) fresh_target)
           IntegrityError).
  vm_compute. reflexivity.
Defined.

(** ** Validator: the Grafana checks *)

(** X7.  The domain checks never raise, in any environment. A check whose
    query is rejected is left out of the result, so the result has one entry
    per accepted query; every entry says pass or warn. Neither the source nor
    the report is touched. *)
Theorem run_grafana_tests_never_raises (env : environment) (st : migrator) :
  exists tests st',
    Validator.run_grafana_tests env st = (Ret tests, st')
    /\ length tests
       = (accepted env (TExecute Validator.admin_query)
          + accepted env (TExecute Validator.dashboard_query))%nat
    /\ Forall (fun t => test_status t = "pass" \/ test_status t = "warn") tests
    /\ src st' = src st /\ rep st' = rep st.
Proof.
  unfold Validator.run_grafana_tests, Validator.grafana_test,
    bind, try_except, lift_tgt, tquery_scalar, bind, tcall_do, ret, accepted.
  destruct (tgt_faults env (TExecute Validator.admin_query)) as [e1|];
    destruct (tgt_faults env (TExecute Validator.dashboard_query)) as [e2|];
    simpl; eexists _, _; (split; [reflexivity|]); simpl;
    (split; [reflexivity|]);
    (split;
     [repeat (apply Forall_cons; [simpl; destruct (Z.ltb _ _); auto|]);
      apply Forall_nil|]); auto.
Qed.

(** ** What a run leaves of the source *)

Section SourceFrame.

Variable R : source -> source -> Prop.
Hypothesis R_refl : forall s, R s s.
Hypothesis R_trans : forall a b c, R a b -> R b c -> R a c.
Hypothesis R_log : forall l m s, R s (add_log l m s).

Lemma frame_execute env s params : respects R (execute env s params).
Proof.
  intros st. destruct (execute_outcome env s params st) as [E|[e E]];
    rewrite E; apply R_refl.
Qed.

Lemma frame_logger l m : respects R (logger l m).
Proof. intros st. apply R_log. Qed.

Lemma frame_query {A} env s params (f : source -> A) :
  respects R (execute env s params ;; gets f).
Proof.
  apply (respects_bind _ _ R_trans); [apply frame_execute|intros _].
  apply (respects_gets _ _ R_refl).
Qed.

Lemma frame_get_indexes env t :
  respects R (DatabaseAnalyzer.get_indexes env t).
Proof.
  unfold DatabaseAnalyzer.get_indexes.
  apply (respects_bind _ _ R_trans); [apply frame_execute|intros _].
  apply (respects_bind _ _ R_trans);
    [apply (respects_gets _ _ R_refl)|intros listed].
  apply (respects_map_m _ _ R_refl R_trans). intros x.
  apply (respects_bind _ _ R_trans); [apply frame_execute|intros _].
  apply (respects_ret _ _ R_refl).
Qed.

Lemma frame_find_duplicates env t cols :
  respects R (DuplicateResolver.find_duplicates env t cols).
Proof.
  unfold DuplicateResolver.find_duplicates.
  destruct cols; [apply (respects_ret _ _ R_refl)|].
  apply (respects_try _ _ R_trans); [apply frame_query|intros _].
  apply (respects_ret _ _ R_refl).
Qed.

Lemma frame_constraint_groups env t :
  respects R (DuplicateResolver.constraint_groups env t).
Proof.
  unfold DuplicateResolver.constraint_groups.
  apply (respects_bind _ _ R_trans); [apply frame_get_indexes|intros ixs].
  destruct (DuplicateResolver.dict_get _ _);
    [|apply (respects_ret _ _ R_refl)].
  apply (respects_bind _ _ R_trans); [apply frame_query|intros schema].
  apply (respects_ret _ _ R_refl).
Qed.

(** The loop of [resolve] over the constraint groups, given what the body
    of its inner loop does. *)
Lemma frame_resolve_index env t strategy idx :
  (forall dupe,
     respects R (DuplicateResolver.resolve_dupe env t strategy idx dupe)) ->
  respects R (DuplicateResolver.resolve_index env t strategy idx).
Proof.
  intros H. unfold DuplicateResolver.resolve_index.
  apply (respects_bind _ _ R_trans); [apply frame_find_duplicates|].
  intros [|d dupes]; [apply (respects_ret _ _ R_refl)|].
  apply (respects_bind _ _ R_trans); [apply frame_logger|intros _].
  apply (respects_for_each _ _ R_refl R_trans). exact H.
Qed.

End SourceFrame.

Lemma only_logged_refl s : only_logged s s.
Proof. repeat split. Qed.

Lemma only_logged_trans a b c :
  only_logged a b -> only_logged b c -> only_logged a c.
Proof.
  unfold only_logged, untouched, same_data.
  intros [[[A1 A2] A3] A4] [[[B1 B2] B3] B4].
  repeat split; congruence.
Qed.

Lemma only_logged_log l m s : only_logged s (add_log l m s).
Proof. repeat split. Qed.

Lemma untouched_refl s : untouched s s.
Proof. repeat split. Qed.

Lemma untouched_trans a b c : untouched a b -> untouched b c -> untouched a c.
Proof.
  unfold untouched, same_data. intros [[A1 A2] A3] [[B1 B2] B3].
  repeat split; congruence.
Qed.

Lemma untouched_log l m s : untouched s (add_log l m s).
Proof. repeat split. Qed.

Lemma same_data_refl s : same_data s s.
Proof. split; reflexivity. Qed.

Lemma same_data_trans a b c : same_data a b -> same_data b c -> same_data a c.
Proof. unfold same_data. intros [A1 A2] [B1 B2]. split; congruence. Qed.

Lemma same_data_log l m s : same_data s (add_log l m s).
Proof. split; reflexivity. Qed.

Lemma same_commits_refl s : same_commits s s.
Proof. reflexivity. Qed.

Lemma same_commits_trans a b c :
  same_commits a b -> same_commits b c -> same_commits a c.
Proof. unfold same_commits. congruence. Qed.

Lemma same_commits_log l m s : same_commits s (add_log l m s).
Proof. reflexivity. Qed.

(** The query that lists the rows to rename has one placeholder more than
    the keeper query and is given the same parameters: when the keeper
    query is accepted, it is not. *)
Lemma keeper_then_rowids_raises env t w vals st :
  fst (execute env (SelectKeeper t w) vals st) = Ret tt ->
  exists e,
    execute env (SelectRowids t (w ++ [CRowidNe])%list) vals st = (Exc e, st).
Proof.
  unfold execute.
  destruct (src_faults env (SelectKeeper t w)); [discriminate|].
  destruct (src_faults env (SelectRowids t _)); [eauto|].
  cbn [stmt_table stmt_columns placeholders].
  rewrite flat_map_app, where_placeholders_app. cbn [flat_map cond_columns].
  rewrite !app_nil_r.
  destruct (s_tables st t) as [tb|]; cbn [negb]; [|discriminate].
  destruct (forallb (has_column tb) (flat_map cond_columns w)); cbn [negb];
    [|discriminate].
  destruct (Nat.eqb_spec (where_placeholders w) (length vals)) as [E|_];
    cbn [negb]; [intros _|discriminate].
  change (where_placeholders [CRowidNe]) with 1%nat.
  destruct (Nat.eqb_spec (where_placeholders w + 1) (length vals)) as [E'|_];
    [lia|]. cbn [negb]. eauto.
Qed.

Lemma resolve_dupe_body_other env t strategy idx w vals :
  strategy <> "remove" ->
  respects only_logged
    (DuplicateResolver.resolve_dupe_body env t strategy idx w vals).
Proof.
  intros Hs st. unfold DuplicateResolver.resolve_dupe_body, select_keeper.
  unfold bind at 1 2.
  pose proof (keeper_then_rowids_raises env t w vals st) as K.
  destruct (execute_outcome env (SelectKeeper t w) vals st) as [E|[e E]];
    rewrite E in *; [|apply only_logged_refl].
  unfold gets.
  destruct (least _) as [keep_id|]; [|apply only_logged_refl].
  apply String.eqb_neq in Hs. rewrite Hs.
  destruct (String.eqb strategy "rename"); [|apply only_logged_refl].
  destruct (K eq_refl) as [e Ee].
  unfold select_rowids, bind. rewrite Ee. apply only_logged_refl.
Qed.

Lemma resolve_dupe_other env t strategy idx dupe :
  strategy <> "remove" ->
  respects only_logged (DuplicateResolver.resolve_dupe env t strategy idx dupe).
Proof.
  intros Hs. unfold DuplicateResolver.resolve_dupe.
  apply (respects_try _ _ only_logged_trans).
  - apply resolve_dupe_body_other. exact Hs.
  - intros e st. apply only_logged_log.
Qed.

Lemma resolve_loop_other env t strategy groups :
  strategy <> "remove" ->
  respects only_logged
    (for_each groups (DuplicateResolver.resolve_index env t strategy)).
Proof.
  intros Hs.
  apply (respects_for_each _ _ only_logged_refl only_logged_trans). intros idx.
  apply (frame_resolve_index _ only_logged_refl only_logged_trans
           only_logged_log).
  intros dupe. apply resolve_dupe_other. exact Hs.
Qed.

Lemma resolve_other_outcome env table_name strategy st :
  strategy <> "remove" ->
  exists o st',
    DuplicateResolver.resolve env table_name strategy st = (o, st') /\
    untouched st st' /\ (o = Ret [] \/ exists e, o = Exc e).
Proof.
  intros Hs. unfold DuplicateResolver.resolve.
  pose proof (frame_constraint_groups _ untouched_refl untouched_trans
                env table_name st) as G.
  unfold bind at 1.
  destruct (DuplicateResolver.constraint_groups env table_name st)
    as [[groups|e] st1]; simpl in G;
    [|eexists; eexists; split; [reflexivity|split; [exact G|eauto]]].
  unfold bind at 1. unfold modify at 1.
  pose proof (resolve_loop_other env table_name strategy groups Hs
                (set_resolutions [] st1)) as L.
  unfold bind at 1.
  destruct (for_each groups _ (set_resolutions [] st1)) as [[[]|e] st2];
    simpl in L; destruct L as [L1 L2]; simpl in L2.
  - unfold bind, gets. rewrite L2. simpl.
    eexists; eexists; split; [reflexivity|]. split; [|left; reflexivity].
    eapply untouched_trans; [exact G|].
    eapply untouched_trans; [|exact L1]. repeat split.
  - eexists; eexists; split; [reflexivity|]. split; [|eauto].
    eapply untouched_trans; [exact G|].
    eapply untouched_trans; [|exact L1]. repeat split.
Qed.

(** X8.  Only the remove strategy writes to the source.  With any other
    strategy name, [resolve] leaves every table as it was and commits
    nothing, whatever the environment does; it returns the empty list or
    raises.  The rename strategy is no exception: its second query is
    always refused. *)
Theorem resolve_writes_only_when_removing env table_name strategy st :
  strategy <> "remove" ->
  let r := DuplicateResolver.resolve env table_name strategy st in
  untouched st (snd r) /\ (fst r = Ret [] \/ exists e, fst r = Exc e).
Proof.
  intros Hs.
  destruct (resolve_other_outcome env table_name strategy st Hs)
    as (o & st' & E & H).
  cbv zeta. rewrite E. exact H.
Qed.

Lemma resolve_writes_only_when_removing_witness :
  "rename" <> "remove" /\
  let r := DuplicateResolver.resolve calm "user" "rename"
             (source_of "user" user_table) in
  untouched (source_of "user" user_table) (snd r) /\
  (fst r = Ret [] \/ exists e, fst r = Exc e).
Proof.
  split; [discriminate|].
  apply (resolve_writes_only_when_removing calm "user" "rename"
           (source_of "user" user_table)).
  discriminate.
Defined.

(** ** The commit on the source *)

Lemma same_commits_write env s params (f : source -> source) :
  (forall st, s_commits (f st) = s_commits st) ->
  respects same_commits (execute env s params ;; modify f).
Proof.
  intros H st. unfold bind, modify.
  destruct (execute_outcome env s params st) as [E|[e E]]; rewrite E;
    [apply H|reflexivity].
Qed.

Lemma same_commits_delete_where env t w params :
  respects same_commits (delete_where env t w params).
Proof.
  intros st. unfold delete_where, bind.
  destruct (execute_outcome env (DeleteWhere t w) params st) as [E|[e E]];
    rewrite E; reflexivity.
Qed.

Lemma same_commits_append r :
  respects same_commits (DuplicateResolver.append_resolution r).
Proof. intros st. reflexivity. Qed.

Lemma same_commits_rename_one env t idx i_rid :
  respects same_commits (DuplicateResolver.rename_one env t idx i_rid).
Proof.
  unfold DuplicateResolver.rename_one. destruct i_rid as [i rid].
  destruct (idx_columns idx) as [|c cs];
    [apply (respects_raise _ _ same_commits_refl)|].
  apply (respects_bind _ _ same_commits_trans).
  - apply (frame_query _ same_commits_refl same_commits_trans).
  - intros [orig|]; [|apply (respects_raise _ _ same_commits_refl)].
    apply (respects_bind _ _ same_commits_trans);
      [|intros _; apply same_commits_append].
    apply same_commits_write. reflexivity.
Qed.

Lemma same_commits_resolve_dupe env t strategy idx dupe :
  respects same_commits
    (DuplicateResolver.resolve_dupe env t strategy idx dupe).
Proof.
  unfold DuplicateResolver.resolve_dupe, DuplicateResolver.resolve_dupe_body.
  apply (respects_try _ _ same_commits_trans);
    [|intros e st; apply same_commits_log].
  apply (respects_bind _ _ same_commits_trans).
  - apply (frame_query _ same_commits_refl same_commits_trans).
  - intros [keep_id|]; [|apply (respects_ret _ _ same_commits_refl)].
    destruct (String.eqb strategy "remove").
    + apply (respects_bind _ _ same_commits_trans);
        [apply same_commits_delete_where|intros n].
      apply (respects_bind _ _ same_commits_trans);
        [intros st; apply same_commits_log|intros _].
      apply same_commits_append.
    + destruct (String.eqb strategy "rename");
        [|apply (respects_ret _ _ same_commits_refl)].
      apply (respects_bind _ _ same_commits_trans).
      * apply (frame_query _ same_commits_refl same_commits_trans).
      * intros ids.
        apply (respects_for_each _ _ same_commits_refl same_commits_trans).
        intros x. apply same_commits_rename_one.
Qed.

Lemma resolve_commit_outcome env table_name strategy st :
  exists o st',
    DuplicateResolver.resolve env table_name strategy st = (o, st') /\
    s_commits st'
    = (s_commits st + match o with Ret (_ :: _) => 1 | _ => 0 end)%nat.
Proof.
  unfold DuplicateResolver.resolve.
  pose proof (frame_constraint_groups _ same_commits_refl same_commits_trans
                env table_name st) as G.
  unfold bind at 1.
  destruct (DuplicateResolver.constraint_groups env table_name st)
    as [[groups|e] st1]; unfold same_commits in G; simpl in G;
    [|eexists; eexists; split; [reflexivity|simpl; lia]].
  unfold bind at 1. unfold modify at 1.
  assert (L : respects same_commits
                (for_each groups
                   (DuplicateResolver.resolve_index env table_name strategy))).
  { apply (respects_for_each _ _ same_commits_refl same_commits_trans).
    intros idx.
    apply (frame_resolve_index _ same_commits_refl same_commits_trans
             same_commits_log).
    intros dupe. apply same_commits_resolve_dupe. }
  specialize (L (set_resolutions [] st1)).
  unfold bind at 1.
  destruct (for_each groups _ (set_resolutions [] st1)) as [[[]|e] st2];
    unfold same_commits in L; simpl in L;
    [|eexists; eexists; split; [reflexivity|simpl; lia]].
  unfold bind at 1. unfold gets at 1.
  destruct (s_resolutions st2) as [|r rs] eqn:Er.
  - eexists; eexists; split; [reflexivity|]. simpl. lia.
  - unfold bind, conn_commit, bind, modify.
    destruct (execute_outcome env Commit [] st2) as [E|[e E]]; rewrite E.
    + eexists; eexists; split; [reflexivity|]. simpl. lia.
    + eexists; eexists; split; [reflexivity|]. simpl. lia.
Qed.

(** X9.  [resolve] commits on the source exactly when it returns a list
    that is not empty, and then once: a call that found nothing to
    resolve, or that raised, leaves the number of commits as it was. *)
Theorem resolve_commits_when_it_resolved env table_name strategy st :
  let r := DuplicateResolver.resolve env table_name strategy st in
  s_commits (snd r)
  = (s_commits st + match fst r with Ret (_ :: _) => 1 | _ => 0 end)%nat.
Proof.
  destruct (resolve_commit_outcome env table_name strategy st)
    as (o & st' & E & H).
  cbv zeta. rewrite E. exact H.
Qed.

(** ** The source during a run *)

Section EngineFrame.

Context {Rep : Type}.
Variable R : source -> source -> Prop.
Hypothesis R_refl : forall s, R s s.
Hypothesis R_trans : forall a b c, R a b -> R b c -> R a c.

Lemma on_src_refl (s : engine Rep) : on_src R s s.
Proof. apply R_refl. Qed.

Lemma on_src_trans (a b c : engine Rep) :
  on_src R a b -> on_src R b c -> on_src R a c.
Proof. apply R_trans. Qed.

Lemma frame_lift_src {A} (m : M source A) :
  respects R m -> respects (on_src R) (@lift_src Rep A m).
Proof.
  intros H st. unfold on_src, lift_src. specialize (H (src st)).
  destruct (m (src st)). exact H.
Qed.

Lemma frame_lift_tgt {A} (m : M target A) :
  respects (on_src R) (@lift_tgt Rep A m).
Proof.
  intros st. unfold on_src, lift_tgt. destruct (m (tgt st)). apply R_refl.
Qed.

Lemma frame_update_report (f : Rep -> Rep) :
  respects (on_src R) (update_report f).
Proof. intros st. apply R_refl. Qed.

End EngineFrame.

Ltac frame_step Hr Ht Hl :=
  first
    [ apply (respects_ret _ _ (on_src_refl _ Hr))
    | apply (respects_raise _ _ (on_src_refl _ Hr))
    | apply (frame_lift_tgt _ Hr)
    | apply (frame_update_report _ Hr)
    | apply frame_lift_src;
      first [ apply (frame_query _ Hr Ht)
            | apply (frame_get_indexes _ Hr Ht)
            | apply (frame_logger _ Hl)
            | apply (respects_gets _ _ Hr) ]
    | apply (respects_bind _ _ (on_src_trans _ Ht)); [|intros ?]
    | apply (respects_try _ _ (on_src_trans _ Ht)); [|intros ?]
    | apply (respects_for_each _ _ (on_src_refl _ Hr) (on_src_trans _ Ht));
      intros ?
    | apply (respects_map_m _ _ (on_src_refl _ Hr) (on_src_trans _ Ht));
      intros ? ].

Ltac frame_case :=
  match goal with
  | |- respects _ (match ?x with _ => _ end) => destruct x
  end.

Section RunFrame.

Variable R : source -> source -> Prop.
Hypothesis R_refl : forall s, R s s.
Hypothesis R_trans : forall a b c, R a b -> R b c -> R a c.
Hypothesis R_log : forall l m s, R s (add_log l m s).

Lemma frame_create_mysql_schema env t :
  respects (on_src R) (Migrator.create_mysql_schema env t).
Proof.
  unfold Migrator.create_mysql_schema, DatabaseAnalyzer.get_table_schema.
  repeat frame_step R_refl R_trans R_log.
  unfold Migrator.create_index.
  destruct (_ && _); repeat frame_step R_refl R_trans R_log.
  destruct (truthy _); repeat frame_step R_refl R_trans R_log.
Qed.

Lemma frame_migrate_data env t :
  respects (on_src R) (Migrator.migrate_data env t).
Proof.
  unfold Migrator.migrate_data, select_all.
  frame_step R_refl R_trans R_log; [frame_step R_refl R_trans R_log|].
  frame_case; repeat frame_step R_refl R_trans R_log.
Qed.

Lemma frame_migration_phase env tables :
  respects (on_src R) (Migrator.migration_phase env tables).
Proof.
  unfold Migrator.migration_phase.
  frame_step R_refl R_trans R_log.
  frame_step R_refl R_trans R_log; [apply frame_create_mysql_schema|].
  frame_step R_refl R_trans R_log; [apply frame_migrate_data|].
  frame_step R_refl R_trans R_log.
Qed.

Lemma frame_set_table_validation t v :
  respects (on_src R) (set_table_validation t v).
Proof.
  intros st. unfold set_table_validation, on_src.
  destruct (DuplicateResolver.dict_get _ _); apply R_refl.
Qed.

Lemma frame_validation_phase env tables :
  respects (on_src R) (Migrator.validation_phase env tables).
Proof.
  unfold Migrator.validation_phase, Migrator.validate_table,
    Validator.validate_counts, Validator.run_grafana_tests,
    Validator.grafana_test, select_count, tquery_scalar.
  repeat frame_step R_refl R_trans R_log.
  destruct (negb _); repeat frame_step R_refl R_trans R_log;
    apply frame_set_table_validation.
Qed.

Lemma frame_rollback_and_fail env e :
  respects (on_src R) (Migrator.rollback_and_fail env e).
Proof.
  unfold Migrator.rollback_and_fail. repeat frame_step R_refl R_trans R_log.
Qed.

Lemma frame_run env opts :
  (forall tables,
     respects (on_src R) (Migrator.resolution_phase env opts tables)) ->
  respects (on_src R) (Migrator.run env opts).
Proof.
  intros H. unfold Migrator.run, Migrator.run_body, DatabaseAnalyzer.get_tables.
  frame_step R_refl R_trans R_log; [frame_step R_refl R_trans R_log|].
  frame_step R_refl R_trans R_log; [|apply frame_rollback_and_fail].
  frame_step R_refl R_trans R_log; [apply H|].
  frame_step R_refl R_trans R_log; [apply frame_migration_phase|].
  frame_step R_refl R_trans R_log; [apply frame_validation_phase|].
  repeat frame_step R_refl R_trans R_log.
Qed.

(** The second entry point. *)

Lemma frame_backend_migration env opts tables :
  respects (on_src R) (Backend.migration_phase env opts tables).
Proof.
  unfold Backend.migration_phase, Backend.migrate_table, Backend.log,
    DatabaseAnalyzer.get_table_schema, select_all.
  repeat frame_step R_refl R_trans R_log.
  destruct (Backend.include_data opts); repeat frame_step R_refl R_trans R_log.
  frame_case; repeat frame_step R_refl R_trans R_log.
Qed.

Lemma frame_backend_validation env tables :
  respects (on_src R) (Backend.validation_phase env tables).
Proof.
  unfold Backend.validation_phase, Backend.validate_table, Backend.log,
    select_count, tquery_scalar.
  repeat frame_step R_refl R_trans R_log.
  - destruct (negb _); repeat frame_step R_refl R_trans R_log.
  - destruct (concat _); repeat frame_step R_refl R_trans R_log.
Qed.

Lemma frame_backend_task env opts :
  (forall tables,
     respects (on_src R) (Backend.resolution_phase env opts tables)) ->
  respects (on_src R) (Backend.run_migration_task env opts).
Proof.
  intros H. unfold Backend.run_migration_task, Backend.task_body,
    Backend.rollback_and_fail, Backend.log, DatabaseAnalyzer.get_tables.
  frame_step R_refl R_trans R_log; [frame_step R_refl R_trans R_log|].
  frame_step R_refl R_trans R_log;
    [|repeat frame_step R_refl R_trans R_log].
  frame_step R_refl R_trans R_log; [frame_step R_refl R_trans R_log|].
  frame_step R_refl R_trans R_log; [apply H|].
  frame_step R_refl R_trans R_log; [apply frame_backend_migration|].
  frame_step R_refl R_trans R_log; [frame_step R_refl R_trans R_log|].
  frame_step R_refl R_trans R_log; [apply frame_backend_validation|].
  repeat frame_step R_refl R_trans R_log.
Qed.

End RunFrame.

Lemma resolution_phase_untouched env opts tables :
  resolve_duplicates opts = false \/ duplicate_strategy opts <> "remove" ->
  respects (on_src untouched) (Migrator.resolution_phase env opts tables).
Proof.
  intros H. unfold Migrator.resolution_phase.
  destruct (resolve_duplicates opts);
    [|apply (respects_ret _ _ (on_src_refl _ untouched_refl))].
  destruct H as [H|H]; [discriminate|].
  apply (respects_for_each _ _ (on_src_refl _ untouched_refl)
           (on_src_trans _ untouched_trans)).
  intros t.
  apply (respects_bind _ _ (on_src_trans _ untouched_trans));
    [|intros rs; apply (frame_update_report _ untouched_refl)].
  apply frame_lift_src. intros st.
  destruct (resolve_other_outcome env t (duplicate_strategy opts) st H)
    as (o & st' & E & U & _).
  rewrite E. exact U.
Qed.

(** X10.  [Migrator.run] writes to the source only when it is asked to
    resolve duplicates with the remove strategy: otherwise the table list,
    every table and the number of commits on the source are, after the run,
    what they were before it, whether the run completes or fails. *)
Theorem run_writes_source_only_when_removing env opts st :
  resolve_duplicates opts = false \/ duplicate_strategy opts <> "remove" ->
  untouched (src st) (src (snd (Migrator.run env opts st))).
Proof.
  intros H.
  apply (frame_run _ untouched_refl untouched_trans untouched_log env opts).
  intros tables. apply resolution_phase_untouched. exact H.
Qed.

Lemma run_writes_source_only_when_removing_witness :
  (resolve_duplicates without_resolution = false \/
   duplicate_strategy without_resolution <> "remove") /\
  untouched (source_of "user" user_table)
    (src (snd (Migrator.run calm without_resolution
                 (new_migrator (source_of "user" user_table) fresh_target)))).
Proof.
  split; [left; reflexivity|].
  apply (run_writes_source_only_when_removing calm without_resolution
           (new_migrator (source_of "user" user_table) fresh_target)).
  left. reflexivity.
Defined.

Lemma same_data_commit env :
  respects same_data (conn_commit env).
Proof.
  intros st. unfold conn_commit, bind, modify.
  destruct (execute_outcome env Commit [] st) as [E|[e E]]; rewrite E;
    split; reflexivity.
Qed.

Lemma backend_resolution_same_data env opts tables :
  Backend.b_resolve_duplicates opts = false \/
  Backend.b_duplicate_strategy opts <> "remove" ->
  respects (on_src same_data) (Backend.resolution_phase env opts tables).
Proof.
  intros H. unfold Backend.resolution_phase.
  destruct (Backend.b_resolve_duplicates opts);
    [|apply (respects_ret _ _ (on_src_refl _ same_data_refl))].
  destruct H as [H|H]; [discriminate|].
  apply String.eqb_neq in H.
  unfold Backend.log.
  frame_step same_data_refl same_data_trans same_data_log;
    [frame_step same_data_refl same_data_trans same_data_log|].
  frame_step same_data_refl same_data_trans same_data_log;
    [|apply frame_lift_src, same_data_commit].
  frame_step same_data_refl same_data_trans same_data_log.
  unfold Backend.resolve_table, DatabaseAnalyzer.get_table_schema.
  destruct (DuplicateResolver.dict_get _ _);
    repeat frame_step same_data_refl same_data_trans same_data_log.
  unfold Backend.resolve_group, select_duplicates.
  destruct (Nat.eqb _ _);
    repeat frame_step same_data_refl same_data_trans same_data_log.
  unfold Backend.resolve_dupe, select_keeper. rewrite H.
  frame_case; repeat frame_step same_data_refl same_data_trans same_data_log.
Qed.

(** X11.  The task of the web backend removes rows from the source only
    when duplicate resolution is on and the strategy is remove: with any
    other strategy name, rename included, it looks the duplicates up and
    leaves every table as it was.  (It still commits on the source.) *)
Theorem task_writes_source_only_when_removing env opts st :
  Backend.b_resolve_duplicates opts = false \/
  Backend.b_duplicate_strategy opts <> "remove" ->
  same_data (src st) (src (snd (Backend.run_migration_task env opts st))).
Proof.
  intros H.
  apply (frame_backend_task _ same_data_refl same_data_trans env opts).
  intros tables. apply backend_resolution_same_data. exact H.
Qed.

Lemma task_writes_source_only_when_removing_witness :
  (Backend.b_resolve_duplicates
     {| Backend.include_data := true;
        Backend.b_resolve_duplicates := true;
        Backend.b_duplicate_strategy := "rename" |} = false \/
   Backend.b_duplicate_strategy
     {| Backend.include_data := true;
        Backend.b_resolve_duplicates := true;
        Backend.b_duplicate_strategy := "rename" |} <> "remove") /\
  same_data (source_of "user" user_table)
    (src (snd (Backend.run_migration_task calm
                 {| Backend.include_data := true;
                    Backend.b_resolve_duplicates := true;
                    Backend.b_duplicate_strategy := "rename" |}
                 (Backend.new_task (source_of "user" user_table)
                    fresh_target)))).
Proof.
  split; [right; discriminate|].
  apply (task_writes_source_only_when_removing calm
           {| Backend.include_data := true;
              Backend.b_resolve_duplicates := true;
              Backend.b_duplicate_strategy := "rename" |}
           (Backend.new_task (source_of "user" user_table) fresh_target)).
  right. discriminate.
Defined.

(** ** The WHERE clause of a duplicate group *)

(** X12.  For a tuple of the grouping query (a key of as many values as the
    group has columns, followed by the count) the WHERE clause and the
    parameter list [resolve] builds have as many placeholders as
    parameters; the clause holds of exactly the rows whose key is the
    tuple's, a NULL of the key matching a NULL of the row; and the clause of
    the DELETE holds of those among them whose rowid, as the statement
    reads that word on the table, is not NULL and differs from the value
    bound for the keeper. *)
Theorem duplicate_where_selects_its_group tb cols k count keep_id r :
  length k = length cols ->
  let w := DuplicateResolver.cols_vals_of cols (k ++ [count]) in
  let vals := DuplicateResolver.vals_of (k ++ [count]) in
  where_placeholders w = length vals /\
  eval_where tb w vals r = key_eqb (key_of tb cols r) k /\
  eval_where tb (w ++ [CRowidNe]) (vals ++ [keep_id]) r
  = key_eqb (key_of tb cols r) k && sql_ne (rowid_value tb r) keep_id.
Proof.
  intros Hk. cbv zeta. rewrite vals_of_dupe.
  unfold DuplicateResolver.cols_vals_of.
  split; [exact (cols_vals_arity cols [] k [count] Hk)|]. split.
  - pose proof (eval_where_cols_vals tb r [] [] cols [] k [count] Hk) as H.
    rewrite !app_nil_r in H. simpl in H. simpl. rewrite H.
    apply andb_true_r.
  - pose proof (eval_where_cols_vals tb r [CRowidNe] [keep_id] cols []
                  k [count] Hk) as H.
    cbn [app length] in H. rewrite H. cbn [eval_where].
    rewrite andb_true_r. reflexivity.
Qed.

Lemma duplicate_where_selects_its_group_witness :
  length [VText "admin"; VNull] = length ["login"; "email"] /\
  let w := DuplicateResolver.cols_vals_of ["login"; "email"]
             [VText "admin"; VNull; VInt 2] in
  let vals := DuplicateResolver.vals_of [VText "admin"; VNull; VInt 2] in
  where_placeholders w = length vals /\
  eval_where user_table w vals (user_row 1 "admin" "a@x" 1)
  = key_eqb (key_of user_table ["login"; "email"]
               (user_row 1 "admin" "a@x" 1)) [VText "admin"; VNull] /\
  eval_where user_table (w ++ [CRowidNe]) (vals ++ [VInt 1])
    (user_row 1 "admin" "a@x" 1)
  = key_eqb (key_of user_table ["login"; "email"]
               (user_row 1 "admin" "a@x" 1)) [VText "admin"; VNull]
    && sql_ne (rowid_value user_table (user_row 1 "admin" "a@x" 1)) (VInt 1).
Proof.
  split; [reflexivity|].
  apply (duplicate_where_selects_its_group user_table ["login"; "email"]
           [VText "admin"; VNull] (VInt 2) (VInt 1)
           (user_row 1 "admin" "a@x" 1)).
  reflexivity.
Defined.

(** ** The constraint groups [resolve] checks *)

Lemma str_in_In c l : In c l -> DuplicateResolver.str_in c l = true.
Proof.
  intros H. unfold DuplicateResolver.str_in. apply existsb_exists.
  exists c. split; [exact H|apply String.eqb_refl].
Qed.

Lemma set_eq_refl l : DuplicateResolver.set_eq l l = true.
Proof.
  unfold DuplicateResolver.set_eq.
  assert (H : forallb (fun c => DuplicateResolver.str_in c l) l = true)
    by (apply forallb_forall; intros c; apply str_in_In).
  rewrite H. reflexivity.
Qed.

Lemma checked_app a b cols :
  checked (a ++ b) cols = checked a cols || checked b cols.
Proof. apply existsb_app. Qed.

(** One iteration: the list is kept and at most one group appended, on the
    columns of [check_cols], all of which exist; and then a group on these
    columns is in the list whenever they all exist. *)
Lemma add_pseudo_index_step existing acc check_cols :
  exists added,
    DuplicateResolver.add_pseudo_index existing acc check_cols
    = (acc ++ added)%list /\
    Forall (fun idx => idx_columns idx = check_cols /\
                       all_exist existing check_cols = true /\
                       idx_unique idx = 1 /\
                       checked acc check_cols = false) added /\
    implb (all_exist existing check_cols)
      (checked (acc ++ added) check_cols) = true.
Proof.
  unfold DuplicateResolver.add_pseudo_index.
  set (valid := filter (fun c => DuplicateResolver.str_in c existing)
                  check_cols).
  destruct (Nat.eqb_spec (length valid) (length check_cols)) as [E|N].
  - assert (V : valid = check_cols) by (apply filter_length_all; exact E).
    assert (X : all_exist existing check_cols = true).
    { unfold all_exist. apply forallb_forall. intros c Hc.
      rewrite <- V in Hc. apply filter_In in Hc. tauto. }
    rewrite V. fold (checked acc check_cols).
    destruct (checked acc check_cols) eqn:C; cbn [negb].
    + exists []. rewrite app_nil_r, C, X. repeat split. constructor.
    + eexists. split; [reflexivity|]. split.
      * constructor; [|constructor]. simpl. auto.
      * rewrite X, checked_app. simpl. rewrite set_eq_refl.
        rewrite orb_true_r. reflexivity.
  - exists []. rewrite app_nil_r. split; [reflexivity|].
    split; [constructor|].
    destruct (all_exist existing check_cols) eqn:X; [|reflexivity].
    exfalso. apply N. unfold valid. f_equal. apply filter_all.
    intros c Hc. unfold all_exist in X.
    rewrite forallb_forall in X. auto.
Qed.

Lemma pseudo_indexes_fold existing groups : forall acc,
  exists pseudo,
    fold_left (DuplicateResolver.add_pseudo_index existing) groups acc
    = (acc ++ pseudo)%list /\
    Forall (fun idx => In (idx_columns idx) groups /\
                       all_exist existing (idx_columns idx) = true /\
                       idx_unique idx = 1 /\
                       checked acc (idx_columns idx) = false) pseudo /\
    Forall (fun check_cols =>
              implb (all_exist existing check_cols)
                (checked (acc ++ pseudo) check_cols) = true) groups.
Proof.
  induction groups as [|g groups IH]; intros acc; simpl.
  - exists []. rewrite app_nil_r. repeat split; constructor.
  - destruct (add_pseudo_index_step existing acc g)
      as (added & E & Ha & Hg).
    rewrite E.
    destruct (IH (acc ++ added)%list) as (pseudo & E' & Hp & Hc).
    exists (added ++ pseudo)%list. rewrite app_assoc. split; [exact E'|].
    split; [|constructor].
    + apply Forall_app. split.
      * eapply Forall_impl; [|exact Ha]. simpl.
        intros idx (-> & X & U & C). auto.
      * eapply Forall_impl; [|exact Hp]. simpl.
        intros idx (I & X & U & C). rewrite checked_app in C.
        apply orb_false_iff in C. tauto.
    + rewrite checked_app.
      destruct (all_exist existing g); [|reflexivity].
      simpl in Hg. rewrite Hg. reflexivity.
    + exact Hc.
Qed.

(** X13.  The supplementary Grafana groups are added to the unique indexes
    of a table, never in place of one: the list [resolve] iterates over is
    the unique indexes followed by pseudo-indexes.  Each pseudo-index is on
    the columns of a supplementary group, all of which exist in the table,
    and that no unique index covers; and every supplementary group whose
    columns all exist is checked, through an index or a pseudo-index. *)
Theorem pseudo_indexes_complete_the_unique_ones
  existing groups unique_indexes :
  let checked_groups :=
    fold_left (DuplicateResolver.add_pseudo_index existing) groups
      unique_indexes in
  exists pseudo,
    checked_groups = (unique_indexes ++ pseudo)%list /\
    Forall (fun idx => In (idx_columns idx) groups /\
                       all_exist existing (idx_columns idx) = true /\
                       idx_unique idx = 1 /\
                       checked unique_indexes (idx_columns idx) = false)
      pseudo /\
    Forall (fun check_cols =>
              implb (all_exist existing check_cols)
                (checked checked_groups check_cols) = true) groups.
Proof.
  cbv zeta.
  destruct (pseudo_indexes_fold existing groups unique_indexes)
    as (pseudo & E & Hp & Hc).
  exists pseudo. rewrite E. auto.
Qed.

(** ** The literals of the SQL export *)

Lemma str_length_append (a b : string) :
  String.length (a ++ b) = (String.length a + String.length b)%nat.
Proof. induction a as [|c a IH]; simpl; [reflexivity|]. rewrite IH. lia. Qed.

Lemma append_cancel_r (t : string) : forall a b : string,
  a ++ t = b ++ t -> a = b.
Proof.
  induction a as [|c a IH]; intros [|c' b] H; simpl in H.
  - reflexivity.
  - apply (f_equal String.length) in H. simpl in H.
    rewrite str_length_append in H. lia.
  - apply (f_equal String.length) in H. simpl in H.
    rewrite str_length_append in H. lia.
  - injection H as -> H. f_equal. apply IH. exact H.
Qed.

Lemma double_quotes_inj : forall s1 s2,
  ExportSql.double_quotes s1 = ExportSql.double_quotes s2 -> s1 = s2.
Proof.
  induction s1 as [|a s1 IH]; intros [|c s2]; simpl.
  - reflexivity.
  - destruct (Ascii.eqb c "'"); discriminate.
  - destruct (Ascii.eqb a "'"); discriminate.
  - destruct (Ascii.eqb_spec a "'") as [->|Na];
      destruct (Ascii.eqb_spec c "'") as [->|Nc]; intros H.
    + injection H as H. f_equal. apply IH. exact H.
    + injection H as H1 H2. congruence.
    + injection H as H1 H2. congruence.
    + injection H as -> H. f_equal. apply IH. exact H.
Qed.

Lemma to_int_parses z :
  NilZero.int_of_string (str_of_Z z) = Some (Z.to_int z).
Proof.
  unfold str_of_Z. apply NilZero.isi; destruct z; simpl; intros E;
    try discriminate; injection E;
    apply DecimalPos.Unsigned.to_uint_nonnil.
Qed.

Lemma str_of_Z_inj a b : str_of_Z a = str_of_Z b -> a = b.
Proof.
  intros H. apply DecimalZ.to_int_inj.
  pose proof (to_int_parses a) as Ia. rewrite H, to_int_parses in Ia.
  congruence.
Qed.

Lemma quoted_is_no_number s : NilZero.int_of_string ("'" ++ s) = None.
Proof.
  simpl. destruct (NilEmpty.uint_of_string s); reflexivity.
Qed.

(** X14.  In the exported INSERT lines two values are written alike only
    when they are the same value: NULL, an integer and a text never share
    a literal (the text NULL is written between quotes), two integers
    differ in their digits, and doubling the quotes of a text loses
    nothing. *)
Theorem export_literal_injective v1 v2 :
  ExportSql.literal v1 = ExportSql.literal v2 -> v1 = v2.
Proof.
  destruct v1 as [|a|s1], v2 as [|b|s2]; unfold ExportSql.literal; intros H;
    try reflexivity; try discriminate.
  - pose proof (to_int_parses b) as P. rewrite <- H in P. discriminate P.
  - pose proof (to_int_parses a) as P. rewrite H in P. discriminate P.
  - f_equal. apply str_of_Z_inj. exact H.
  - pose proof (to_int_parses a) as P. rewrite H, quoted_is_no_number in P.
    discriminate P.
  - pose proof (to_int_parses b) as P.
    rewrite <- H, quoted_is_no_number in P. discriminate P.
  - injection H as H. apply append_cancel_r in H.
    f_equal. apply double_quotes_inj. exact H.
Qed.

Lemma export_literal_injective_witness :
  ExportSql.literal (VText "O'Neil") = ExportSql.literal (VText "O'Neil")
  /\ VText "O'Neil" = VText "O'Neil".
Proof.
  split; [reflexivity|].
  apply (export_literal_injective (VText "O'Neil") (VText "O'Neil")).
  reflexivity.
Defined.

(** ** Default values *)

(** X15.  A default value that starts with a minus sign is not carried to
    the target: it is not CURRENT_TIMESTAMP, not a quoted text and not a
    sequence of digits, so the column is created without a DEFAULT
    clause. *)
Theorem negative_default_is_dropped col d :
  col_dflt_value col = Some d -> prefix "-" d = true ->
  Migrator.default_str col = "".
Proof.
  intros Hd Hp. apply prefix_iff in Hp. destruct Hp as [post ->].
  unfold Migrator.default_str. rewrite Hd. reflexivity.
Qed.

Lemma negative_default_is_dropped_witness :
  let col := {| col_cid := 0; col_name := "delta"; col_type := "INTEGER";
                col_notnull := 1; col_dflt_value := Some "-1";
                col_pk := 0 |} in
  col_dflt_value col = Some "-1" /\ prefix "-" "-1" = true /\
  Migrator.default_str col = "".
Proof.
  cbv zeta. split; [reflexivity|]. split; [reflexivity|].
  apply (negative_default_is_dropped _ "-1"); reflexivity.
Defined.

(** ** The PRIMARY KEY clause of the backend *)

Lemma contains_skip key a s :
  contains key s = true -> contains key (a ++ s) = true.
Proof.
  rewrite !contains_iff. intros (pre & post & ->).
  exists (a ++ pre), post. rewrite str_append_assoc. reflexivity.
Qed.

Lemma contains_keep key s b :
  contains key s = true -> contains key (s ++ b) = true.
Proof.
  rewrite !contains_iff. intros (pre & post & ->).
  exists pre, (post ++ b). rewrite !str_append_assoc. reflexivity.
Qed.

Lemma contains_self key : contains key key = true.
Proof.
  apply contains_iff. exists "", "". simpl.
  induction key as [|c key IH]; simpl; [reflexivity|]. f_equal. exact IH.
Qed.

Lemma backend_pk_cols_doubled cols :
  map Migrator.backquote (Backend.pk_cols_of cols)
  = map (fun col => "``" ++ col_name col ++ "``")
      (filter (fun col => truthy (col_pk col)) cols).
Proof.
  unfold Backend.pk_cols_of. rewrite map_map. apply map_ext. intros col.
  unfold Migrator.backquote. simpl. rewrite str_append_assoc. reflexivity.
Qed.

Lemma backend_pk_clause cols tail :
  filter (fun col => truthy (col_pk col)) cols <> [] ->
  contains (doubled_pk_clause cols)
    (match Backend.pk_cols_of cols with
     | [] => ""
     | _ => "," ++ Migrator.newline ++ "  PRIMARY KEY ("
              ++ join ", " (map Migrator.backquote (Backend.pk_cols_of cols))
              ++ ")"
     end ++ tail) = true.
Proof.
  intros H. apply contains_keep. rewrite backend_pk_cols_doubled.
  unfold Backend.pk_cols_of.
  destruct (filter (fun col => truthy (col_pk col)) cols) as [|c l] eqn:E;
    [contradiction|].
  cbn [map]. apply contains_skip, contains_skip.
  apply (contains_skip _ "  "). unfold doubled_pk_clause. rewrite E.
  apply contains_self.
Qed.

(** X16.  In the backend the PRIMARY KEY clause names every key column
    between two pairs of backquotes: the names are quoted when they are
    collected and once more when the clause is written.  This holds of the
    CREATE TABLE statement the migration task sends and of the one the SQL
    export writes. *)
Theorem backend_primary_key_is_quoted_twice table cols :
  filter (fun col => truthy (col_pk col)) cols <> [] ->
  contains (doubled_pk_clause cols) (Backend.create_query table cols) = true
  /\ contains (doubled_pk_clause cols) (ExportSql.create_text table cols)
     = true.
Proof.
  intros H. split.
  - unfold Backend.create_query. cbv zeta.
    do 6 apply contains_skip. apply backend_pk_clause. exact H.
  - unfold ExportSql.create_text. cbv zeta.
    do 10 apply contains_skip. apply backend_pk_clause. exact H.
Qed.

Lemma backend_primary_key_is_quoted_twice_witness :
  filter (fun col => truthy (col_pk col)) user_columns <> [] /\
  contains "PRIMARY KEY (``id``)" (Backend.create_query "user" user_columns)
  = true /\
  contains "PRIMARY KEY (``id``)" (ExportSql.create_text "user" user_columns)
  = true.
Proof.
  split; [discriminate|].
  apply (backend_primary_key_is_quoted_twice "user" user_columns).
  discriminate.
Defined.

(** ** A schema-only task *)

Section NoRows.

Context {Rep : Type}.

Lemma sends_no_rows_refl (st : engine Rep) : sends_no_rows st st.
Proof. exists []. rewrite app_nil_r. split; reflexivity. Qed.

Lemma sends_no_rows_trans (a b c : engine Rep) :
  sends_no_rows a b -> sends_no_rows b c -> sends_no_rows a c.
Proof.
  intros (x & Ex & Hx) (y & Ey & Hy). exists (x ++ y)%list. split.
  - rewrite Ey, Ex, app_assoc. reflexivity.
  - rewrite forallb_app, Hx, Hy. reflexivity.
Qed.

Lemma no_rows_lift_src {A} (m : M source A) :
  respects sends_no_rows (@lift_src Rep A m).
Proof.
  intros st. unfold lift_src. destruct (m (src st)).
  exists []. simpl. rewrite app_nil_r. split; reflexivity.
Qed.

Lemma no_rows_update_report (f : Rep -> Rep) :
  respects sends_no_rows (update_report f).
Proof.
  intros st. exists []. simpl. rewrite app_nil_r. split; reflexivity.
Qed.

Lemma no_rows_call env c :
  carries_rows c = false ->
  respects sends_no_rows (@lift_tgt Rep unit (tcall_do env c)).
Proof.
  intros H st. unfold lift_tgt, tcall_do.
  destruct (tgt_faults env c); exists [c]; simpl; rewrite H; auto.
Qed.

Lemma no_rows_scalar env sql :
  respects sends_no_rows (@lift_tgt Rep Z (tquery_scalar env sql)).
Proof.
  intros st. unfold lift_tgt, tquery_scalar, bind, tcall_do.
  destruct (tgt_faults env (TExecute sql)); exists [TExecute sql]; auto.
Qed.

End NoRows.

Ltac rows_step :=
  first
    [ apply (respects_ret _ _ sends_no_rows_refl)
    | apply (respects_raise _ _ sends_no_rows_refl)
    | apply no_rows_lift_src
    | apply no_rows_update_report
    | apply no_rows_scalar
    | apply no_rows_call; reflexivity
    | apply (respects_bind _ _ sends_no_rows_trans); [|intros ?]
    | apply (respects_try _ _ sends_no_rows_trans); [|intros ?]
    | apply (respects_for_each _ _ sends_no_rows_refl sends_no_rows_trans);
      intros ?
    | apply (respects_map_m _ _ sends_no_rows_refl sends_no_rows_trans);
      intros ?
    | match goal with
      | |- respects _ (match ?x with _ => _ end) => destruct x
      end ].

(** X17.  With [include_data] off, the task of the backend sends no row to
    the target: whatever the source holds and whatever fails, no
    [executemany] is among the calls it makes. *)
Theorem schema_only_task_sends_no_rows env opts st :
  Backend.include_data opts = false ->
  sends_no_rows st (snd (Backend.run_migration_task env opts st)).
Proof.
  intros H. revert st.
  change (respects sends_no_rows (Backend.run_migration_task env opts)).
  unfold Backend.run_migration_task, Backend.task_body,
    Backend.rollback_and_fail, Backend.resolution_phase,
    Backend.migration_phase, Backend.migrate_table, Backend.validation_phase,
    Backend.validate_table, Backend.resolve_table, Backend.resolve_group,
    Backend.resolve_dupe, Backend.log.
  rewrite H. repeat rows_step.
Qed.

Lemma schema_only_task_sends_no_rows_witness :
  Backend.include_data
    {| Backend.include_data := false;
       Backend.b_resolve_duplicates := true;
       Backend.b_duplicate_strategy := "remove" |} = false /\
  sends_no_rows (Backend.new_task (source_of "user" user_table) fresh_target)
    (snd (Backend.run_migration_task calm
            {| Backend.include_data := false;
               Backend.b_resolve_duplicates := true;
               Backend.b_duplicate_strategy := "remove" |}
            (Backend.new_task (source_of "user" user_table) fresh_target))).
Proof.
  split; [reflexivity|].
  apply (schema_only_task_sends_no_rows calm
           {| Backend.include_data := false;
              Backend.b_resolve_duplicates := true;
              Backend.b_duplicate_strategy := "remove" |}
           (Backend.new_task (source_of "user" user_table) fresh_target)).
  reflexivity.
Defined.

(** ** Resolving twice *)

(** X18.  Resolving a table with the remove strategy a second time finds
    nothing left to resolve: with no statement failing, on a table of
    distinct rowids that has no column named rowid and whose indexes name
    columns of the table, the first call returns, and a second call on the
    state it leaves returns the empty list, changes no table, commits
    nothing and logs nothing. *)
Theorem resolve_remove_twice env table_name st tb :
  faultless env ->
  s_tables st table_name = Some tb ->
  unique_rowids (rows tb) ->
  well_indexed tb ->
  has_column tb "rowid" = false ->
  exists res st1 st2,
    DuplicateResolver.resolve env table_name "remove" st = (Ret res, st1) /\
    DuplicateResolver.resolve env table_name "remove" st1 = (Ret [], st2) /\
    s_tables st2 = s_tables st1 /\
    s_commits st2 = s_commits st1 /\
    s_log st2 = s_log st1.
Proof.
  intros F Hs N W Hr.
  destruct (resolve_remove_ok env table_name st tb F Hs N W Hr)
    as (res & st1 & rs' & E1 & Hs1 & _ & U).
  exists res, st1, (set_resolutions [] st1).
  split; [exact E1|].
  destruct (resolve_unique_outcome env table_name "remove" st1) as [_ H].
  - rewrite (the_table_some _ _ _ Hs1). exact U.
  - cbv zeta in H. rewrite (H F). repeat split.
Qed.

Lemma resolve_remove_twice_witness :
  exists res st1 st2,
    DuplicateResolver.resolve calm "user" "remove"
      (source_of "user" user_table) = (Ret res, st1) /\
    DuplicateResolver.resolve calm "user" "remove" st1 = (Ret [], st2) /\
    s_tables st2 = s_tables st1 /\
    s_commits st2 = s_commits st1 /\
    s_log st2 = s_log st1.
Proof.
  apply (resolve_remove_twice calm "user" (source_of "user" user_table)
           user_table).
  - intros s. reflexivity.
  - reflexivity.
  - unfold unique_rowids. simpl.
    repeat constructor; simpl; intuition discriminate.
  - intros idx H. simpl in H. contradiction.
  - reflexivity.
Defined.
